(** * PyRTL: memory ports, the combinational-loop detector and integer helpers

    A shallow embedding of [pyrtl/memory.py] (MemBlock, RomBlock), of the
    loop detector of [pyrtl/helperfuncs.py] (_check_for_loop, find_loop) and
    of its integer and bit-pattern helpers (log2, truncate,
    val_to_signed_integer, _convert_int, chop, bitpattern_to_val), with the
    properties of the specification and further properties of the code
    stated and proved over it. *)

From Stdlib Require Import ZArith Ascii String.
From stdpp Require Import gmap list strings pretty.

Open Scope Z_scope.

(** ** Wires, nets and blocks (the graph substrate) *)

(** Modelled from the spec: the classes of wires of [pyrtl/wire.py], which
    the detector tells apart (primary inputs, constants, primary outputs,
    register outputs); [Plain] is a [WireVector] of none of the four. *)
Inductive wire_class := Plain | Input | Const | Output | Register.

#[global] Instance wire_class_eq_dec : EqDecision wire_class.
Proof. solve_decision. Defined.

(** Modelled from the spec: the wire of [pyrtl/wire.py], a node with an
    identity of its own; [wname] stands for the identity of the object. *)
Record WireVector := mkWire { wname : nat; wclass : wire_class }.

#[global] Instance WireVector_eq_dec : EqDecision WireVector.
Proof. solve_decision. Defined.

Definition class_code (c : wire_class) : nat :=
  match c with Plain => 0 | Input => 1 | Const => 2 | Output => 3 | Register => 4 end%nat.

Definition code_class (n : nat) : wire_class :=
  match n with
  | 0 => Plain | 1 => Input | 2 => Const | 3 => Output | _ => Register
  end%nat.

#[global] Instance WireVector_countable : Countable WireVector.
Proof.
  refine (inj_countable' (λ w, (wname w, class_code (wclass w)))
                         (λ p, mkWire p.1 (code_class p.2)) _).
  intros [n []]; reflexivity.
Defined.

(** Modelled from the spec: the net of [pyrtl/core.py], a named tuple
    (op, op_param, args, dests).  The only parameter the memories use is the
    identity of the memory. *)
Record LogicNet := mkNet {
  op : ascii;
  op_param : option nat;
  args : list WireVector;
  dests : list WireVector
}.

#[global] Instance LogicNet_eq_dec : EqDecision LogicNet.
Proof. solve_decision. Defined.

(** Modelled from the spec: the block of [pyrtl/core.py], which owns a set
    of nets and a set of wires.  [logic] is a Python set: the list gives the
    order in which an iteration meets its elements. *)
Record Block := mkBlock {
  logic : list LogicNet;
  wirevector_set : gset WireVector
}.

(** Modelled from the spec: [Block.wirevector_subset] of [pyrtl/core.py],
    called as [block.wirevector_subset(exclude=(Input, Const, Output,
    Register))]: the wires of the block that are none of the four. *)
Definition wirevector_subset_exclude (block : Block) : gset WireVector :=
  filter (λ w, wclass w = Plain) (wirevector_set block).

(** Python exceptions the modelled code can raise. *)
Inductive exn :=
| PyrtlError (msg : string)
| KeyError
| IndexError
| AttributeError
| ValueError
| TypeError.

#[global] Instance exn_eq_dec : EqDecision exn.
Proof. solve_decision. Defined.

(** ** The loop detector *)

Module Loop.

(** *** Phase 1: [_check_for_loop] *)

(** [any(n_wire in wires_left for n_wire in net.args)] *)
Definition any_arg_left (wires_left : gset WireVector) (net : LogicNet) : bool :=
  existsb (λ n_wire, bool_decide (n_wire ∈ wires_left)) (args net).

(** One execution of the [for net in logic_left] loop: [wires_left] is
    updated while the iteration runs, the nets to remove are collected. *)
Fixpoint prune_pass (nets : list LogicNet) (wires_left : gset WireVector)
  : list LogicNet * gset WireVector :=
  match nets with
  | [] => ([], wires_left)
  | net :: rest =>
      if any_arg_left wires_left net
      then prune_pass rest wires_left
      else
        let '(nets_to_remove, wires_left') :=
          prune_pass rest (wires_left ∖ list_to_set (dests net)) in
        (net :: nets_to_remove, wires_left')
  end.

(** [logic_left -= nets_to_remove] *)
Definition remove_nets (logic_left nets_to_remove : list LogicNet) : list LogicNet :=
  filter (λ net, net ∉ nets_to_remove) logic_left.

(** The [while prev_logic_left > len(logic_left)] loop; [None] is
    running out of fuel. *)
Fixpoint prune_loop (fuel : nat) (prev_logic_left : nat)
    (logic_left : list LogicNet) (wires_left : gset WireVector)
  : option (list LogicNet * gset WireVector) :=
  match fuel with
  | O => None
  | S fuel' =>
      if decide (length logic_left < prev_logic_left)%nat then
        let '(nets_to_remove, wires_left') := prune_pass logic_left wires_left in
        prune_loop fuel' (length logic_left)
                   (remove_nets logic_left nets_to_remove) wires_left'
      else Some (logic_left, wires_left)
  end.

(** [_check_for_loop]: [Some None] is Python's [None], [Some (Some _)] the
    pair [(wires_left, logic_left)]. *)
Definition _check_for_loop (fuel : nat) (block : Block)
  : option (option (gset WireVector * list LogicNet)) :=
  match prune_loop fuel (length (logic block) + 1)
                   (logic block) (wirevector_subset_exclude block) with
  | None => None
  | Some (logic_left, wires_left) =>
      if decide (0 = length logic_left)%nat then Some None
      else Some (Some (wires_left, logic_left))
  end.

(** *** Phase 2: the search of [find_loop] *)

(** [_FilteringState]: [net] is set on the first visit only. *)
Record _FilteringState := mkFrame {
  dst_w : WireVector;
  arg_num : Z;
  net : option LogicNet
}.

#[global] Instance _FilteringState_eq_dec : EqDecision _FilteringState.
Proof. solve_decision. Defined.

Definition new_FilteringState (w : WireVector) : _FilteringState :=
  mkFrame w (-1) None.

(** The variables of [find_loop] that the loop mutates.  [checking_stack] is
    the Python list: its last element is [checking_stack[-1]]. *)
Record search_state := mkState {
  wires_left : gset WireVector;
  current_wires : gset WireVector;
  checking_stack : list _FilteringState
}.

(** [dest_nets = {dest_w: net_ for net_ in logic_left for dest_w in net_.dests}]:
    a later net overwrites an earlier one. *)
Definition build_dest_nets (logic_left : list LogicNet) : gmap WireVector LogicNet :=
  foldl (λ m net_, foldl (λ m' dest_w, <[dest_w := net_]> m') m (dests net_))
        ∅ logic_left.

(** The closure [dead_end]. *)
Definition dead_end (st : search_state) (cur_item : _FilteringState) : search_state :=
  mkState (wires_left st ∖ {[dst_w cur_item]})
          (current_wires st ∖ {[dst_w cur_item]})
          (removelast (checking_stack st)).

(** The [for f_state in reversed(checking_stack)] loop with its [else]
    clause: [None] is the [else] branch (no frame matched). *)
Fixpoint scan_loop (next_wire : WireVector) (reversed_stack : list _FilteringState)
  : option (list _FilteringState) :=
  match reversed_stack with
  | [] => None
  | f_state :: rest =>
      if decide (dst_w f_state = next_wire) then Some [f_state]
      else match scan_loop next_wire rest with
           | Some loop_info => Some (f_state :: loop_info)
           | None => None
           end
  end.

Inductive step_result :=
| Continue (st : search_state)
| Return (loop_info : list _FilteringState)
| Raise (e : exn).

Definition shouldnt_get_here : exn :=
  PyrtlError "Shouldn't get here! Couldn't figure out the loop".

Definition error_in_detecting : exn :=
  PyrtlError "Error in detecting loop".

(** The part of the loop body after the first-visit block, for the top
    frame [cur_item] (its [net] already set).  The counter starts at -1 and
    is incremented before it is used as an index, so that the index is not
    negative and [args[arg_num]] does not count from the end. *)
Definition advance (st : search_state) (cur_item : _FilteringState) : step_result :=
  let cur_item := mkFrame (dst_w cur_item) (arg_num cur_item + 1) (net cur_item) in
  match net cur_item with
  | None => Raise AttributeError
  | Some cur_net =>
      if decide (arg_num cur_item = Z.of_nat (length (args cur_net)))
      then Continue (dead_end st cur_item)
      else
        match args cur_net !! Z.to_nat (arg_num cur_item) with
        | None => Raise IndexError
        | Some next_wire =>
            let stack := removelast (checking_stack st) ++ [cur_item] in
            if decide (next_wire ∉ current_wires st) then
              Continue (mkState (wires_left st)
                                (current_wires st ∪ {[next_wire]})
                                (stack ++ [new_FilteringState next_wire]))
            else
              match scan_loop next_wire (reverse stack) with
              | Some loop_info => Return loop_info
              | None => Raise shouldnt_get_here
              end
        end
  end.

(** One iteration of [while len(checking_stack)], the stack not empty. *)
Definition loop_body (dest_nets : gmap WireVector LogicNet) (st : search_state)
  : step_result :=
  match last (checking_stack st) with
  | None => Raise IndexError
  | Some cur_item =>
      if decide (arg_num cur_item = -1) then
        if decide (dst_w cur_item ∉ wires_left st) then
          Continue (dead_end st cur_item)
        else
          let st := mkState (wires_left st)
                            (current_wires st ∪ {[dst_w cur_item]})
                            (checking_stack st) in
          match dest_nets !! dst_w cur_item with
          | None => Raise KeyError
          | Some cur_net =>
              let cur_item := mkFrame (dst_w cur_item) (arg_num cur_item) (Some cur_net) in
              if decide (op cur_net = "r"%char)
              then Continue (dead_end st cur_item)
              else advance st cur_item
          end
      else advance st cur_item
  end.

(** What a call of [find_loop] does. *)
Inductive outcome :=
| ReturnNone
| ReturnLoop (loop_info : list _FilteringState)
| Raised (e : exn).

Fixpoint search_loop (fuel : nat) (dest_nets : gmap WireVector LogicNet)
    (st : search_state) : option outcome :=
  match fuel with
  | O => None
  | S fuel' =>
      match checking_stack st with
      | [] => Some (Raised error_in_detecting)
      | _ :: _ =>
          match loop_body dest_nets st with
          | Continue st' => search_loop fuel' dest_nets st'
          | Return loop_info => Some (ReturnLoop loop_info)
          | Raise e => Some (Raised e)
          end
      end
  end.

(** [random.sample(wires_left, 1)[0]]: [rnd] is the random choice. *)
Definition random_sample (rnd : nat) (wires : gset WireVector) : option WireVector :=
  elements wires !! (rnd mod size wires)%nat.

Definition initial_state (wires_left : gset WireVector) (initial_w : WireVector)
  : search_state :=
  mkState wires_left ∅ [new_FilteringState initial_w].

Section FindLoop.

(** [Block.sanity_check] is defined in [pyrtl/core.py]; the detector only
    calls it.  It is a parameter here: [false] when it raises. *)
Variable sanity_check : Block → bool.

Definition sanity_error : exn := PyrtlError "sanity check failed".

Definition find_loop (fuel rnd : nat) (block : Block) : option outcome :=
  if sanity_check block then
    match _check_for_loop fuel block with
    | None => None
    | Some None => Some ReturnNone
    | Some (Some (wires_left, logic_left)) =>
        let dest_nets := build_dest_nets logic_left in
        match random_sample rnd wires_left with
        | None => Some (Raised ValueError)
        | Some initial_w =>
            search_loop fuel dest_nets (initial_state wires_left initial_w)
        end
    end
  else Some (Raised sanity_error).

End FindLoop.

(** *** Blocks that pass the sanity check *)

(** What is assumed of a block that passed [Block.sanity_check], which is
    not part of the sources at hand: a destination is no Input and no Const
    and is a Register exactly when the net is a register net; an argument is
    no Output; the wires of a net belong to the block; a wire has one
    driving net at most; a plain wire of the block is driven. *)
Definition dest_ok (n : LogicNet) (x : WireVector) : Prop :=
  wclass x ≠ Input ∧ wclass x ≠ Const ∧ (wclass x = Register ↔ op n = "r"%char).

Definition net_ok (block : Block) (n : LogicNet) : Prop :=
  Forall (λ x, dest_ok n x ∧ x ∈ wirevector_set block) (dests n) ∧
  Forall (λ x, wclass x ≠ Output ∧ x ∈ wirevector_set block) (args n) ∧
  Forall (λ m, Forall (λ x, x ∈ dests m → n = m) (dests n)) (logic block).

Definition driven (block : Block) (x : WireVector) : Prop :=
  wclass x = Plain → Exists (λ n, x ∈ dests n) (logic block).

Definition sane (block : Block) : Prop :=
  Forall (net_ok block) (logic block) ∧ set_Forall (driven block) (wirevector_set block).

#[global] Instance sane_dec block : Decision (sane block).
Proof. unfold sane, net_ok, driven, dest_ok. apply _. Defined.

(** The sanity check as a function. *)
Definition sane_check (block : Block) : bool := bool_decide (sane block).

(** *** Combinational loops *)

(** An output of [m] is an input of [n]. *)
Definition feeds (m n : LogicNet) : Prop := ∃ x, x ∈ dests m ∧ x ∈ args n.

(** Every element of a list is related to the next one. *)
Fixpoint chain {A : Type} (R : A → A → Prop) (l : list A) : Prop :=
  match l with
  | x :: (y :: _) as rest => R x y ∧ chain R rest
  | _ => True
  end.

(** [ns] is a cycle of nets of the block, none of them a register: each net
    feeds the next one and the last one feeds the first. *)
Definition comb_loop (block : Block) (ns : list LogicNet) : Prop :=
  ns ≠ [] ∧
  Forall (λ n, n ∈ logic block ∧ op n ≠ "r"%char) ns ∧
  chain feeds (ns ++ take 1 ns).

(** The nets of the frames [find_loop] returns. *)
Definition frame_nets (loop_info : list _FilteringState) (ns : list LogicNet) : Prop :=
  Forall2 (λ f n, net f = Some n ∧ dst_w f ∈ dests n) loop_info ns.

(** *** Invariants of the pruning *)

(** Every net left has an argument among the wires left. *)
Definition fed (logic_left : list LogicNet) (wires_left : gset WireVector) : Prop :=
  ∀ n, n ∈ logic_left → ∃ a, a ∈ args n ∧ a ∈ wires_left.

(** Every wire left is the destination of a net left. *)
Definition all_driven (logic_left : list LogicNet) (wires_left : gset WireVector) : Prop :=
  ∀ x, x ∈ wires_left → ∃ n, n ∈ logic_left ∧ x ∈ dests n.

(** Every net of [ns] has an argument left that a net of [ns] drives. *)
Definition fed_within (ns : list LogicNet) (wires_left : gset WireVector) : Prop :=
  ∀ n, n ∈ ns → ∃ a, a ∈ args n ∧ a ∈ wires_left ∧ ∃ m, m ∈ ns ∧ a ∈ dests m.

(** *** The iterations of the search, case by case *)

(** The top frame [cur_item] after the first-visit block of an iteration
    that goes on past it: [cur_item'] is the frame and [current'] the
    set [current_wires] then. *)
Definition entered (dest_nets : gmap WireVector LogicNet) (st : search_state)
    (cur_item cur_item' : _FilteringState) (current' : gset WireVector) : Prop :=
  (arg_num cur_item = -1 ∧ dst_w cur_item ∈ wires_left st ∧
   current' = current_wires st ∪ {[dst_w cur_item]} ∧
   ∃ n, dest_nets !! dst_w cur_item = Some n ∧ op n ≠ "r"%char ∧
        cur_item' = mkFrame (dst_w cur_item) (-1) (Some n))
  ∨ (arg_num cur_item ≠ -1 ∧ cur_item' = cur_item ∧ current' = current_wires st).

(** What one iteration does, by the branch it takes. *)
Inductive body_spec (dest_nets : gmap WireVector LogicNet) (st : search_state)
  : step_result → Prop :=
| spec_dead_end below cur_item :
    checking_stack st = below ++ [cur_item] →
    arg_num cur_item = -1 →
    dst_w cur_item ∉ wires_left st ∨
      (∃ n, dest_nets !! dst_w cur_item = Some n ∧ op n = "r"%char) →
    body_spec dest_nets st
      (Continue (mkState (wires_left st ∖ {[dst_w cur_item]})
                         (current_wires st ∖ {[dst_w cur_item]}) below))
| spec_key_error below cur_item :
    checking_stack st = below ++ [cur_item] →
    arg_num cur_item = -1 →
    dst_w cur_item ∈ wires_left st →
    dest_nets !! dst_w cur_item = None →
    body_spec dest_nets st (Raise KeyError)
| spec_attribute_error below cur_item cur_item' current' :
    checking_stack st = below ++ [cur_item] →
    entered dest_nets st cur_item cur_item' current' →
    net cur_item' = None →
    body_spec dest_nets st (Raise AttributeError)
| spec_exhausted below cur_item cur_item' current' n :
    checking_stack st = below ++ [cur_item] →
    entered dest_nets st cur_item cur_item' current' →
    net cur_item' = Some n →
    arg_num cur_item' + 1 = Z.of_nat (length (args n)) →
    body_spec dest_nets st
      (Continue (mkState (wires_left st ∖ {[dst_w cur_item]})
                         (current' ∖ {[dst_w cur_item]}) below))
| spec_index_error below cur_item cur_item' current' n :
    checking_stack st = below ++ [cur_item] →
    entered dest_nets st cur_item cur_item' current' →
    net cur_item' = Some n →
    arg_num cur_item' + 1 ≠ Z.of_nat (length (args n)) →
    args n !! Z.to_nat (arg_num cur_item' + 1) = None →
    body_spec dest_nets st (Raise IndexError)
| spec_push below cur_item cur_item' current' n next_wire :
    checking_stack st = below ++ [cur_item] →
    entered dest_nets st cur_item cur_item' current' →
    net cur_item' = Some n →
    arg_num cur_item' + 1 ≠ Z.of_nat (length (args n)) →
    args n !! Z.to_nat (arg_num cur_item' + 1) = Some next_wire →
    next_wire ∉ current' →
    body_spec dest_nets st
      (Continue (mkState (wires_left st) (current' ∪ {[next_wire]})
                   (below ++ [mkFrame (dst_w cur_item) (arg_num cur_item' + 1) (Some n);
                              new_FilteringState next_wire])))
| spec_scan below cur_item cur_item' current' n next_wire :
    checking_stack st = below ++ [cur_item] →
    entered dest_nets st cur_item cur_item' current' →
    net cur_item' = Some n →
    arg_num cur_item' + 1 ≠ Z.of_nat (length (args n)) →
    args n !! Z.to_nat (arg_num cur_item' + 1) = Some next_wire →
    next_wire ∈ current' →
    body_spec dest_nets st
      (match scan_loop next_wire
               (reverse (below ++ [mkFrame (dst_w cur_item) (arg_num cur_item' + 1) (Some n)])) with
       | Some loop_info => Return loop_info
       | None => Raise shouldnt_get_here
       end).

(** *** Invariants of the search *)

Definition visited (f : _FilteringState) : Prop := arg_num f ≠ -1.

#[global] Instance visited_dec f : Decision (visited f).
Proof. unfold visited. apply _. Defined.

(** A frame that was visited holds the net of its wire, which is no
    register, and the index of one of its arguments. *)
Definition frame_ok (dest_nets : gmap WireVector LogicNet) (f : _FilteringState) : Prop :=
  arg_num f = -1 ∨
  ∃ n, net f = Some n ∧ dest_nets !! dst_w f = Some n ∧ op n ≠ "r"%char ∧
       0 <= arg_num f < Z.of_nat (length (args n)).

(** The frame [g] was pushed while [f] was on top: its wire is the argument
    of [f] that [f] is at. *)
Definition link (f g : _FilteringState) : Prop :=
  visited f ∧
  ∃ n, net f = Some n ∧ args n !! Z.to_nat (arg_num f) = Some (dst_w g).

Record stack_inv (dest_nets : gmap WireVector LogicNet) (st : search_state) : Prop := {
  inv_nodup : NoDup (dst_w <$> checking_stack st);
  inv_current_on_stack :
    ∀ x, x ∈ current_wires st → x ∈ dst_w <$> checking_stack st;
  inv_visited_current :
    ∀ f, f ∈ checking_stack st → visited f → dst_w f ∈ current_wires st;
  inv_frames : Forall (frame_ok dest_nets) (checking_stack st);
  inv_linked : chain link (checking_stack st)
}.

(** The states the loop of [find_loop] goes through from [st0]. *)
Inductive reachable (dest_nets : gmap WireVector LogicNet) (st0 : search_state)
  : search_state → Prop :=
| reachable_start : reachable dest_nets st0 st0
| reachable_step st st' :
    reachable dest_nets st0 st →
    checking_stack st ≠ [] →
    loop_body dest_nets st = Continue st' →
    reachable dest_nets st0 st'.

(** The stack when it is scanned for the frames of the loop, in the
    iteration that starts in [st]: the counter of the top frame was
    incremented and its argument [next_wire] is in [current_wires]. *)
Definition stack_at_scan (dest_nets : gmap WireVector LogicNet) (st : search_state)
    (next_wire : WireVector) (stack : list _FilteringState) : Prop :=
  ∃ below cur_item n,
    checking_stack st = below ++ [cur_item] ∧
    stack = below ++ [mkFrame (dst_w cur_item) (arg_num cur_item + 1) (Some n)] ∧
    dest_nets !! dst_w cur_item = Some n ∧
    args n !! Z.to_nat (arg_num cur_item + 1) = Some next_wire.

(** [k] iterations from [st], when none of them leaves the loop. *)
Fixpoint iterate_body (k : nat) (dest_nets : gmap WireVector LogicNet)
    (st : search_state) : option search_state :=
  match k with
  | O => Some st
  | S k' =>
      match checking_stack st with
      | [] => None
      | _ :: _ =>
          match loop_body dest_nets st with
          | Continue st' => iterate_body k' dest_nets st'
          | _ => None
          end
      end
  end.

(** The nets of [dest_nets] are nets of [logic_left], each under a wire it
    drives. *)
Definition dest_nets_of (logic_left : list LogicNet)
    (dest_nets : gmap WireVector LogicNet) : Prop :=
  ∀ x n, dest_nets !! x = Some n → n ∈ logic_left ∧ x ∈ dests n.

(** The wire of [g] is an argument of the net of [h]. *)
Definition frame_feeds (g h : _FilteringState) : Prop :=
  ∃ m, net h = Some m ∧ dst_w g ∈ args m.

(** *** A measure of what the search has left to do *)

Definition weight (f : _FilteringState) : Z :=
  match net f with
  | Some n => if decide (visited f) then 2 * (Z.of_nat (length (args n)) - arg_num f) else 1
  | None => 1
  end.

Definition total_weight (stack : list _FilteringState) : Z :=
  foldr (λ f acc, weight f + acc) 0 stack.

(** The wires left that no visited frame of the stack is at. *)
Definition unvisited_left (st : search_state) : gset WireVector :=
  wires_left st ∖ list_to_set (dst_w <$> filter visited (checking_stack st)).

Definition measure (K : Z) (st : search_state) : Z :=
  Z.of_nat (size (unvisited_left st)) * (2 * K + 1) + total_weight (checking_stack st).

Definition max_args (nets : list LogicNet) : nat :=
  foldr (λ n acc, Nat.max (length (args n)) acc) 0%nat nets.

(** Fuel that is enough for both loops on a block. *)
Definition enough_fuel (block : Block) : nat :=
  (length (logic block) + 2 +
   (size (wirevector_subset_exclude block) * (2 * max_args (logic block) + 1) + 2))%nat.

(** *** What is left after the pruning of a sane block *)

(** Every wire of [wires] has a net in [dest_nets] that is no register and
    has an argument in [wires]. *)
Definition closed (dest_nets : gmap WireVector LogicNet) (wires : gset WireVector) : Prop :=
  ∀ x, x ∈ wires →
    ∃ n, dest_nets !! x = Some n ∧ op n ≠ "r"%char ∧ ∃ a, a ∈ args n ∧ a ∈ wires.

(** On closed wires the search removes no wire that was left, and the
    arguments it went past are not among them. *)
Record live_inv (W0 : gset WireVector) (st : search_state) : Prop := {
  live_wires : wires_left st = W0;
  live_bottom : ∃ f rest, checking_stack st = f :: rest ∧ dst_w f ∈ W0;
  live_visited : ∀ f, f ∈ checking_stack st → visited f → dst_w f ∈ W0;
  live_past : ∀ f n (j : nat) a, f ∈ checking_stack st → visited f → net f = Some n →
      (Z.of_nat j < arg_num f) → args n !! j = Some a → a ∉ W0;
  live_top : ∀ f n a, last (checking_stack st) = Some f → visited f → net f = Some n →
      args n !! Z.to_nat (arg_num f) = Some a → a ∉ W0
}.

(** **** Small netlists to run the detector on *)

Definition wire (n : nat) : WireVector := mkWire n Plain.
Definition gate (o : ascii) (a b d : WireVector) : LogicNet := mkNet o None [a; b] [d].

(** Two gates whose outputs feed each other. *)
Definition two_gate_block : Block :=
  mkBlock [gate "&" (mkWire 0 Input) (wire 2) (wire 1);
           gate "|" (mkWire 0 Input) (wire 1) (wire 2)]
          (list_to_set [mkWire 0 Input; wire 1; wire 2]).

(** Two such pairs of gates, apart from each other. *)
Definition two_loop_block : Block :=
  mkBlock [gate "&" (mkWire 0 Input) (wire 2) (wire 1);
           gate "|" (mkWire 0 Input) (wire 1) (wire 2);
           gate "&" (mkWire 0 Input) (wire 4) (wire 3);
           gate "|" (mkWire 0 Input) (wire 3) (wire 4)]
          (list_to_set [mkWire 0 Input; wire 1; wire 2; wire 3; wire 4]).

(** A chain of an AND gate and an OR gate from two inputs to an output. *)
Definition chain_block : Block :=
  mkBlock [gate "&" (mkWire 0 Input) (mkWire 1 Input) (wire 2);
           gate "|" (wire 2) (mkWire 0 Input) (mkWire 3 Output)]
          (list_to_set [mkWire 0 Input; mkWire 1 Input; wire 2; mkWire 3 Output]).

(** The feedback of the two gates, routed through a register. *)
Definition register_block : Block :=
  mkBlock [gate "&" (mkWire 0 Input) (mkWire 2 Register) (wire 1);
           mkNet "r" None [wire 1] [mkWire 2 Register]]
          (list_to_set [mkWire 0 Input; wire 1; mkWire 2 Register]).

(** What the pruning leaves of the two gates: everything. *)
Definition two_gate_wires : gset WireVector := list_to_set [wire 1; wire 2].
Definition two_gate_nets : gmap WireVector LogicNet :=
  build_dest_nets (logic two_gate_block).

(** The state of the search from wire 2 in which the loop is found, and
    the frames returned then. *)
Definition two_gate_scan : search_state :=
  default (initial_state two_gate_wires (wire 2))
          (iterate_body 5 two_gate_nets (initial_state two_gate_wires (wire 2))).

Definition two_gate_found : list _FilteringState :=
  match loop_body two_gate_nets two_gate_scan with
  | Return loop_info => loop_info
  | _ => []
  end.

End Loop.
(** ** Memories *)

Module Mem.

(** The [romdata] of a RomBlock: a function (its result is [None] when the
    call raises), or a container indexed with [self.data[address]]. *)
Inductive romdata :=
| RomFunction (f : Z → option Z)
| RomDict (d : gmap Z Z)
| RomList (l : list Z).

(** The attributes a RomBlock adds to a MemBlock; [current_copy] is a
    reference to a memory object. *)
Record RomFields := mkRom {
  data : romdata;
  build_new_roms : bool;
  current_copy : nat;
  pad_with_zeros : bool
}.

(** A memory object.  [rom] is [None] for an instance of MemBlock itself.
    A memory object is referred to by its [id], which [_memIndex] makes
    unique. *)
Record MemBlock := mkMem {
  max_read_ports : option Z;
  num_read_ports : Z;
  bitwidth : Z;
  addrwidth : Z;
  readport_nets : list LogicNet;
  id : nat;
  asynchronous : bool;
  max_write_ports : option Z;
  num_write_ports : Z;
  writeport_nets : list LogicNet;
  rom : option RomFields
}.

(** Assignments to one attribute of a memory object. *)
Definition with_num_read_ports (n : Z) (mem : MemBlock) : MemBlock :=
  mkMem (max_read_ports mem) n (bitwidth mem) (addrwidth mem) (readport_nets mem)
        (id mem) (asynchronous mem) (max_write_ports mem) (num_write_ports mem)
        (writeport_nets mem) (rom mem).

Definition with_readport_nets (nets : list LogicNet) (mem : MemBlock) : MemBlock :=
  mkMem (max_read_ports mem) (num_read_ports mem) (bitwidth mem) (addrwidth mem) nets
        (id mem) (asynchronous mem) (max_write_ports mem) (num_write_ports mem)
        (writeport_nets mem) (rom mem).

Definition with_num_write_ports (n : Z) (mem : MemBlock) : MemBlock :=
  mkMem (max_read_ports mem) (num_read_ports mem) (bitwidth mem) (addrwidth mem)
        (readport_nets mem) (id mem) (asynchronous mem) (max_write_ports mem) n
        (writeport_nets mem) (rom mem).

Definition with_writeport_nets (nets : list LogicNet) (mem : MemBlock) : MemBlock :=
  mkMem (max_read_ports mem) (num_read_ports mem) (bitwidth mem) (addrwidth mem)
        (readport_nets mem) (id mem) (asynchronous mem) (max_write_ports mem)
        (num_write_ports mem) nets (rom mem).

Definition with_current_copy (copy : nat) (mem : MemBlock) : MemBlock :=
  mkMem (max_read_ports mem) (num_read_ports mem) (bitwidth mem) (addrwidth mem)
        (readport_nets mem) (id mem) (asynchronous mem) (max_write_ports mem)
        (num_write_ports mem) (writeport_nets mem)
        (match rom mem with
         | Some fields => Some (mkRom (data fields) (build_new_roms fields) copy
                                      (pad_with_zeros fields))
         | None => None
         end).

(** The state the memory code reads and writes: the working block, the
    counter behind fresh wires, [_memIndex], and the memory objects. *)
Record world := mkWorld {
  working_block : Block;
  next_wire : nat;
  _memIndex : nat;
  heap : gmap nat MemBlock
}.

Inductive result (A : Type) :=
| Ok (a : A)
| Err (e : exn).
Arguments Ok {A} a.
Arguments Err {A} e.

(** Computations that read and write the world and may raise: what was
    written before an exception stays written. *)
Definition M (A : Type) : Type := world → result A * world.

#[global] Instance M_ret : MRet M := λ A a σ, (Ok a, σ).
#[global] Instance M_bind : MBind M := λ A B k m σ,
  match m σ with
  | (Ok a, σ') => k a σ'
  | (Err e, σ') => (Err e, σ')
  end.

Definition raise {A : Type} (e : exn) : M A := λ σ, (Err e, σ).
Definition get_world : M world := λ σ, (Ok σ, σ).
Definition put_world (σ : world) : M unit := λ _, (Ok tt, σ).

(** Reading an object through a reference. *)
Definition get_mem (self : nat) : M MemBlock :=
  σ ← get_world;
  match heap σ !! self with
  | Some mem => mret mem
  | None => raise AttributeError
  end.

(** Storing an object under a reference. *)
Definition set_mem (self : nat) (mem : MemBlock) : M unit :=
  σ ← get_world;
  put_world (mkWorld (working_block σ) (next_wire σ) (_memIndex σ)
                     (<[self := mem]> (heap σ))).

(** An assignment to an attribute of the object [self] refers to. *)
Definition set_attr (self : nat) (f : MemBlock → MemBlock) : M unit :=
  mem ← get_mem self;
  set_mem self (f mem).

(** Modelled from the spec: the constructor of [pyrtl/wire.py], called as
    [WireVector(bitwidth=...)]: a new wire, registered with the block. *)
Definition new_WireVector : M WireVector :=
  σ ← get_world;
  let wire := mkWire (next_wire σ) Plain in
  put_world (mkWorld (mkBlock (logic (working_block σ))
                              ({[wire]} ∪ wirevector_set (working_block σ)))
                     (S (next_wire σ)) (_memIndex σ) (heap σ));;
  mret wire.

(** Modelled from the spec: [Block.add_net] of [pyrtl/core.py], called as
    [working_block().add_net(net)]: the net is registered; [logic] is a
    set. *)
Definition add_net (net : LogicNet) : M unit :=
  σ ← get_world;
  let block := working_block σ in
  let logic' := if decide (net ∈ logic block) then logic block
                else logic block ++ [net] in
  put_world (mkWorld (mkBlock logic' (wirevector_set block))
                     (next_wire σ) (_memIndex σ) (heap σ)).

(** Modelled from the spec: [_NameIndexer.next_index] of [pyrtl/core.py],
    called as [_memIndex.next_index()]: a fresh identity. *)
Definition next_index : M nat :=
  σ ← get_world;
  put_world (mkWorld (working_block σ) (next_wire σ) (S (_memIndex σ)) (heap σ));;
  mret (_memIndex σ).

Definition read_ports_exceeded (max : Z) : exn :=
  PyrtlError ("maximum number of read ports (" +:+ pretty max +:+ ") exceeded").

Definition write_ports_exceeded (max : Z) : exn :=
  PyrtlError ("maximum number of write ports (" +:+ pretty max +:+ ") exceeded").

(** [MemBlock.__init__]; the name of the memory is left out. *)
Definition MemBlock_init (bitwidth addrwidth : Z) (max_read_ports max_write_ports : option Z)
    (asynchronous : bool) (rom : nat → option RomFields) : M nat :=
  if decide (bitwidth <= 0) then raise (PyrtlError "bitwidth must be >= 1")
  else if decide (addrwidth <= 0) then raise (PyrtlError "addrwidth must be >= 1")
  else
    self ← next_index;
    set_mem self (mkMem max_read_ports 0 bitwidth addrwidth [] self asynchronous
                        max_write_ports 0 [] (rom self));;
    mret self.

(** [MemBlock(bitwidth, addrwidth, max_read_ports=2, max_write_ports=1, ...)] *)
Definition new_MemBlock (bitwidth addrwidth : Z) (max_read_ports max_write_ports : option Z)
    (asynchronous : bool) : M nat :=
  MemBlock_init bitwidth addrwidth max_read_ports max_write_ports asynchronous (λ _, None).

(** [MemBlock._build_read_port] *)
Definition MemBlock_build_read_port (self : nat) (addr : WireVector) : M WireVector :=
  mem ← get_mem self;
  match max_read_ports mem with
  | Some max =>
      set_attr self (λ m, with_num_read_ports (num_read_ports m + 1) m);;
      mem ← get_mem self;
      if decide (num_read_ports mem > max) then raise (read_ports_exceeded max)
      else mret tt
  | None => mret tt
  end;;
  data ← new_WireVector;
  mem ← get_mem self;
  let readport_net := mkNet "m" (Some (id mem)) [addr] [data] in
  add_net readport_net;;
  set_attr self (λ m, with_readport_nets (readport_nets m ++ [readport_net]) m);;
  mret data.

(** [MemBlock._readaccess] *)
Definition _readaccess (self : nat) (addr : WireVector) : M WireVector :=
  MemBlock_build_read_port self addr.

(** [MemBlock._build]: builds a write port. *)
Definition _build (self : nat) (addr data enable : WireVector) : M unit :=
  mem ← get_mem self;
  match max_write_ports mem with
  | Some max =>
      set_attr self (λ m, with_num_write_ports (num_write_ports m + 1) m);;
      mem ← get_mem self;
      if decide (num_write_ports mem > max) then raise (write_ports_exceeded max)
      else mret tt
  | None => mret tt
  end;;
  mem ← get_mem self;
  let writeport_net := mkNet "@" (Some (id mem)) [addr; data; enable] [] in
  add_net writeport_net;;
  set_attr self (λ m, with_writeport_nets (writeport_nets m ++ [writeport_net]) m).

(** [RomBlock.__init__]: [max_write_ports=0], [current_copy = self]. *)
Definition new_RomBlock (bitwidth addrwidth : Z) (romdata : romdata)
    (max_read_ports : option Z) (build_new_roms asynchronous pad_with_zeros : bool) : M nat :=
  MemBlock_init bitwidth addrwidth max_read_ports (Some 0) asynchronous
                (λ self, Some (mkRom romdata build_new_roms self pad_with_zeros)).

Definition get_rom (self : nat) : M RomFields :=
  mem ← get_mem self;
  match rom mem with
  | Some fields => mret fields
  | None => raise AttributeError
  end.

(** [RomBlock.__setitem__] *)
Definition RomBlock_setitem {I V : Type} (self : nat) (item : I) (assignment : V) : M unit :=
  raise (PyrtlError "no writing to a read-only memory").

(** [RomBlock._make_copy]: [build_new_roms] is not passed on and takes its
    default, [False]. *)
Definition RomBlock_make_copy (self : nat) : M nat :=
  mem ← get_mem self;
  fields ← get_rom self;
  new_RomBlock (bitwidth mem) (addrwidth mem) (data fields) (max_read_ports mem)
               false (asynchronous mem) (pad_with_zeros fields).

(** [a >= b] where [b] may be [None] (a [TypeError] in Python 3). *)
Definition ge_cap (a : Z) (b : option Z) : M bool :=
  match b with
  | Some b => mret (bool_decide (a >= b))
  | None => raise TypeError
  end.

(** [RomBlock._build_read_port] *)
Definition RomBlock_build_read_port (self : nat) (addr : WireVector) : M WireVector :=
  fields ← get_rom self;
  full ← (if build_new_roms fields then
            copy ← get_mem (current_copy fields);
            ge_cap (num_read_ports copy) (max_read_ports copy)
          else mret false);
  (if full : bool then
     copy ← RomBlock_make_copy self;
     set_attr self (with_current_copy copy)
   else mret tt);;
  fields ← get_rom self;
  MemBlock_build_read_port (current_copy fields) addr.

(** [self.data[address]] on a list: a negative index counts from the end. *)
Definition list_getitem (l : list Z) (address : Z) : option Z :=
  if decide (address < 0) then
    if decide (Z.of_nat (length l) + address < 0) then None
    else l !! Z.to_nat (Z.of_nat (length l) + address)
  else l !! Z.to_nat address.

Definition invalid_address (address : Z) : exn :=
  PyrtlError ("Invalid address, " +:+ pretty address +:+ " specified").

Definition key_invalid : exn :=
  PyrtlError "RomBlock key is invalid, consider using pad_with_zeros=True for defaults".

Definition index_invalid : exn :=
  PyrtlError "RomBlock index is invalid, consider using pad_with_zeros=True for defaults".

Definition invalid_value : exn := PyrtlError "invalid value for RomBlock data".

(** The last block of [_get_read_data]: the check of the value. *)
Definition check_value (mem : MemBlock) (value : Z) : result Z :=
  if decide (value < 0 ∨ value >= 2 ^ bitwidth mem) then Err invalid_value
  else Ok value.

(** [RomBlock._get_read_data]: it reads the object and changes nothing.
    Addresses and stored values are integers. *)
Definition _get_read_data (self : MemBlock) (address : Z) : result Z :=
  match rom self with
  | None => Err AttributeError
  | Some fields =>
      if decide (address < 0 ∨ address > 2 ^ addrwidth self - 1)
      then Err (invalid_address address)
      else
        match data fields with
        | RomFunction f =>
            match f address with
            | Some value => check_value self value
            | None => Err (PyrtlError "Invalid data function for RomBlock")
            end
        | RomDict d =>
            match d !! address with
            | Some value => check_value self value
            | None =>
                if pad_with_zeros fields then check_value self 0 else Err key_invalid
            end
        | RomList l =>
            match list_getitem l address with
            | Some value => check_value self value
            | None =>
                if pad_with_zeros fields then check_value self 0 else Err index_invalid
            end
        end
  end.

(** A caller that allocates ports one after the other and goes on after an
    exception. *)
Inductive port_request :=
| ReadPort (addr : WireVector)
| WritePort (addr data enable : WireVector).

Definition request (self : nat) (r : port_request) : M unit :=
  match r with
  | ReadPort addr => _readaccess self addr;; mret tt
  | WritePort addr data enable => _build self addr data enable
  end.

Fixpoint requests (self : nat) (rs : list port_request) (σ : world) : world :=
  match rs with
  | [] => σ
  | r :: rest => requests self rest (request self r σ).2
  end.

(** The same for a RomBlock, through [__getitem__] made concrete and
    [__setitem__]. *)
Inductive rom_request :=
| RomRead (addr : WireVector)
| RomAssign (item assignment : WireVector).

Definition rom_request_run (self : nat) (r : rom_request) : M unit :=
  match r with
  | RomRead addr => RomBlock_build_read_port self addr;; mret tt
  | RomAssign item assignment => RomBlock_setitem self item assignment
  end.

Fixpoint rom_requests (self : nat) (rs : list rom_request) (σ : world) : world :=
  match rs with
  | [] => σ
  | r :: rest => rom_requests self rest (rom_request_run self r σ).2
  end.

Definition is_read (r : port_request) : bool :=
  match r with ReadPort _ => true | WritePort _ _ _ => false end.

(** The number of read requests and of write requests in a list. *)
Definition count_reads (rs : list port_request) : Z :=
  Z.of_nat (length (filter (λ r, is_read r = true) rs)).

Definition count_writes (rs : list port_request) : Z :=
  Z.of_nat (length (filter (λ r, is_read r = false) rs)).

(** The value a container holds at an address that passed the range check. *)
Definition stored (d : romdata) (address : Z) : option Z :=
  match d with
  | RomFunction _ => None
  | RomDict d => d !! address
  | RomList l => l !! Z.to_nat address
  end.

Definition is_container (d : romdata) : Prop :=
  match d with RomFunction _ => False | _ => True end.

(** The errors of an access to an address the container does not hold. *)
Definition uninitialized (e : exn) : Prop := e = key_invalid ∨ e = index_invalid.

(** **** Notions the statements below use *)

(** The object after [num_read_ports += 1] under its [if]. *)
Definition counted_read (mem : MemBlock) : MemBlock :=
  match max_read_ports mem with
  | Some _ => with_num_read_ports (num_read_ports mem + 1) mem
  | None => mem
  end.

Definition counted_write (mem : MemBlock) : MemBlock :=
  match max_write_ports mem with
  | Some _ => with_num_write_ports (num_write_ports mem + 1) mem
  | None => mem
  end.

(** [logic] after [add_net]. *)
Definition block_add (net : LogicNet) (block : Block) : list LogicNet :=
  if decide (net ∈ logic block) then logic block else logic block ++ [net].

(** The number of ports a memory with cap [cap] has built after [n]
    requests. *)
Definition built (cap : option Z) (n : Z) : Z :=
  match cap with
  | Some k => Z.max 0 (Z.min n k)
  | None => n
  end.

(** The value of a port counter after [n] requests. *)
Definition counter (cap : option Z) (n : Z) : Z :=
  match cap with
  | Some _ => n
  | None => 0
  end.

(** A memory created with caps [kr] and [kw] after [nr] read requests and
    [nw] write requests. *)
Definition tracked (kr kw : option Z) (nr nw : Z) (mem : MemBlock) : Prop :=
  0 <= nr ∧ 0 <= nw ∧
  max_read_ports mem = kr ∧ max_write_ports mem = kw ∧
  num_read_ports mem = counter kr nr ∧ num_write_ports mem = counter kw nw ∧
  Z.of_nat (length (readport_nets mem)) = built kr nr ∧
  Z.of_nat (length (writeport_nets mem)) = built kw nw.

(** Two objects that differ in their port counters at most. *)
Definition same_but_counters (mem mem' : MemBlock) : Prop :=
  max_read_ports mem' = max_read_ports mem ∧
  bitwidth mem' = bitwidth mem ∧
  addrwidth mem' = addrwidth mem ∧
  readport_nets mem' = readport_nets mem ∧
  id mem' = id mem ∧
  asynchronous mem' = asynchronous mem ∧
  max_write_ports mem' = max_write_ports mem ∧
  writeport_nets mem' = writeport_nets mem ∧
  rom mem' = rom mem.

(** A world a failed allocation on [self] leaves: nothing changed but
    the two counters of [self], by [dr] and [dw]. *)
Definition only_counters_changed (self : nat) (dr dw : Z) (σ σ' : world) : Prop :=
  working_block σ' = working_block σ ∧
  next_wire σ' = next_wire σ ∧
  _memIndex σ' = _memIndex σ ∧
  (∀ other, other ≠ self → heap σ' !! other = heap σ !! other) ∧
  ∃ mem mem', heap σ !! self = Some mem ∧ heap σ' !! self = Some mem' ∧
    same_but_counters mem mem' ∧
    num_read_ports mem' = num_read_ports mem + dr ∧
    num_write_ports mem' = num_write_ports mem + dw.

(** A computation keeps a property of the world, whether it returns or
    raises. *)
Definition preserves {A : Type} (P : world → Prop) (m : M A) : Prop :=
  ∀ σ, P σ → P (m σ).2.

(** An object without write ports that allows none. *)
Definition no_write_ports (mem : MemBlock) : Prop :=
  max_write_ports mem = Some 0 ∧ num_write_ports mem = 0 ∧ writeport_nets mem = [].

(** [self] refers to such an object, created before the next identity. *)
Definition write_free (self : nat) (σ : world) : Prop :=
  (self < _memIndex σ)%nat ∧
  ∃ mem, heap σ !! self = Some mem ∧ no_write_ports mem.

(** What C2 says of an object. *)
Definition counters_within_caps (mem : MemBlock) : Prop :=
  (∀ k, max_read_ports mem = Some k → num_read_ports mem <= k) ∧
  (∀ k, max_write_ports mem = Some k → num_write_ports mem <= k).

(** **** Concrete worlds *)

Definition empty_world : world := mkWorld (mkBlock [] ∅) 0 0 ∅.

(** [MemBlock(bitwidth=3, addrwidth=3, max_read_ports=2, max_write_ports=1)] *)
Definition fresh_mem : world :=
  (new_MemBlock 3 3 (Some 2) (Some 1) false empty_world).2.

Definition two_reads : list port_request :=
  [ReadPort (mkWire 5 Input); ReadPort (mkWire 6 Input)].

Definition three_reads : list port_request :=
  two_reads ++ [ReadPort (mkWire 7 Input)].

(** [RomBlock(bitwidth=4, addrwidth=2, romdata={0: 5, 1: 9})] *)
Definition rom_4_2 (pad_with_zeros : bool) : MemBlock :=
  mkMem (Some 2) 0 4 2 [] 0 false (Some 0) 0 []
        (Some (mkRom (RomDict (<[0 := 5]> (<[1 := 9]> ∅))) false 0 pad_with_zeros)).

(** [RomBlock(4, 2, {0: 5, 1: 9}, max_read_ports=2, build_new_roms=True)] *)
Definition fresh_rom : world :=
  (new_RomBlock 4 2 (RomDict (<[0 := 5]> (<[1 := 9]> ∅))) (Some 2) true false false
                empty_world).2.

Definition rom_traffic : list rom_request :=
  [RomRead (mkWire 5 Input); RomAssign (mkWire 5 Input) (mkWire 6 Input);
   RomRead (mkWire 6 Input); RomRead (mkWire 7 Input)].

(** After two reads, and after a third one, which fails. *)
Definition full_mem : world := requests 0 two_reads fresh_mem.
Definition full_mem' : world := requests 0 three_reads fresh_mem.

End Mem.

(** ** Integer and bit-pattern helpers of [pyrtl/helperfuncs.py] *)

Module Helper.

(** What a helper raises: one of the exceptions above, or the
    [PyrtlInternalError] of [pyrtl/pyrtlexceptions.py]. *)
Inductive raised :=
| Exn (e : exn)
| PyrtlInternalError (msg : string).

Inductive outcome (A : Type) :=
| Returns (a : A)
| Raises (e : raised).
Arguments Returns {A} a.
Arguments Raises {A} e.

Definition pyrtl_error {A} (msg : string) : outcome A := Raises (Exn (PyrtlError msg)).

Definition obind {A B} (m : outcome A) (k : A → outcome B) : outcome B :=
  match m with
  | Returns a => k a
  | Raises e => Raises e
  end.

Notation "x ←' m ; k" := (obind m (λ x, k))
  (at level 20, m at level 100, k at level 200, only parsing, right associativity).

(** [int.bit_length()] *)
Definition bit_length (i : Z) : Z :=
  if decide (i = 0) then 0 else Z.log2 (Z.abs i) + 1.

(** [len(bin(n))]: an optional sign, the prefix [0b] and the binary digits
    of [abs(n)], a single digit for zero. *)
Definition len_bin (n : Z) : Z :=
  (if decide (n < 0) then 1 else 0) + 2 + (if decide (n = 0) then 1 else bit_length n).

(** [a >> n]: a negative shift count raises [ValueError]. *)
Definition rshift (a n : Z) : outcome Z :=
  if decide (n < 0) then Raises (Exn ValueError) else Returns (Z.shiftr a n).

(** [a << n], likewise. *)
Definition lshift (a n : Z) : outcome Z :=
  if decide (n < 0) then Raises (Exn ValueError) else Returns (Z.shiftl a n).

(** [log2] (the argument is an [int]). *)
Definition log2 (integer_val : Z) : outcome Z :=
  let i := integer_val in
  if decide (i <= 0) then
    pyrtl_error "this function can only take positive numbers 1 or greater"
  else if decide (Z.land i (i - 1) ≠ 0) then
    pyrtl_error "this function can only take even powers of 2"
  else Returns (bit_length i - 1).

(** [truncate] on an integer, which has no [truncate] attribute: the
    [AttributeError] branch. *)
Definition truncate (x bitwidth : Z) : outcome Z :=
  if decide (bitwidth < 1) then pyrtl_error "bitwidth must be a positive integer"
  else
    m ←' lshift 1 bitwidth;
    Returns (Z.land x (m - 1)).

(** [val_to_signed_integer] (neither argument is a WireVector). *)
Definition val_to_signed_integer (value bitwidth : Z) : outcome Z :=
  if decide (bitwidth < 1) then pyrtl_error "bitwidth must be a positive integer"
  else
    neg_mask ←' lshift 1 (bitwidth - 1);
    let neg_part := Z.land value neg_mask in
    let pos_mask := neg_mask - 1 in
    let pos_part := Z.land value pos_mask in
    Returns (pos_part - neg_part).

(** [_convert_bool] *)
Definition _convert_bool (bool_val : bool) (bitwidth : option Z) (signed : bool)
  : outcome (Z * Z) :=
  if signed then pyrtl_error "error, booleans cannot be signed (covert to int first)"
  else
    let num := if bool_val then 1 else 0 in
    let bitwidth := default 1 bitwidth in
    if decide (bitwidth ≠ 1) then pyrtl_error "error, boolean has bitwidth not equal to 1"
    else Returns (num, bitwidth).

(** [_convert_int] *)
Definition _convert_int (val : Z) (bitwidth : option Z) (signed : bool)
  : outcome (Z * Z) :=
  if decide (val >= 0) then
    let num := val in
    let min_bitwidth := len_bin num - 2 in
    let min_bitwidth :=
      if signed && bool_decide (val ≠ 0) then min_bitwidth + 1 else min_bitwidth in
    match bitwidth with
    | None => Returns (num, min_bitwidth)
    | Some bitwidth =>
        if decide (bitwidth < min_bitwidth) then
          pyrtl_error "bitwidth specified is insufficient to represent constant"
        else Returns (num, bitwidth)
    end
  else
    if negb signed && bool_decide (bitwidth = None) then
      pyrtl_error "negative constants require either signed=True or specified bitwidth"
    else
      let bitwidth :=
        match bitwidth with
        | None => if decide (val = -1) then 1 else len_bin (Z.lnot val) - 1
        | Some bitwidth => bitwidth
        end in
      top ←' rshift val (bitwidth - 1);
      if decide (top ≠ -1) then pyrtl_error "insufficient bits for negative number"
      else
        m ←' lshift 1 bitwidth;
        Returns (Z.land val (m - 1), bitwidth).

(** [sum] of a sequence of integers. *)
Definition sum (l : list Z) : Z := foldl Z.add 0 l.

(** [chop]: [len_w] is [len(as_wires(w))], the widths are integers, and each
    slice [w[s:e]] of the result is given by its bounds [(s, e)]. *)
Definition chop (len_w : Z) (segment_widths : list Z) : outcome (list (Z * Z)) :=
  if decide (sum segment_widths ≠ len_w) then
    pyrtl_error "sum of segment widths must equal length of wirevetor"
  else
    let n_segments := length segment_widths in
    let starts := (λ i, sum (drop (i + 1) segment_widths)) <$> seq 0 n_segments in
    let ends := (λ i, sum (drop i segment_widths)) <$> seq 0 n_segments in
    Returns (zip starts ends).

(** *** [bitpattern_to_val] *)

(** [letters_in_field_order], with its accumulator [seen]. *)
Fixpoint letters_from (seen : list ascii) (bitpattern : list ascii) : list ascii :=
  match bitpattern with
  | [] => seen
  | c :: rest =>
      if decide (c ≠ "0"%char ∧ c ≠ "1"%char ∧ c ∉ seen)
      then letters_from (seen ++ [c]) rest
      else letters_from seen rest
  end.

Definition letters_in_field_order (bitpattern : list ascii) : list ascii :=
  letters_from [] bitpattern.

(** The name of a field: the one-letter string. *)
Definition letter (c : ascii) : string := String c EmptyString.

(** [fn(n)]: [field_map[n] if field_map else n]; an empty dictionary is
    false.  A missing key is returned on the left. *)
Definition fn (field_map : option (gmap string string)) (n : string) : string + string :=
  match field_map with
  | Some m =>
      if decide (m = ∅) then inr n
      else match m !! n with Some long => inr long | None => inl n end
  | None => inr n
  end.

(** [named_fields[fn(n)]]: the value, or the key of the [KeyError]. *)
Definition named_field (named_fields : gmap string Z)
    (field_map : option (gmap string string)) (c : ascii) : string + Z :=
  match fn field_map (letter c) with
  | inl key => inl key
  | inr name =>
      match named_fields !! name with
      | Some v => inr v
      | None => inl name
      end
  end.

(** [[int(named_fields[fn(n)]) for n in lifo]] *)
Fixpoint named_intfields (named_fields : gmap string Z)
    (field_map : option (gmap string string)) (lifo : list ascii) : string + list Z :=
  match lifo with
  | [] => inr []
  | n :: rest =>
      match named_field named_fields field_map n with
      | inl key => inl key
      | inr v =>
          match named_intfields named_fields field_map rest with
          | inl key => inl key
          | inr vs => inr (v :: vs)
          end
      end
  end.

(** [str(b)] for [b] the low bit of a field. *)
Definition str_bit (b : Z) : ascii := if decide (b = 0) then "0"%char else "1"%char.

(** The loop over [bitpattern[::-1]]. *)
Fixpoint fill (cs : list ascii) (bitlist : list ascii) (fmap : gmap ascii Z)
  : outcome (list ascii * gmap ascii Z) :=
  match cs with
  | [] => Returns (bitlist, fmap)
  | c :: cs' =>
      if decide (c = "0"%char ∨ c = "1"%char) then fill cs' (bitlist ++ [c]) fmap
      else if decide (c = "?"%char) then
        pyrtl_error "all fields in the bitpattern must have names"
      else
        match fmap !! c with
        | None => Raises (Exn KeyError)
        | Some v =>
            fill cs' (bitlist ++ [str_bit (Z.land v 1)]) (<[c := Z.shiftr v 1]> fmap)
        end
  end.

(** The loop over the keys of [fmap], which are met in the order of their
    insertion. *)
Fixpoint check_fields (keys : list ascii) (fmap : gmap ascii Z) : outcome unit :=
  match keys with
  | [] => Returns ()
  | f :: rest =>
      match fmap !! f with
      | None => Raises (Exn KeyError)
      | Some v =>
          if decide (v ≠ 0 ∧ v ≠ -1) then
            pyrtl_error ("too many bits given to value to fit in field " +:+ letter f)
          else check_fields rest fmap
      end
  end.

(** [int(s, 2)] on a string of binary digits, the only strings that reach
    it; the empty string is no number. *)
Fixpoint binary_digits (acc : Z) (s : list ascii) : option Z :=
  match s with
  | [] => Some acc
  | c :: rest =>
      if decide (c = "0"%char) then binary_digits (2 * acc) rest
      else if decide (c = "1"%char) then binary_digits (2 * acc + 1) rest
      else None
  end.

Definition int_base2 (s : list ascii) : outcome Z :=
  match s with
  | [] => Raises (Exn ValueError)
  | _ => match binary_digits 0 s with
         | Some v => Returns v
         | None => Raises (Exn ValueError)
         end
  end.

(** [dict(zip(lifo, intfields))] *)
Definition dict_zip (lifo : list ascii) (intfields : list Z) : gmap ascii Z :=
  foldl (λ m kv, <[kv.1 := kv.2]> m) ∅ (zip lifo intfields).

(** The values of the fields, in the order of their letters: the branch on
    [ordered_fields] that computes [intfields].  The keyword [field_map],
    when given, has been popped from [named_fields]. *)
Definition intfields_of (lifo : list ascii) (ordered_fields : list Z)
    (named_fields : gmap string Z) (field_map : option (gmap string string))
  : outcome (list Z) :=
  if decide (ordered_fields ≠ []) then
    if decide (length lifo ≠ length ordered_fields) then
      pyrtl_error "number of fields and number of unique patterns do not match"
    else Returns ordered_fields
  else
    if decide (length lifo ≠ size named_fields) then
      pyrtl_error "number of fields and number of unique patterns do not match"
    else
      match named_intfields named_fields field_map lifo with
      | inl key =>
          pyrtl_error ("bitpattern field " +:+ key
                       +:+ " was not provided in named_field list")
      | inr vs => Returns vs
      end.

(** [bitpattern_to_val(bitpattern, *ordered_fields, **named_fields)], the
    fields being integers.  The keyword [field_map], when given, is one of
    the [named_fields] until it is popped. *)
Definition bitpattern_to_val (bitpattern : list ascii) (ordered_fields : list Z)
    (named_fields : gmap string Z) (field_map : option (gmap string string))
  : outcome Z :=
  let len_named :=
    (size named_fields + match field_map with Some _ => 1 | None => 0 end)%nat in
  if decide (0 < length ordered_fields ∧ 0 < len_named)%nat then
    pyrtl_error "named and ordered fields cannot be mixed"
  else
    let lifo := letters_in_field_order bitpattern in
    intfields ←' intfields_of lifo ordered_fields named_fields field_map;
    let fmap := dict_zip lifo intfields in
    filled ←' fill (reverse bitpattern) [] fmap;
    let '(bitlist, fmap) := filled in
    _ ←' check_fields (zip lifo intfields).*1 fmap;
    if decide (length bitpattern ≠ length bitlist) then
      Raises (PyrtlInternalError "resulting values have different bitwidths")
    else int_base2 (reverse bitlist).

(** *** [infer_val_and_bitwidth] *)

(** [str.lower()] on the letters A to Z. *)
Definition lower_char (c : ascii) : ascii :=
  let n := nat_of_ascii c in
  if decide (65 ≤ n ∧ n ≤ 90)%nat then ascii_of_nat (n + 32) else c.

Definition lower (s : list ascii) : list ascii := lower_char <$> s.

(** [s.split(sep)] for a separator of one character. *)
Fixpoint split_at (sep : ascii) (s : list ascii) : list (list ascii) :=
  match s with
  | [] => [[]]
  | c :: rest =>
      if decide (c = sep) then [] :: split_at sep rest
      else match split_at sep rest with
           | part :: parts => (c :: part) :: parts
           | [] => [[c]]
           end
  end.

(** [bases = {'b': 2, 'o': 8, 'd': 10, 'h': 16, 'x': 16}] *)
Definition bases (c : ascii) : option Z :=
  if decide (c = "b"%char) then Some 2
  else if decide (c = "o"%char) then Some 8
  else if decide (c = "d"%char) then Some 10
  else if decide (c = "h"%char) then Some 16
  else if decide (c = "x"%char) then Some 16
  else None.

Definition quote : string := String (ascii_of_nat 34) EmptyString.

Definition not_verilog_style {A} : outcome A :=
  pyrtl_error "error, string not in verilog style format".

Section Verilog.

(** The builtin [int(s, base)] on a string; [None] when it raises
    [ValueError]. *)
Variable int_of_str : list ascii → Z → option Z.

(** The first part of [_convert_verilog_str], up to the end of its [try]
    block: whether the string starts with a minus sign, the bitwidth and
    the number it spells. *)
Definition verilog_fields (val : list ascii) : outcome (bool * Z * Z) :=
  let '(neg, val) :=
    match val with
    | c :: rest => if decide (c = "-"%char) then (true, rest) else (false, val)
    | [] => (false, val)
    end in
  let split_string := split_at "'"%char (lower val) in
  match split_string with
  | [s0; s1] =>
      match int_of_str s0 10 with
      | None => not_verilog_style
      | Some bitwidth =>
          match s1 with
          | [] => not_verilog_style
          | c0 :: rest =>
              if decide (c0 = "s"%char) then
                pyrtl_error
                  "error, signed integers are not supported in verilog-style constants"
              else
                let '(base, sval) :=
                  match bases c0 with
                  | Some base => (base, rest)
                  | None => (10, s1)
                  end in
                let sval := filter (λ c, c ≠ "_"%char) sval in
                match int_of_str sval base with
                | None => not_verilog_style
                | Some num => Returns (neg, bitwidth, num)
                end
          end
      end
  | _ => not_verilog_style
  end.

(** [_convert_verilog_str] *)
Definition _convert_verilog_str (val : list ascii) (bitwidth : option Z) (signed : bool)
  : outcome (Z * Z) :=
  if signed then
    pyrtl_error ("error, " +:+ quote +:+ "signed" +:+ quote
                 +:+ " option with verilog-style string constants not supported")
  else
    let passed_bitwidth := bitwidth in
    fields ←' verilog_fields val;
    let '(neg, bitwidth, num) := fields in
    num ←' (if neg && bool_decide (num ≠ 0) then
              top ←' rshift num (bitwidth - 1);
              if decide (top ≠ 0) then
                pyrtl_error "error, insufficient bits for negative number"
              else
                m ←' lshift 1 bitwidth;
                Returns (m - num)
            else Returns num);
    if match passed_bitwidth with
       | Some passed => bool_decide (passed ≠ 0 ∧ passed ≠ bitwidth)
       | None => false
       end then
      pyrtl_error ("error, bitwidth parameter of constant does not match"
                   +:+ " the bitwidth infered from the verilog style specification"
                   +:+ " (if bitwidth=None is used, pyrtl will determine the bitwidth from the"
                   +:+ " verilog-style constant specification)")
    else
      rest ←' rshift num bitwidth;
      if decide (rest ≠ 0) then
        pyrtl_error ("specified bitwidth " +:+ pretty bitwidth
                     +:+ " for verilog constant insufficient to store value "
                     +:+ pretty num)
      else Returns (num, bitwidth).

(** What [infer_val_and_bitwidth] is given: a bool, an integer, a string,
    or a value of another type, of which the message names the type. *)
Inductive rawinput :=
| RawBool (b : bool)
| RawInt (i : Z)
| RawStr (s : list ascii)
| RawOther (type_name : string).

(** [infer_val_and_bitwidth] *)
Definition infer_val_and_bitwidth (raw : rawinput) (bitwidth : option Z) (signed : bool)
  : outcome (Z * Z) :=
  match raw with
  | RawBool b => _convert_bool b bitwidth signed
  | RawInt i => _convert_int i bitwidth signed
  | RawStr s => _convert_verilog_str s bitwidth signed
  | RawOther type_name =>
      pyrtl_error ("error, the value provided is of an improper type, " +:+ quote
                   +:+ type_name +:+ quote +:+ "proper types are bool, int, and string")
  end.

End Verilog.

(** The value of [int(s, base)] on a string of digits of the base and
    nothing else, for running the functions above on examples. *)
Definition digit_value (c : ascii) : option Z :=
  let n := nat_of_ascii c in
  if decide (48 ≤ n ∧ n ≤ 57)%nat then Some (Z.of_nat n - 48)
  else if decide (97 ≤ n ∧ n ≤ 102)%nat then Some (Z.of_nat n - 87)
  else None.

Fixpoint digits_from (base acc : Z) (s : list ascii) : option Z :=
  match s with
  | [] => Some acc
  | c :: rest =>
      match digit_value c with
      | Some d => if decide (d < base) then digits_from base (base * acc + d) rest else None
      | None => None
      end
  end.

Definition int_of_digits (s : list ascii) (base : Z) : option Z :=
  match s with
  | [] => None
  | _ => digits_from base 0 s
  end.

(** The number of times a letter occurs in a pattern. *)
Definition occurrences (c : ascii) (l : list ascii) : nat :=
  length (filter (λ x, x = c) l).

(** The least bitwidth that [_convert_int] accepts for a value: the binary
    digits of a non-negative value, with a sign bit when signed and not
    zero; for a negative value the digits of its complement and the sign. *)
Definition min_width (val : Z) (signed : bool) : Z :=
  if decide (val >= 0) then
    (if decide (val = 0) then 1 else bit_length val)
    + (if signed && bool_decide (val ≠ 0) then 1 else 0)
  else bit_length (Z.lnot val) + 1.

End Helper.

(** ** Memories: copies, and what the statements about sequences use *)

Module MemMore.
Import Mem.


Definition is_rom_read (r : rom_request) : bool :=
  match r with RomRead _ => true | RomAssign _ _ => false end.

(** The number of reads in a list of requests to a RomBlock. *)
Definition count_rom_reads (rs : list rom_request) : Z :=
  Z.of_nat (length (filter (λ r, is_rom_read r = true) rs)).

(** A read port of the memory [self] as the block holds it: a net [m]
    that carries the identity of the memory, from one address wire to one
    data wire, a plain wire of the block. *)
Definition read_port_of (self : nat) (block : Block) (n : LogicNet) : Prop :=
  n ∈ logic block ∧ op n = "m"%char ∧ op_param n = Some self ∧
  ∃ addr data, args n = [addr] ∧ dests n = [data] ∧
               wclass data = Plain ∧ data ∈ wirevector_set block.

(** A write port likewise: a net [@] with three arguments and no
    destination. *)
Definition write_port_of (self : nat) (block : Block) (n : LogicNet) : Prop :=
  n ∈ logic block ∧ op n = "@"%char ∧ op_param n = Some self ∧
  length (args n) = 3%nat ∧ dests n = [].


(** The ports a memory holds are ports of the block, and the data wires of
    its read ports were made before the next wire. *)
Definition ports_registered (self : nat) (σ : world) (mem : MemBlock) : Prop :=
  id mem = self ∧
  Forall (read_port_of self (working_block σ)) (readport_nets mem) ∧
  Forall (write_port_of self (working_block σ)) (writeport_nets mem) ∧
  (∀ n d, n ∈ readport_nets mem → d ∈ dests n → (wname d < next_wire σ)%nat) ∧
  NoDup (readport_nets mem ≫= dests).

(** A RomBlock [self] that builds new ROMs, with [max_read_ports = k]:
    [index] is the next identity, and the copy in use, of the same cap, has
    counted [m] reads and holds no more ports than that. *)
Definition rom_state (self : nat) (d : romdata) (pad : bool) (k : Z) (index : nat) (m : Z)
    (σ : world) : Prop :=
  ∃ mem cur cc,
    heap σ !! self = Some mem ∧ rom mem = Some (mkRom d true cur pad) ∧
    0 < bitwidth mem ∧ 0 < addrwidth mem ∧ max_read_ports mem = Some k ∧
    (self < _memIndex σ)%nat ∧ _memIndex σ = index ∧
    heap σ !! cur = Some cc ∧ max_read_ports cc = Some k ∧ num_read_ports cc = m ∧
    Z.of_nat (length (readport_nets cc)) <= m.

End MemMore.

(** ** The loop detector: what the pruning leaves *)

Module LoopMore.
Import Loop.

(** Nets [L] and wires [W] of a block that support themselves: the wires
    are plain wires of the block, every net of [L] has an argument in [W],
    and no net of the block outside [L] drives a wire of [W]. *)
Definition self_supporting (block : Block) (L : list LogicNet) (W : gset WireVector)
  : Prop :=
  (∀ n, n ∈ L → n ∈ logic block) ∧
  W ⊆ wirevector_subset_exclude block ∧
  fed L W ∧
  (∀ n x, n ∈ logic block → n ∉ L → x ∈ dests n → x ∉ W).

End LoopMore.

(** * Properties of the memories *)

Module MemFacts.
Import Mem.

(** Running the computations of [M] on a symbolic world. *)
Ltac run :=
  unfold MemBlock_build_read_port, _readaccess, _build, new_WireVector, add_net,
    set_attr, get_rom, get_mem, set_mem, next_index, ge_cap,
    mbind, M_bind, get_world, put_world, mret, M_ret, raise; simpl.

(** **** What one allocation does *)

Lemma read_port_missing σ self addr :
  heap σ !! self = None →
  MemBlock_build_read_port self addr σ = (Err AttributeError, σ).
Proof. intros Hm. run. rewrite Hm. reflexivity. Qed.

Lemma read_port_fail σ self addr mem max :
  heap σ !! self = Some mem →
  max_read_ports mem = Some max →
  num_read_ports mem + 1 > max →
  MemBlock_build_read_port self addr σ =
    (Err (read_ports_exceeded max),
     mkWorld (working_block σ) (next_wire σ) (_memIndex σ)
       (<[self := with_num_read_ports (num_read_ports mem + 1) mem]> (heap σ))).
Proof.
  intros Hm Hmax Hgt. run. rewrite Hm. simpl. rewrite Hmax. simpl.
  rewrite Hm. simpl. rewrite lookup_insert_eq. simpl.
  destruct (decide _); [reflexivity | lia].
Qed.

Lemma read_port_ok σ self addr mem :
  heap σ !! self = Some mem →
  (∀ max, max_read_ports mem = Some max → num_read_ports mem + 1 <= max) →
  let data := mkWire (next_wire σ) Plain in
  let readport_net := mkNet "m" (Some (id mem)) [addr] [data] in
  MemBlock_build_read_port self addr σ =
    (Ok data,
     mkWorld (mkBlock (block_add readport_net (working_block σ))
                      ({[data]} ∪ wirevector_set (working_block σ)))
       (S (next_wire σ)) (_memIndex σ)
       (<[self := with_readport_nets (readport_nets mem ++ [readport_net])
                    (counted_read mem)]> (heap σ))).
Proof.
  intros Hm Hcap. unfold counted_read, block_add. run. rewrite Hm. simpl.
  destruct (max_read_ports mem) as [max|] eqn:Hmax; simpl.
  - specialize (Hcap max eq_refl). rewrite Hm. simpl.
    rewrite lookup_insert_eq. simpl.
    destruct (decide _); [lia|]. simpl.
    repeat (first [rewrite lookup_insert_eq | rewrite insert_insert_eq]; simpl).
    reflexivity.
  - repeat (rewrite Hm; simpl). reflexivity.
Qed.

Lemma write_port_missing σ self addr data enable :
  heap σ !! self = None →
  _build self addr data enable σ = (Err AttributeError, σ).
Proof. intros Hm. run. rewrite Hm. reflexivity. Qed.

Lemma write_port_fail σ self addr data enable mem max :
  heap σ !! self = Some mem →
  max_write_ports mem = Some max →
  num_write_ports mem + 1 > max →
  _build self addr data enable σ =
    (Err (write_ports_exceeded max),
     mkWorld (working_block σ) (next_wire σ) (_memIndex σ)
       (<[self := with_num_write_ports (num_write_ports mem + 1) mem]> (heap σ))).
Proof.
  intros Hm Hmax Hgt. run. rewrite Hm. simpl. rewrite Hmax. simpl.
  rewrite Hm. simpl. rewrite lookup_insert_eq. simpl.
  destruct (decide _); [reflexivity | lia].
Qed.

Lemma write_port_ok σ self addr data enable mem :
  heap σ !! self = Some mem →
  (∀ max, max_write_ports mem = Some max → num_write_ports mem + 1 <= max) →
  let writeport_net := mkNet "@" (Some (id mem)) [addr; data; enable] [] in
  _build self addr data enable σ =
    (Ok tt,
     mkWorld (mkBlock (block_add writeport_net (working_block σ))
                      (wirevector_set (working_block σ)))
       (next_wire σ) (_memIndex σ)
       (<[self := with_writeport_nets (writeport_nets mem ++ [writeport_net])
                    (counted_write mem)]> (heap σ))).
Proof.
  intros Hm Hcap. unfold counted_write, block_add. run. rewrite Hm. simpl.
  destruct (max_write_ports mem) as [max|] eqn:Hmax; simpl.
  - specialize (Hcap max eq_refl). rewrite Hm. simpl.
    rewrite lookup_insert_eq. simpl.
    destruct (decide _); [lia|]. simpl.
    repeat (first [rewrite lookup_insert_eq | rewrite insert_insert_eq]; simpl).
    reflexivity.
  - repeat (rewrite Hm; simpl). reflexivity.
Qed.

(** **** What a failed allocation leaves *)

Lemma read_failure_effect σ self addr max :
  (MemBlock_build_read_port self addr σ).1 = Err (read_ports_exceeded max) →
  only_counters_changed self 1 0 σ (MemBlock_build_read_port self addr σ).2.
Proof.
  intros Herr.
  destruct (heap σ !! self) as [mem|] eqn:Hm.
  2:{ rewrite read_port_missing in Herr by done. discriminate. }
  destruct (max_read_ports mem) as [k|] eqn:Hk.
  2:{ rewrite (read_port_ok _ _ _ mem) in Herr by (done || congruence). discriminate. }
  destruct (decide (num_read_ports mem + 1 > k)) as [Hgt|Hle].
  2:{ rewrite (read_port_ok _ _ _ mem) in Herr; [discriminate | done |].
      intros ? ?; simplify_eq; lia. }
  rewrite (read_port_fail _ _ _ mem k) by done.
  repeat split; simpl.
  - intros other Hne. by rewrite lookup_insert_ne.
  - exists mem, (with_num_read_ports (num_read_ports mem + 1) mem).
    rewrite lookup_insert_eq. repeat split; simpl; first [done | lia].
Qed.

Lemma write_failure_effect σ self addr data enable max :
  (_build self addr data enable σ).1 = Err (write_ports_exceeded max) →
  only_counters_changed self 0 1 σ (_build self addr data enable σ).2.
Proof.
  intros Herr.
  destruct (heap σ !! self) as [mem|] eqn:Hm.
  2:{ rewrite write_port_missing in Herr by done. discriminate. }
  destruct (max_write_ports mem) as [k|] eqn:Hk.
  2:{ rewrite (write_port_ok _ _ _ _ _ mem) in Herr by (done || congruence). discriminate. }
  destruct (decide (num_write_ports mem + 1 > k)) as [Hgt|Hle].
  2:{ rewrite (write_port_ok _ _ _ _ _ mem) in Herr; [discriminate | done |].
      intros ? ?; simplify_eq; lia. }
  rewrite (write_port_fail _ _ _ _ _ mem k) by done.
  repeat split; simpl.
  - intros other Hne. by rewrite lookup_insert_ne.
  - exists mem, (with_num_write_ports (num_write_ports mem + 1) mem).
    rewrite lookup_insert_eq. repeat split; simpl; first [done | lia].
Qed.

(** **** Sequences of requests on a fresh memory *)

Lemma new_MemBlock_heap bw aw kr kw async σ0 self σ1 :
  new_MemBlock bw aw kr kw async σ0 = (Ok self, σ1) →
  heap σ1 !! self = Some (mkMem kr 0 bw aw [] self async kw 0 [] None).
Proof.
  unfold new_MemBlock, MemBlock_init.
  destruct (decide (bw <= 0)); [discriminate|].
  destruct (decide (aw <= 0)); [discriminate|].
  run. intros [= <- <-]. simpl. apply lookup_insert_eq.
Qed.

Lemma tracked_fresh bw aw kr kw async self :
  tracked kr kw 0 0 (mkMem kr 0 bw aw [] self async kw 0 [] None).
Proof. unfold tracked, built, counter. simpl. destruct kr, kw; repeat split; lia. Qed.

Lemma count_reads_cons r rs :
  count_reads (r :: rs) = (if is_read r then 1 else 0) + count_reads rs.
Proof.
  unfold count_reads. rewrite filter_cons.
  destruct (decide (is_read r = true)) as [H|H]; destruct (is_read r);
    simpl; try done; lia.
Qed.

Lemma count_writes_cons r rs :
  count_writes (r :: rs) = (if is_read r then 0 else 1) + count_writes rs.
Proof.
  unfold count_writes. rewrite filter_cons.
  destruct (decide (is_read r = false)) as [H|H]; destruct (is_read r);
    simpl; try done; lia.
Qed.

Lemma count_reads_nonneg rs : 0 <= count_reads rs.
Proof. unfold count_reads. lia. Qed.

Lemma count_writes_nonneg rs : 0 <= count_writes rs.
Proof. unfold count_writes. lia. Qed.

(** One request moves a tracked memory to the next count. *)
Lemma request_tracked σ self r kr kw nr nw mem :
  heap σ !! self = Some mem →
  tracked kr kw nr nw mem →
  ∃ mem', heap (request self r σ).2 !! self = Some mem' ∧
    tracked kr kw (nr + (if is_read r then 1 else 0))
                  (nw + (if is_read r then 0 else 1)) mem'.
Proof.
  intros Hm (Hnr & Hnw & Hkr & Hkw & Hcr & Hcw & Hlr & Hlw).
  destruct r as [addr | addr data enable]; simpl; rewrite ?Z.add_0_r.
  - unfold mbind, M_bind, _readaccess.
    destruct (max_read_ports mem) as [k|] eqn:Hk.
    + destruct (decide (num_read_ports mem + 1 > k)) as [Hgt | Hle].
      * rewrite (read_port_fail _ _ _ mem k) by done. simpl. rewrite lookup_insert_eq.
        eexists; split; [reflexivity|].
        unfold tracked, built, counter in *. simpl. subst kr. simpl in *.
        repeat split; try done; lia.
      * rewrite (read_port_ok _ _ _ mem); [|done|intros ? ?; simplify_eq; lia].
        simpl. rewrite lookup_insert_eq.
        eexists; split; [reflexivity|].
        unfold tracked, counted_read, built, counter in *. rewrite Hk. simpl.
        subst kr. simpl in *. rewrite length_app. simpl.
        repeat split; try done; lia.
    + rewrite (read_port_ok _ _ _ mem); [|done|intros ? ?; simplify_eq].
      simpl. rewrite lookup_insert_eq.
      eexists; split; [reflexivity|].
      unfold tracked, counted_read, built, counter in *. rewrite Hk. simpl.
      subst kr. simpl in *. rewrite length_app. simpl.
      repeat split; try done; lia.
  - destruct (max_write_ports mem) as [k|] eqn:Hk.
    + destruct (decide (num_write_ports mem + 1 > k)) as [Hgt | Hle].
      * rewrite (write_port_fail _ _ _ _ _ mem k) by done. simpl. rewrite lookup_insert_eq.
        eexists; split; [reflexivity|].
        unfold tracked, built, counter in *. simpl. subst kw. simpl in *.
        repeat split; try done; lia.
      * rewrite (write_port_ok _ _ _ _ _ mem); [|done|intros ? ?; simplify_eq; lia].
        simpl. rewrite lookup_insert_eq.
        eexists; split; [reflexivity|].
        unfold tracked, counted_write, built, counter in *. rewrite Hk. simpl.
        subst kw. simpl in *. rewrite length_app. simpl.
        repeat split; try done; lia.
    + rewrite (write_port_ok _ _ _ _ _ mem); [|done|intros ? ?; simplify_eq].
      simpl. rewrite lookup_insert_eq.
      eexists; split; [reflexivity|].
      unfold tracked, counted_write, built, counter in *. rewrite Hk. simpl.
      subst kw. simpl in *. rewrite length_app. simpl.
      repeat split; try done; lia.
Qed.

Lemma requests_tracked self rs : ∀ σ kr kw nr nw mem,
  heap σ !! self = Some mem →
  tracked kr kw nr nw mem →
  ∃ mem', heap (requests self rs σ) !! self = Some mem' ∧
    tracked kr kw (nr + count_reads rs) (nw + count_writes rs) mem'.
Proof.
  induction rs as [|r rs IH]; intros σ kr kw nr nw mem Hm Ht; simpl.
  - exists mem. split; [done|].
    replace (nr + count_reads []) with nr by (unfold count_reads; simpl; lia).
    replace (nw + count_writes []) with nw by (unfold count_writes; simpl; lia).
    done.
  - destruct (request_tracked σ self r kr kw nr nw mem Hm Ht) as (mem1 & Hm1 & Ht1).
    destruct (IH _ _ _ _ _ _ Hm1 Ht1) as (mem2 & Hm2 & Ht2).
    exists mem2. split; [done|].
    rewrite count_reads_cons, count_writes_cons.
    by rewrite !Z.add_assoc.
Qed.

Lemma fresh_requests_tracked bw aw kr kw async σ0 self σ1 rs :
  new_MemBlock bw aw kr kw async σ0 = (Ok self, σ1) →
  ∃ mem, heap (requests self rs σ1) !! self = Some mem ∧
    tracked kr kw (count_reads rs) (count_writes rs) mem.
Proof.
  intros Hnew. apply new_MemBlock_heap in Hnew.
  destruct (requests_tracked self rs σ1 kr kw 0 0 _ Hnew (tracked_fresh _ _ _ _ _ _))
    as (mem & Hm & Ht).
  exists mem. split; [done|]. by rewrite !Z.add_0_l in Ht.
Qed.

(** **** Port caps *)

(** C9: when an allocation of a read port or of a write port fails with the
    capacity error, the block gets no net and no wire, the lists
    [readport_nets] and [writeport_nets] are as before, and of the whole
    state only the counter of that kind of port has changed: it was
    incremented before the check. *)
Theorem failed_allocation_bumps_counter_only (σ : world) (self : nat) :
  (∀ addr max,
      (MemBlock_build_read_port self addr σ).1 = Err (read_ports_exceeded max) →
      only_counters_changed self 1 0 σ (MemBlock_build_read_port self addr σ).2) ∧
  (∀ addr data enable max,
      (_build self addr data enable σ).1 = Err (write_ports_exceeded max) →
      only_counters_changed self 0 1 σ (_build self addr data enable σ).2).
Proof.
  split.
  - intros addr max. apply read_failure_effect.
  - intros addr data enable max. apply write_failure_effect.
Qed.

Lemma failed_allocation_witness :
  only_counters_changed 0 1 0 full_mem
    (MemBlock_build_read_port 0 (mkWire 7 Input) full_mem).2.
Proof.
  apply (proj1 (failed_allocation_bumps_counter_only full_mem 0) (mkWire 7 Input) 2).
  vm_compute. reflexivity.
Defined.

(** C2, as the specification states it, fails: after two reads that succeed
    and one that fails on a memory with two read ports at most, the counter
    is 3. *)
Lemma counters_exceed_caps :
  ∃ mem, heap full_mem' !! 0%nat = Some mem ∧ ¬ counters_within_caps mem.
Proof.
  eexists. split; [vm_compute; reflexivity|].
  intros [Hr _]. specialize (Hr 2 eq_refl). simpl in Hr. lia.
Qed.

(** C2, amended: on a memory created with the caps [kr] and [kw], after any
    sequence of allocations of read and write ports, failed ones included,
    the ports built ([readport_nets], [writeport_nets]) are never more than a
    cap that is not None allows, while [num_read_ports] and [num_write_ports]
    count the allocations asked for; an allocation that would go over a cap
    fails and changes nothing but that counter. *)
Theorem built_ports_within_caps bw aw kr kw async σ0 self σ1 rs :
  new_MemBlock bw aw kr kw async σ0 = (Ok self, σ1) →
  let σ := requests self rs σ1 in
  (∃ mem, heap σ !! self = Some mem ∧
     max_read_ports mem = kr ∧ max_write_ports mem = kw ∧
     (∀ k, kr = Some k → 0 <= k →
        Z.of_nat (length (readport_nets mem)) <= k ∧
        Z.of_nat (length (readport_nets mem)) = Z.min (count_reads rs) k ∧
        num_read_ports mem = count_reads rs) ∧
     (∀ k, kw = Some k → 0 <= k →
        Z.of_nat (length (writeport_nets mem)) <= k ∧
        Z.of_nat (length (writeport_nets mem)) = Z.min (count_writes rs) k ∧
        num_write_ports mem = count_writes rs)) ∧
  (∀ addr max,
      (MemBlock_build_read_port self addr σ).1 = Err (read_ports_exceeded max) →
      only_counters_changed self 1 0 σ (MemBlock_build_read_port self addr σ).2) ∧
  (∀ addr data enable max,
      (_build self addr data enable σ).1 = Err (write_ports_exceeded max) →
      only_counters_changed self 0 1 σ (_build self addr data enable σ).2).
Proof.
  intros Hnew σ. split; [|split].
  - destruct (fresh_requests_tracked _ _ _ _ _ _ _ _ rs Hnew)
      as (mem & Hm & Hnr & Hnw & Hkr & Hkw & Hcr & Hcw & Hlr & Hlw).
    exists mem. split; [done|]. split; [done|]. split; [done|].
    pose proof (count_reads_nonneg rs). pose proof (count_writes_nonneg rs).
    split; intros k -> Hk; unfold built, counter in *; lia.
  - intros addr max. apply read_failure_effect.
  - intros addr data enable max. apply write_failure_effect.
Qed.

Lemma built_ports_within_caps_witness :
  ∃ mem, heap full_mem' !! 0%nat = Some mem ∧
    Z.of_nat (length (readport_nets mem)) <= 2 ∧ num_read_ports mem = 3.
Proof.
  destruct (built_ports_within_caps 3 3 (Some 2) (Some 1) false empty_world 0 fresh_mem
              three_reads eq_refl) as [(mem & Hm & _ & _ & Hr & _) _].
  destruct (Hr 2 eq_refl ltac:(lia)) as (Hle & _ & Hnum).
  exists mem. split; [exact Hm|]. split; [exact Hle | exact Hnum].
Defined.

(** C3: on a MemBlock created with [max_read_ports = k], a read is
    materialized when fewer than [k] reads were asked for before it, and
    raises the capacity error otherwise: the first [k] reads succeed, the
    next one fails.  The same holds of writes and [max_write_ports = k]. *)
Theorem first_k_allocations_succeed bw aw kr kw async σ0 self σ1 rs :
  new_MemBlock bw aw kr kw async σ0 = (Ok self, σ1) →
  let σ := requests self rs σ1 in
  (∀ k addr, kr = Some k →
     (count_reads rs < k → ∃ data σ', _readaccess self addr σ = (Ok data, σ')) ∧
     (k <= count_reads rs →
        ∃ σ', _readaccess self addr σ = (Err (read_ports_exceeded k), σ'))) ∧
  (∀ k addr data enable, kw = Some k →
     (count_writes rs < k → ∃ σ', _build self addr data enable σ = (Ok tt, σ')) ∧
     (k <= count_writes rs →
        ∃ σ', _build self addr data enable σ = (Err (write_ports_exceeded k), σ'))).
Proof.
  intros Hnew σ.
  destruct (fresh_requests_tracked _ _ _ _ _ _ _ _ rs Hnew)
    as (mem & Hm & Hnr & Hnw & Hkr & Hkw & Hcr & Hcw & Hlr & Hlw).
  fold σ in Hm. split.
  - intros k addr ->. unfold counter in Hcr. unfold _readaccess. split; intros Hc.
    + eexists _, _. apply (read_port_ok _ _ _ mem); [done|].
      intros max Hmax. rewrite Hkr in Hmax. simplify_eq. lia.
    + eexists. apply (read_port_fail _ _ _ mem k); [done | done | lia].
  - intros k addr data enable ->. unfold counter in Hcw. split; intros Hc.
    + eexists. apply (write_port_ok _ _ _ _ _ mem); [done|].
      intros max Hmax. rewrite Hkw in Hmax. simplify_eq. lia.
    + eexists. apply (write_port_fail _ _ _ _ _ mem k); [done | done | lia].
Qed.

Lemma first_k_allocations_witness :
  ∃ σ', _readaccess 0 (mkWire 7 Input) full_mem = (Err (read_ports_exceeded 2), σ').
Proof.
  destruct (first_k_allocations_succeed 3 3 (Some 2) (Some 1) false empty_world 0 fresh_mem
              two_reads eq_refl) as [Hr _].
  destruct (Hr 2 (mkWire 7 Input) eq_refl) as [_ Hfail].
  apply Hfail. vm_compute. discriminate.
Defined.

(** **** Reading a RomBlock *)

Lemma check_value_in_range mem v :
  0 <= v < 2 ^ bitwidth mem → check_value mem v = Ok v.
Proof. intros Hv. unfold check_value. destruct (decide _); [lia | done]. Qed.

Lemma check_value_out_of_range mem v :
  ¬ 0 <= v < 2 ^ bitwidth mem → check_value mem v = Err invalid_value.
Proof. intros Hv. unfold check_value. destruct (decide _); [done | lia]. Qed.

Lemma list_getitem_nonneg l address :
  0 <= address → list_getitem l address = l !! Z.to_nat address.
Proof. intros Ha. unfold list_getitem. destruct (decide _); [lia | done]. Qed.

(** C4: on a RomBlock whose data is a container, [_get_read_data] raises the
    invalid-address error unless [0 <= address < 2^addrwidth]; at an address
    in range that the container holds it returns the stored value when that
    value is in [[0, 2^bitwidth)] and raises otherwise; at an address in
    range that the container does not hold it returns 0 when
    [pad_with_zeros] is set and raises the uninitialized-data error when it
    is not. *)
Theorem get_read_data_container mem fields address :
  rom mem = Some fields →
  is_container (data fields) →
  1 <= bitwidth mem →
  (¬ 0 <= address < 2 ^ addrwidth mem →
     _get_read_data mem address = Err (invalid_address address)) ∧
  (0 <= address < 2 ^ addrwidth mem →
     (∀ v, stored (data fields) address = Some v →
        (0 <= v < 2 ^ bitwidth mem → _get_read_data mem address = Ok v) ∧
        (¬ 0 <= v < 2 ^ bitwidth mem →
           _get_read_data mem address = Err invalid_value)) ∧
     (stored (data fields) address = None →
        (pad_with_zeros fields = true → _get_read_data mem address = Ok 0) ∧
        (pad_with_zeros fields = false →
           ∃ e, _get_read_data mem address = Err e ∧ uninitialized e))).
Proof.
  intros Hrom Hc Hbw. unfold _get_read_data. rewrite Hrom. split.
  - intros Hout. destruct (decide _); [done | lia].
  - intros Hin. destruct (decide _) as [|_]; [lia|].
    assert (check_value mem 0 = Ok 0) as Hzero.
    { apply check_value_in_range. split; [lia|]. apply Z.pow_pos_nonneg; lia. }
    destruct (data fields) as [f | d | l]; [done | |]; simpl.
    + split.
      * intros v ->. split; [apply check_value_in_range | apply check_value_out_of_range].
      * intros ->. split; intros ->; [done|].
        exists key_invalid. split; [done | by left].
    + rewrite list_getitem_nonneg by lia. split.
      * intros v ->. split; [apply check_value_in_range | apply check_value_out_of_range].
      * intros ->. split; intros ->; [done|].
        exists index_invalid. split; [done | by right].
Qed.

Lemma get_read_data_container_witness :
  _get_read_data (rom_4_2 false) 1 = Ok 9.
Proof.
  destruct (get_read_data_container (rom_4_2 false) _ 1 eq_refl I ltac:(simpl; lia))
    as [_ Hin].
  destruct (Hin ltac:(simpl; lia)) as [Hstored _].
  apply (Hstored 9); [reflexivity | simpl; lia].
Defined.

(** The scenario of the specification: {0: 5, 1: 9}, 4 bits, 2 address
    bits. *)
Example rom_scenario :
  _get_read_data (rom_4_2 false) 0 = Ok 5 ∧
  _get_read_data (rom_4_2 false) 1 = Ok 9 ∧
  _get_read_data (rom_4_2 false) 2 = Err key_invalid ∧
  _get_read_data (rom_4_2 true) 2 = Ok 0 ∧
  _get_read_data (rom_4_2 true) 4 = Err (invalid_address 4).
Proof. repeat split; vm_compute; reflexivity. Qed.

(** **** Replication of a RomBlock *)

Ltac run_rom :=
  unfold RomBlock_build_read_port, RomBlock_make_copy, new_RomBlock, MemBlock_init,
    set_attr, get_rom, get_mem, set_mem, next_index, ge_cap,
    mbind, M_bind, get_world, put_world, mret, M_ret, raise; simpl.

Lemma new_RomBlock_world bw aw d kr bnr async pad σ0 self σ1 :
  new_RomBlock bw aw d kr bnr async pad σ0 = (Ok self, σ1) →
  self = _memIndex σ0 ∧ 0 < bw ∧ 0 < aw ∧
  σ1 = mkWorld (working_block σ0) (next_wire σ0) (S (_memIndex σ0))
         (<[self := mkMem kr 0 bw aw [] self async (Some 0) 0 []
                      (Some (mkRom d bnr self pad))]> (heap σ0)).
Proof.
  unfold new_RomBlock, MemBlock_init.
  destruct (decide (bw <= 0)); [discriminate|].
  destruct (decide (aw <= 0)); [discriminate|].
  run_rom. intros [= <- <-]. repeat split; lia.
Qed.

(** A read on a RomBlock whose current copy has room, or that does not
    build copies, is a read on the current copy. *)
Lemma rom_read_same σ self addr mem fields :
  heap σ !! self = Some mem →
  rom mem = Some fields →
  (build_new_roms fields = false ∨
   ∃ cc k, heap σ !! current_copy fields = Some cc ∧
           max_read_ports cc = Some k ∧ num_read_ports cc < k) →
  RomBlock_build_read_port self addr σ =
    MemBlock_build_read_port (current_copy fields) addr σ.
Proof.
  intros Hm Hrom Hroom. run_rom. rewrite Hm. simpl. rewrite Hrom. simpl.
  destruct Hroom as [-> | (cc & k & Hcc & Hk & Hlt)]; simpl.
  - rewrite Hm. simpl. rewrite Hrom. reflexivity.
  - destruct (build_new_roms fields); simpl.
    + rewrite Hcc. simpl. rewrite Hk. simpl.
      rewrite bool_decide_eq_false_2 by lia. simpl.
      rewrite Hm. simpl. rewrite Hrom. reflexivity.
    + rewrite Hm. simpl. rewrite Hrom. reflexivity.
Qed.

(** A read on a RomBlock that builds copies and whose current copy is full
    creates a copy, makes it the current one and reads on it. *)
Lemma rom_read_copy σ self addr mem fields cc k :
  heap σ !! self = Some mem →
  rom mem = Some fields →
  build_new_roms fields = true →
  heap σ !! current_copy fields = Some cc →
  max_read_ports cc = Some k →
  num_read_ports cc >= k →
  0 < bitwidth mem → 0 < addrwidth mem →
  self ≠ _memIndex σ →
  let new := _memIndex σ in
  let copy := mkMem (max_read_ports mem) 0 (bitwidth mem) (addrwidth mem) [] new
                    (asynchronous mem) (Some 0) 0 []
                    (Some (mkRom (data fields) false new (pad_with_zeros fields))) in
  RomBlock_build_read_port self addr σ =
    MemBlock_build_read_port new addr
      (mkWorld (working_block σ) (next_wire σ) (S new)
         (<[self := with_current_copy new mem]> (<[new := copy]> (heap σ)))).
Proof.
  intros Hm Hrom Hbnr Hcc Hk Hge Hbw Haw Hne new copy.
  run_rom.
  repeat (first [ rewrite Hm | rewrite Hrom | rewrite Hbnr | rewrite Hcc | rewrite Hk
                | rewrite bool_decide_eq_true_2 by lia
                | rewrite lookup_insert_eq
                | rewrite lookup_insert_ne by done
                | match goal with
                  | |- context [decide (?x <= 0)] => destruct (decide (x <= 0)); [lia|]
                  end ]; simpl).
  reflexivity.
Qed.

(** C5: on a RomBlock created with [build_new_roms=True] and
    [max_read_ports=2], three reads through the one reference succeed; the
    nets of the first two carry the identity of the original memory, the
    third one the identity of a copy created by that read, which has the
    bitwidth, addrwidth, data and [pad_with_zeros] of the original and is
    its [current_copy] from then on: two memory identities in all. *)
Theorem rom_replication bw aw romdata async pad σ0 self σ1 a1 a2 a3 :
  new_RomBlock bw aw romdata (Some 2) true async pad σ0 = (Ok self, σ1) →
  ∃ d1 d2 d3 s1 s2 s3 n1 n2 n3 orig2 orig copy replica,
    RomBlock_build_read_port self a1 σ1 = (Ok d1, s1) ∧
    RomBlock_build_read_port self a2 s1 = (Ok d2, s2) ∧
    RomBlock_build_read_port self a3 s2 = (Ok d3, s3) ∧
    heap s2 !! self = Some orig2 ∧
    rom orig2 = Some (mkRom romdata true self pad) ∧
    copy = _memIndex s2 ∧ copy ≠ self ∧
    heap s3 !! self = Some orig ∧ heap s3 !! copy = Some replica ∧
    readport_nets orig = [n1; n2] ∧ readport_nets replica = [n3] ∧
    op_param n1 = Some self ∧ op_param n2 = Some self ∧ op_param n3 = Some copy ∧
    id orig = self ∧ id replica = copy ∧
    rom orig = Some (mkRom romdata true copy pad) ∧
    bitwidth replica = bw ∧ addrwidth replica = aw ∧
    max_read_ports replica = Some 2 ∧
    rom replica = Some (mkRom romdata false copy pad).
Proof.
  intros Hnew. apply new_RomBlock_world in Hnew as (Hself & Hbw & Haw & ->).
  set (m0 := mkMem (Some 2) 0 bw aw [] self async (Some 0) 0 []
                   (Some (mkRom romdata true self pad))).
  set (f0 := mkRom romdata true self pad).
  (* first read *)
  set (σ1 := mkWorld _ _ _ _).
  assert (heap σ1 !! self = Some m0) as H0 by apply lookup_insert_eq.
  assert (RomBlock_build_read_port self a1 σ1 = MemBlock_build_read_port self a1 σ1) as R1.
  { apply (rom_read_same σ1 self a1 m0 f0 H0 eq_refl).
    right. exists m0, 2. split; [exact H0|]. split; [reflexivity | simpl; lia]. }
  rewrite (read_port_ok σ1 self a1 m0 H0) in R1 by (simpl; intros ? [= <-]; lia).
  match type of R1 with _ = (Ok ?d, _) => set (d1 := d) in * end.
  match type of R1 with context [with_readport_nets (_ ++ [?n]) _] => set (n1 := n) in * end.
  set (m1 := with_readport_nets (readport_nets m0 ++ [n1]) (counted_read m0)) in *.
  match type of R1 with _ = (Ok _, ?s) => set (s1 := s) in * end.
  (* second read *)
  assert (heap s1 !! self = Some m1) as H1 by apply lookup_insert_eq.
  assert (RomBlock_build_read_port self a2 s1 = MemBlock_build_read_port self a2 s1) as R2.
  { apply (rom_read_same s1 self a2 m1 f0 H1 eq_refl).
    right. exists m1, 2. split; [exact H1|]. split; [reflexivity | simpl; lia]. }
  rewrite (read_port_ok s1 self a2 m1 H1) in R2 by (simpl; intros ? [= <-]; lia).
  match type of R2 with _ = (Ok ?d, _) => set (d2 := d) in * end.
  match type of R2 with context [with_readport_nets (_ ++ [?n]) _] => set (n2 := n) in * end.
  set (m2 := with_readport_nets (readport_nets m1 ++ [n2]) (counted_read m1)) in *.
  match type of R2 with _ = (Ok _, ?s) => set (s2 := s) in * end.
  (* third read *)
  assert (heap s2 !! self = Some m2) as H2 by apply lookup_insert_eq.
  assert (self ≠ _memIndex s2) as Hne by (simpl; lia).
  pose proof (rom_read_copy s2 self a3 m2 f0 m2 2 H2 eq_refl eq_refl H2 eq_refl
                ltac:(simpl; lia) Hbw Haw Hne) as R3.
  simpl in R3.
  match type of R3 with _ = MemBlock_build_read_port ?c _ _ => set (copy := c) in * end.
  match type of R3 with context [<[copy := ?m]> _] => set (m3 := m) in * end.
  match type of R3 with _ = MemBlock_build_read_port _ _ ?s => set (s2' := s) in * end.
  assert (heap s2' !! copy = Some m3) as H3.
  { simpl. rewrite lookup_insert_ne by done. apply lookup_insert_eq. }
  rewrite (read_port_ok s2' copy a3 m3 H3) in R3 by (simpl; intros ? [= <-]; lia).
  match type of R3 with _ = (Ok ?d, _) => set (d3 := d) in * end.
  match type of R3 with context [with_readport_nets (_ ++ [?n]) _] => set (n3 := n) in * end.
  match type of R3 with _ = (Ok _, ?s) => set (s3 := s) in * end.
  exists d1, d2, d3, s1, s2, s3, n1, n2, n3, m2, (with_current_copy copy m2), copy,
    (with_readport_nets (readport_nets m3 ++ [n3]) (counted_read m3)).
  split; [exact R1|]. split; [exact R2|]. split; [exact R3|].
  split; [exact H2|]. split; [reflexivity|]. split; [reflexivity|].
  split; [subst copy; simpl; lia|].
  split.
  { subst s3. simpl. rewrite lookup_insert_ne by (subst copy; simpl; lia).
    apply lookup_insert_eq. }
  split; [subst s3; simpl; apply lookup_insert_eq|].
  repeat split.
Qed.

Lemma rom_replication_witness :
  ∃ d1 d2 d3 s1 s2 s3,
    RomBlock_build_read_port 0 (mkWire 5 Input) fresh_rom = (Ok d1, s1) ∧
    RomBlock_build_read_port 0 (mkWire 6 Input) s1 = (Ok d2, s2) ∧
    RomBlock_build_read_port 0 (mkWire 7 Input) s2 = (Ok d3, s3).
Proof.
  destruct (rom_replication 4 2 (RomDict (<[0 := 5]> (<[1 := 9]> ∅))) false false
              empty_world 0 fresh_rom (mkWire 5 Input) (mkWire 6 Input) (mkWire 7 Input)
              eq_refl)
    as (d1 & d2 & d3 & s1 & s2 & s3 & _ & _ & _ & _ & _ & _ & _ & R1 & R2 & R3 & _).
  exists d1, d2, d3, s1, s2, s3. split; [exact R1|]. split; [exact R2 | exact R3].
Defined.

(** **** A RomBlock is never written *)

Lemma preserves_bind {A B} (P : world → Prop) (m : M A) (k : A → M B) :
  preserves P m → (∀ a, preserves P (k a)) → preserves P (m ≫= k).
Proof.
  intros Hm Hk σ HP. unfold mbind, M_bind.
  specialize (Hm σ HP). destruct (m σ) as [[a|e] σ']; simpl in *; [|done].
  by apply Hk.
Qed.

Lemma preserves_ret {A} (P : world → Prop) (a : A) : preserves P (mret a).
Proof. intros σ HP. exact HP. Qed.

Lemma preserves_raise {A} (P : world → Prop) (e : exn) : preserves P (raise (A:=A) e).
Proof. intros σ HP. exact HP. Qed.

Lemma preserves_get_mem (P : world → Prop) self : preserves P (get_mem self).
Proof.
  intros σ HP. unfold get_mem, mbind, M_bind, get_world. simpl.
  by destruct (heap σ !! self).
Qed.

Lemma preserves_get_rom (P : world → Prop) self : preserves P (get_rom self).
Proof.
  apply preserves_bind; [apply preserves_get_mem|].
  intros mem. destruct (rom mem); [apply preserves_ret | apply preserves_raise].
Qed.

Lemma preserves_ge_cap (P : world → Prop) a b : preserves P (ge_cap a b).
Proof. destruct b; [apply preserves_ret | apply preserves_raise]. Qed.

Section WriteFree.

Variable self : nat.

Lemma write_free_set_attr c f :
  (∀ mem, no_write_ports mem → no_write_ports (f mem)) →
  preserves (write_free self) (set_attr c f).
Proof.
  intros Hf σ (Hlt & mem & Hm & Hw). unfold set_attr, get_mem, set_mem. run.
  destruct (heap σ !! c) as [memc|] eqn:Hc; simpl.
  - split; [done|]. destruct (decide (c = self)) as [->|Hne].
    + exists (f memc). simpl. rewrite lookup_insert_eq. split; [done|].
      apply Hf. by simplify_eq.
    + exists mem. simpl. by rewrite lookup_insert_ne.
  - split; [done|]. by exists mem.
Qed.

Lemma write_free_new_WireVector : preserves (write_free self) new_WireVector.
Proof. intros σ H. exact H. Qed.

Lemma write_free_add_net n : preserves (write_free self) (add_net n).
Proof. intros σ H. exact H. Qed.

Lemma write_free_build_read_port c addr :
  preserves (write_free self) (MemBlock_build_read_port c addr).
Proof.
  unfold MemBlock_build_read_port.
  apply preserves_bind; [apply preserves_get_mem | intros mem].
  apply preserves_bind.
  { destruct (max_read_ports mem); [|apply preserves_ret].
    apply preserves_bind; [by apply write_free_set_attr | intros _].
    apply preserves_bind; [apply preserves_get_mem | intros mem'].
    destruct (decide _); [apply preserves_raise | apply preserves_ret]. }
  intros _.
  apply preserves_bind; [apply write_free_new_WireVector | intros data].
  apply preserves_bind; [apply preserves_get_mem | intros mem'].
  apply preserves_bind; [apply write_free_add_net | intros _].
  apply preserves_bind; [by apply write_free_set_attr | intros _].
  apply preserves_ret.
Qed.

Lemma write_free_new_RomBlock bw aw d kr bnr async pad :
  preserves (write_free self) (new_RomBlock bw aw d kr bnr async pad).
Proof.
  intros σ (Hlt & mem & Hm & Hw). unfold new_RomBlock, MemBlock_init.
  destruct (decide (bw <= 0)); [by split; [|exists mem]|].
  destruct (decide (aw <= 0)); [by split; [|exists mem]|].
  run. unfold write_free. simpl. split; [lia|].
  exists mem. rewrite lookup_insert_ne by lia. done.
Qed.

Lemma write_free_make_copy : preserves (write_free self) (RomBlock_make_copy self).
Proof.
  unfold RomBlock_make_copy.
  apply preserves_bind; [apply preserves_get_mem | intros mem].
  apply preserves_bind; [apply preserves_get_rom | intros fields].
  apply write_free_new_RomBlock.
Qed.

Lemma write_free_rom_read addr :
  preserves (write_free self) (RomBlock_build_read_port self addr).
Proof.
  unfold RomBlock_build_read_port.
  apply preserves_bind; [apply preserves_get_rom | intros fields].
  apply preserves_bind.
  { destruct (build_new_roms fields); [|apply preserves_ret].
    apply preserves_bind; [apply preserves_get_mem | intros copy].
    apply preserves_ge_cap. }
  intros full.
  apply preserves_bind.
  { destruct full; [|apply preserves_ret].
    apply preserves_bind; [apply write_free_make_copy | intros copy].
    by apply write_free_set_attr. }
  intros _.
  apply preserves_bind; [apply preserves_get_rom | intros fields'].
  apply write_free_build_read_port.
Qed.

Lemma write_free_rom_requests rs : ∀ σ,
  write_free self σ → write_free self (rom_requests self rs σ).
Proof.
  induction rs as [|r rs IH]; intros σ Hσ; simpl; [done|].
  apply IH. destruct r as [addr | item assignment]; simpl.
  - apply (preserves_bind (write_free self)); [apply write_free_rom_read | | done].
    intros _. apply preserves_ret.
  - exact Hσ.
Qed.

End WriteFree.

(** C7: on every RomBlock, whatever was read or assigned through it
    before, the index assignment raises the read-only error for every index
    and every value, and changes nothing; the RomBlock has no write port and
    a counter of write ports at zero. *)
Theorem rom_write_rejected {I V : Type} bw aw romdata kr bnr async pad σ0 self σ1 rs
    (item : I) (assignment : V) :
  new_RomBlock bw aw romdata kr bnr async pad σ0 = (Ok self, σ1) →
  let σ := rom_requests self rs σ1 in
  RomBlock_setitem self item assignment σ =
    (Err (PyrtlError "no writing to a read-only memory"), σ) ∧
  ∃ mem, heap σ !! self = Some mem ∧
    max_write_ports mem = Some 0 ∧ num_write_ports mem = 0 ∧ writeport_nets mem = [].
Proof.
  intros Hnew σ. split; [reflexivity|].
  apply new_RomBlock_world in Hnew as (Hself & _ & _ & ->).
  assert (write_free self σ) as (_ & mem & Hm & Hw); [|by exists mem].
  apply write_free_rom_requests. split; [simpl; lia|].
  eexists. split; [apply lookup_insert_eq|]. by repeat split.
Qed.

Lemma rom_write_rejected_witness :
  RomBlock_setitem 0 (mkWire 5 Input) 3 (rom_requests 0 rom_traffic fresh_rom) =
    (Err (PyrtlError "no writing to a read-only memory"),
     rom_requests 0 rom_traffic fresh_rom).
Proof.
  apply (rom_write_rejected 4 2 (RomDict (<[0 := 5]> (<[1 := 9]> ∅))) (Some 2) true false
           false empty_world 0 fresh_rom rom_traffic (mkWire 5 Input) 3 eq_refl).
Defined.

End MemFacts.

(** * Properties of the loop detector *)

Module LoopFacts.
Import Loop.

(** ** Lists *)

Lemma filter_length_eq {A} (P : A → Prop) `{∀ x, Decision (P x)} (l : list A) :
  length (filter P l) = length l → filter P l = l.
Proof.
  induction l as [|x l IH]; [done|].
  rewrite filter_cons. destruct (decide (P x)) as [Hx|Hx]; simpl.
  - intros [= Hl]. by rewrite IH.
  - intros Hl. pose proof (length_filter P l). lia.
Qed.

Section Chain.
Context {A : Type} (R : A → A → Prop).

Lemma chain_cons x l :
  chain R (x :: l) ↔ (∀ y, head l = Some y → R x y) ∧ chain R l.
Proof.
  destruct l as [|y l]; simpl.
  - split; [intros _; split; [intros ? [=] | done] | done].
  - split.
    + intros [HR Hc]. split; [by intros ? [= <-] | done].
    + intros [HR Hc]. split; [by apply HR | done].
Qed.

Lemma chain_app_inv l1 l2 : chain R (l1 ++ l2) → chain R l1 ∧ chain R l2.
Proof.
  induction l1 as [|x l1 IH]; [done|].
  rewrite <- app_comm_cons, !chain_cons. intros [Hx Hc].
  destruct (IH Hc) as [H1 H2]. repeat split; [|done..].
  intros y Hy. apply Hx. destruct l1; [done|]. simpl in *. done.
Qed.

Lemma chain_snoc l x :
  chain R (l ++ [x]) ↔ chain R l ∧ (∀ y, last l = Some y → R y x).
Proof.
  induction l as [|z l IH].
  - simpl. split; [intros _; split; [done | intros ? [=]] | done].
  - rewrite <- app_comm_cons, !chain_cons, IH.
    destruct l as [|z' l].
    + simpl. split.
      * intros [Hz _]. repeat split; try done. intros ? [= <-]. by apply Hz.
      * intros [_ Hz]. repeat split; try done. intros ? [= <-]. by apply Hz.
    + change (last (z :: z' :: l)) with (last (z' :: l)). simpl head. tauto.
Qed.

Lemma chain_app l1 l2 :
  chain R l1 → chain R l2 →
  (∀ x y, last l1 = Some x → head l2 = Some y → R x y) →
  chain R (l1 ++ l2).
Proof.
  induction l1 as [|x l1 IH]; intros H1 H2 H12; [done|].
  rewrite <- app_comm_cons. apply chain_cons in H1 as [Hx H1].
  apply chain_cons. split.
  - intros y Hy. destruct l1 as [|z l1]; simpl in *.
    + by apply H12.
    + by apply Hx.
  - apply IH; [done..|]. intros a b Ha Hb. apply H12; [|done].
    destruct l1; [done|]. done.
Qed.

End Chain.

Lemma chain_reverse {A} (R : A → A → Prop) l :
  chain R (reverse l) ↔ chain (flip R) l.
Proof.
  induction l as [|x l IH]; [done|].
  rewrite reverse_cons, chain_snoc, chain_cons, IH.
  assert (last (reverse l) = head l) as ->.
  { destruct l as [|y l]; [done|]. by rewrite reverse_cons, last_snoc. }
  unfold flip. tauto.
Qed.

Lemma chain_mono {A} (R R' : A → A → Prop) l :
  (∀ x y, x ∈ l → y ∈ l → R x y → R' x y) → chain R l → chain R' l.
Proof.
  induction l as [|x l IH]; [done|].
  intros HR. rewrite !chain_cons. intros [Hx Hc]. split.
  - intros y Hy. apply HR; [by left | | by apply Hx].
    right. destruct l; simplify_eq/=. by left.
  - apply IH; [|done]. intros a b Ha Hb. apply HR; by right.
Qed.

(** In a cycle every element has a predecessor. *)
Lemma cycle_predecessor {A} (R : A → A → Prop) (l : list A) x :
  chain R (l ++ take 1 l) → x ∈ l → ∃ y, y ∈ l ∧ R y x.
Proof.
  intros Hc Hx.
  destruct l as [|h l]; [by apply elem_of_nil in Hx|].
  change ((h :: l) ++ take 1 (h :: l)) with ((h :: l) ++ [h]) in Hc.
  apply elem_of_cons in Hx as [-> | Hx].
  - apply chain_snoc in Hc as [_ Hlast].
    destruct (last (h :: l)) as [y|] eqn:Hy.
    + exists y. split; [|by apply Hlast].
      apply last_Some in Hy as [l' ->]. apply elem_of_app. right. by left.
    + by apply last_None in Hy.
  - apply chain_snoc in Hc as [Hc _].
    apply list_elem_of_split in Hx as (l1 & l2 & ->).
    destruct (last (h :: l1)) as [y|] eqn:Hy; [|by apply last_None in Hy].
    exists y. split.
    + apply last_Some in Hy as [l' Hl'].
      change (h :: l1 ++ x :: l2) with ((h :: l1) ++ x :: l2). rewrite Hl'.
      rewrite <- app_assoc. apply elem_of_app. right. by left.
    + change (h :: l1 ++ x :: l2) with ((h :: l1) ++ x :: l2) in Hc.
      apply last_Some in Hy as [l' Hl']. rewrite Hl' in Hc.
      rewrite <- app_assoc in Hc. apply chain_app_inv in Hc as [_ Hc].
      simpl in Hc. by destruct Hc.
Qed.

(** ** Phase 1: the pruning *)

Lemma any_arg_left_true wl n :
  any_arg_left wl n = true ↔ ∃ a, a ∈ args n ∧ a ∈ wl.
Proof.
  unfold any_arg_left. rewrite existsb_exists. split.
  - intros (a & Ha & Hw). exists a. split; [by apply list_elem_of_In|].
    by apply bool_decide_eq_true in Hw.
  - intros (a & Ha & Hw). exists a. split; [by apply list_elem_of_In|].
    by apply bool_decide_eq_true.
Qed.

Lemma prune_pass_spec nets : ∀ wl rm wl',
  prune_pass nets wl = (rm, wl') →
  wl' ⊆ wl ∧
  (∀ n, n ∈ rm → n ∈ nets ∧ ∀ x, x ∈ dests n → x ∉ wl') ∧
  (∀ n, n ∈ nets → n ∉ rm → ∃ a, a ∈ args n ∧ a ∈ wl) ∧
  (rm = [] → wl' = wl).
Proof.
  induction nets as [|n0 rest IH]; intros wl rm wl' Hp; simpl in Hp.
  - simplify_eq. split; [done|]. split; [|split; [|done]].
    + by intros n ?%elem_of_nil.
    + by intros n ?%elem_of_nil.
  - destruct (any_arg_left wl n0) eqn:Hany.
    + destruct (IH _ _ _ Hp) as (Hsub & Hrm & Hkept & Hnil).
      split; [done|]. split; [|split; [|done]].
      * intros n Hn. destruct (Hrm n Hn) as [Hin Hd]. split; [by right | done].
      * intros n Hn Hnot. apply elem_of_cons in Hn as [-> | Hn]; [|by apply Hkept].
        by apply any_arg_left_true.
    + destruct (prune_pass rest (wl ∖ list_to_set (dests n0))) as [rm0 wl0] eqn:Hp0.
      simplify_eq.
      destruct (IH _ _ _ Hp0) as (Hsub & Hrm & Hkept & Hnil).
      split; [set_solver|]. split; [|split; [|intros [=]]].
      * intros n Hn. apply elem_of_cons in Hn as [-> | Hn].
        -- split; [by left|]. intros x Hx Hwl. apply Hsub in Hwl. set_solver.
        -- destruct (Hrm n Hn) as [Hin Hd]. split; [by right | done].
      * intros n Hn Hnot. apply not_elem_of_cons in Hnot as [Hne Hnot].
        apply elem_of_cons in Hn as [-> | Hn]; [done|].
        destruct (Hkept n Hn Hnot) as (a & Ha & Hw). exists a. set_solver.
Qed.

Lemma elem_of_remove_nets ll rm n : n ∈ remove_nets ll rm ↔ (n ∉ rm) ∧ n ∈ ll.
Proof. unfold remove_nets. apply (list_elem_of_filter (λ net, net ∉ rm)). Qed.

Lemma remove_nets_length ll rm : (length (remove_nets ll rm) ≤ length ll)%nat.
Proof. apply length_filter. Qed.

(** A pass that does not make [logic_left] shorter changed nothing. *)
Lemma prune_pass_fixed ll wl rm wl' :
  prune_pass ll wl = (rm, wl') →
  length (remove_nets ll rm) = length ll →
  remove_nets ll rm = ll ∧ wl' = wl ∧ fed ll wl.
Proof.
  intros Hp Hlen. apply filter_length_eq in Hlen. fold (remove_nets ll rm) in Hlen.
  destruct (prune_pass_spec _ _ _ _ Hp) as (Hsub & Hrm & Hkept & Hnil).
  assert (rm = []) as ->.
  { destruct rm as [|n rm]; [done|]. exfalso.
    assert (n ∈ ll) as Hn by (apply Hrm; by left).
    rewrite <- Hlen in Hn. apply elem_of_remove_nets in Hn as [Hn _].
    apply Hn. by left. }
  split; [done|]. split; [by apply Hnil|].
  intros n Hn. apply Hkept; [done|]. by intros ?%elem_of_nil.
Qed.

Lemma prune_loop_fixed fuel : ∀ prev ll wl ll' wl',
  (length ll < prev)%nat ∨ fed ll wl →
  prune_loop fuel prev ll wl = Some (ll', wl') →
  fed ll' wl'.
Proof.
  induction fuel as [|fuel IH]; intros prev ll wl ll' wl' Hpre Hl; [done|].
  simpl in Hl. destruct (decide (length ll < prev)%nat) as [Hlt|Hge].
  - destruct (prune_pass ll wl) as [rm wl0] eqn:Hp.
    apply (IH _ _ _ _ _) in Hl; [done|].
    destruct (decide (length (remove_nets ll rm) = length ll)) as [Heq|Hne].
    + right. destruct (prune_pass_fixed _ _ _ _ Hp Heq) as (-> & -> & Hfed). done.
    + left. pose proof (remove_nets_length ll rm). lia.
  - simplify_eq. by destruct Hpre.
Qed.

(** A property that every pass keeps holds when the loop ends. *)
Lemma prune_loop_inv (Inv : list LogicNet → gset WireVector → Prop) :
  (∀ ll wl rm wl', Inv ll wl → prune_pass ll wl = (rm, wl') →
     Inv (remove_nets ll rm) wl') →
  ∀ fuel prev ll wl ll' wl',
    Inv ll wl → prune_loop fuel prev ll wl = Some (ll', wl') → Inv ll' wl'.
Proof.
  intros Hstep. induction fuel as [|fuel IH]; intros prev ll wl ll' wl' HI Hl; [done|].
  simpl in Hl. destruct (decide (length ll < prev)%nat) as [Hlt|Hge].
  - destruct (prune_pass ll wl) as [rm wl0] eqn:Hp.
    apply (IH _ _ _ _ _) in Hl; [done|]. by apply (Hstep ll wl).
  - by simplify_eq.
Qed.

Lemma prune_loop_terminates fuel : ∀ prev ll wl,
  (length ll + 2 ≤ fuel)%nat ∨ ((1 ≤ fuel)%nat ∧ (prev ≤ length ll)%nat) →
  is_Some (prune_loop fuel prev ll wl).
Proof.
  induction fuel as [|fuel IH]; intros prev ll wl Hf; [lia|].
  simpl. destruct (decide (length ll < prev)%nat) as [Hlt|Hge]; [|done].
  destruct (prune_pass ll wl) as [rm wl0] eqn:Hp.
  apply IH. pose proof (remove_nets_length ll rm).
  destruct (decide (length (remove_nets ll rm) = length ll)); lia.
Qed.

Lemma prune_loop_mono fuel : ∀ fuel' prev ll wl r,
  prune_loop fuel prev ll wl = Some r → (fuel ≤ fuel')%nat →
  prune_loop fuel' prev ll wl = Some r.
Proof.
  induction fuel as [|fuel IH]; intros fuel' prev ll wl r Hl Hle; [done|].
  destruct fuel' as [|fuel']; [lia|]. simpl in *.
  destruct (decide (length ll < prev)%nat); [|done].
  destruct (prune_pass ll wl) as [rm wl0]. apply IH; [done | lia].
Qed.

(** The pruning keeps what it was given or less. *)
Lemma prune_loop_subset fuel prev ll wl ll' wl' :
  prune_loop fuel prev ll wl = Some (ll', wl') →
  (∀ n, n ∈ ll' → n ∈ ll) ∧ wl' ⊆ wl.
Proof.
  apply (prune_loop_inv (λ l x, (∀ n, n ∈ l → n ∈ ll) ∧ x ⊆ wl)); [|done].
  intros l x rm x' [Hl Hx] Hp.
  destruct (prune_pass_spec _ _ _ _ Hp) as (Hsub & _).
  split; [|set_solver].
  intros n Hn. apply elem_of_remove_nets in Hn as [_ Hn]. by apply Hl.
Qed.

Lemma prune_loop_driven fuel prev ll wl ll' wl' :
  all_driven ll wl →
  prune_loop fuel prev ll wl = Some (ll', wl') →
  all_driven ll' wl'.
Proof.
  apply (prune_loop_inv all_driven).
  intros l x rm x' Hd Hp y Hy.
  destruct (prune_pass_spec _ _ _ _ Hp) as (Hsub & Hrm & _).
  destruct (Hd y (Hsub _ Hy)) as (n & Hn & Hyn).
  exists n. split; [|done]. apply elem_of_remove_nets. split; [|done].
  intros Hin. by apply (proj2 (Hrm n Hin) y).
Qed.

(** The nets of a cycle survive a pass, when no other net drives one of
    their wires. *)
Lemma prune_pass_keeps (ns all : list LogicNet) :
  (∀ n m x, n ∈ all → m ∈ ns → x ∈ dests n → x ∈ dests m → n = m) →
  ∀ nets wl rm wl',
    (∀ n, n ∈ nets → n ∈ all) →
    prune_pass nets wl = (rm, wl') →
    fed_within ns wl →
    fed_within ns wl' ∧ ∀ n, n ∈ rm → n ∉ ns.
Proof.
  intros Huniq. induction nets as [|n0 rest IH]; intros wl rm wl' Hall Hp Hfed; simpl in Hp.
  - simplify_eq. split; [done|]. by intros n ?%elem_of_nil.
  - assert (∀ n, n ∈ rest → n ∈ all) as Hrest by (intros; apply Hall; by right).
    destruct (any_arg_left wl n0) eqn:Hany; [by apply (IH wl)|].
    destruct (prune_pass rest (wl ∖ list_to_set (dests n0))) as [rm0 wl0] eqn:Hp0.
    simplify_eq.
    assert (n0 ∉ ns) as Hn0.
    { intros Hin. destruct (Hfed n0 Hin) as (a & Ha & Hw & _).
      assert (any_arg_left wl n0 = true) by (apply any_arg_left_true; eauto).
      congruence. }
    destruct (IH (wl ∖ list_to_set (dests n0)) rm0 wl' Hrest Hp0) as [Hfed' Hrm].
    + intros n Hn. destruct (Hfed n Hn) as (a & Ha & Hw & m & Hm & Ham).
      exists a. split; [done|]. split; [|by exists m].
      apply elem_of_difference. split; [done|].
      rewrite elem_of_list_to_set. intros Hd.
      apply Hn0. rewrite (Huniq n0 m a); [done | apply Hall; by left | done..].
    + split; [done|]. intros n Hn. apply elem_of_cons in Hn as [-> | Hn]; [done|].
      by apply Hrm.
Qed.

Lemma prune_loop_keeps (ns all : list LogicNet) fuel prev wl ll' wl' :
  (∀ n m x, n ∈ all → m ∈ ns → x ∈ dests n → x ∈ dests m → n = m) →
  (∀ n, n ∈ ns → n ∈ all) →
  fed_within ns wl →
  prune_loop fuel prev all wl = Some (ll', wl') →
  (∀ n, n ∈ ns → n ∈ ll') ∧ fed_within ns wl'.
Proof.
  intros Huniq Hns Hfed Hl.
  pose (Inv := λ (l : list LogicNet) (x : gset WireVector),
          (∀ n, n ∈ l → n ∈ all) ∧ (∀ n, n ∈ ns → n ∈ l) ∧ fed_within ns x).
  assert (Inv ll' wl') as (_ & ? & ?); [|done].
  apply (prune_loop_inv Inv) with (fuel := fuel) (prev := prev) (ll := all) (wl := wl);
    [|done|done].
  intros l x rm x' (Hl1 & Hl2 & Hl3) Hp.
  destruct (prune_pass_keeps ns all Huniq l x rm x' Hl1 Hp Hl3) as [Hfed' Hrm].
  repeat split; [| |done].
  - intros n Hn. apply elem_of_remove_nets in Hn as [_ Hn]. by apply Hl1.
  - intros n Hn. apply elem_of_remove_nets. split; [|by apply Hl2].
    intros Hin. by apply (Hrm n).
Qed.

(** ** Phase 2: the search *)

Lemma stack_top (stack : list _FilteringState) :
  stack ≠ [] → ∃ below cur_item, stack = below ++ [cur_item].
Proof.
  intros Hne. destruct (last stack) as [cur|] eqn:Hl.
  - apply last_Some in Hl as [below ->]. by exists below, cur.
  - by apply last_None in Hl.
Qed.

Lemma dead_end_state wl cw below cur cur' :
  dst_w cur' = dst_w cur →
  dead_end (mkState wl cw (below ++ [cur])) cur' =
    mkState (wl ∖ {[dst_w cur]}) (cw ∖ {[dst_w cur]}) below.
Proof. intros Hd. unfold dead_end. simpl. by rewrite Hd, removelast_last. Qed.

Lemma advance_spec dest_nets st below cur_item cur_item' current' :
  checking_stack st = below ++ [cur_item] →
  entered dest_nets st cur_item cur_item' current' →
  body_spec dest_nets st
    (advance (mkState (wires_left st) current' (checking_stack st)) cur_item').
Proof.
  intros Hst Hent.
  assert (dst_w cur_item' = dst_w cur_item) as Hdst.
  { destruct Hent as [(_ & _ & _ & n & _ & _ & ->) | (_ & -> & _)]; done. }
  unfold advance. simpl.
  destruct (net cur_item') as [n|] eqn:Hnet; [|by eapply spec_attribute_error].
  rewrite Hst, removelast_last, Hdst.
  destruct (decide _) as [Hlen | Hlen].
  - rewrite <- Hst.
    replace (mkState (wires_left st) current' (checking_stack st))
      with (mkState (wires_left st) current' (below ++ [cur_item])) by (by rewrite Hst).
    rewrite dead_end_state by done. by eapply spec_exhausted.
  - destruct (args n !! Z.to_nat (arg_num cur_item' + 1)) as [next_wire|] eqn:Harg;
      [|by eapply spec_index_error].
    destruct (decide (next_wire ∉ current')) as [Hnew | Hold].
    + rewrite <- app_assoc. simpl. by eapply spec_push.
    + apply dec_stable in Hold. by eapply spec_scan.
Qed.

Lemma loop_body_spec dest_nets st :
  checking_stack st ≠ [] → body_spec dest_nets st (loop_body dest_nets st).
Proof.
  intros Hne. destruct (stack_top _ Hne) as (below & cur_item & Hst).
  unfold loop_body. rewrite Hst, last_snoc. rewrite <- Hst.
  destruct (decide (arg_num cur_item = -1)) as [Hnew | Hseen].
  - destruct (decide (dst_w cur_item ∉ wires_left st)) as [Hout | Hin].
    + destruct st as [wl cw stack]. simpl in *. subst stack.
      rewrite dead_end_state by done.
      eapply (spec_dead_end _ (mkState wl cw (below ++ [cur_item]))); eauto.
    + apply dec_stable in Hin.
      destruct (dest_nets !! dst_w cur_item) as [n|] eqn:Hn; [|by eapply spec_key_error].
      destruct (decide (op n = "r"%char)) as [Hr | Hr].
      * destruct st as [wl cw stack]. simpl in *. subst stack.
        rewrite dead_end_state by done.
        replace ((cw ∪ {[dst_w cur_item]}) ∖ {[dst_w cur_item]})
          with (cw ∖ {[dst_w cur_item]}) by set_solver.
        eapply (spec_dead_end _ (mkState wl cw (below ++ [cur_item]))); eauto.
      * apply (advance_spec dest_nets st below cur_item); [done|].
        left. split; [done|]. split; [done|]. split; [reflexivity|].
        exists n. by rewrite Hnew.
  - replace st with (mkState (wires_left st) (current_wires st) (checking_stack st))
      at 2 by (by destruct st).
    apply (advance_spec dest_nets st below cur_item); [done|]. by right.
Qed.

(** *** The scan for the frames of the loop *)

Lemma scan_loop_found x stack :
  x ∈ dst_w <$> stack → ∃ loop_info, scan_loop x stack = Some loop_info.
Proof.
  induction stack as [|f stack IH]; intros Hx; [by apply elem_of_nil in Hx|].
  simpl. destruct (decide (dst_w f = x)); [by eexists|].
  rewrite fmap_cons in Hx. apply elem_of_cons in Hx as [Hx | Hx]; [done|].
  destruct (IH Hx) as [l ->]. by eexists.
Qed.

(** The frames returned are the first frames of the list scanned, up to the
    first one at the wire looked for. *)
Lemma scan_loop_spec x stack loop_info :
  scan_loop x stack = Some loop_info →
  ∃ pre f post,
    loop_info = pre ++ [f] ∧ stack = loop_info ++ post ∧
    dst_w f = x ∧ ∀ g, g ∈ pre → dst_w g ≠ x.
Proof.
  revert loop_info. induction stack as [|f0 stack IH]; intros l Hs; [done|].
  simpl in Hs. destruct (decide (dst_w f0 = x)) as [Hf | Hf].
  - simplify_eq. exists [], f0, stack. repeat split. by intros g ?%elem_of_nil.
  - destruct (scan_loop x stack) as [l0|] eqn:Hs0; [|done]. simplify_eq.
    destruct (IH l0 eq_refl) as (pre & f & post & -> & -> & Hfx & Hpre).
    exists (f0 :: pre), f, post. repeat split; [done|].
    intros g Hg. apply elem_of_cons in Hg as [-> | Hg]; [done | by apply Hpre].
Qed.

(** *** The invariant of the stack *)

Lemma chain_link_visited below cur_item f :
  chain link (below ++ [cur_item]) → f ∈ below → visited f.
Proof.
  intros Hc Hf. apply list_elem_of_split in Hf as (l1 & l2 & ->).
  rewrite <- app_assoc in Hc. apply chain_app_inv in Hc as [_ Hc].
  rewrite <- app_comm_cons in Hc. apply chain_cons in Hc as [Hc _].
  destruct (l2 ++ [cur_item]) as [|g rest] eqn:Hl2.
  - by destruct l2.
  - by destruct (Hc g eq_refl).
Qed.

Lemma stack_inv_initial dest_nets wl x : stack_inv dest_nets (initial_state wl x).
Proof.
  split; simpl.
  - apply NoDup_singleton.
  - intros y Hy. by apply not_elem_of_empty in Hy.
  - intros f Hf Hv. apply list_elem_of_singleton in Hf as ->. by destruct Hv.
  - apply Forall_singleton. by left.
  - done.
Qed.

(** What is known of the top frame once the iteration went past its first
    visit. *)
Lemma entered_facts dest_nets st below cur_item cur_item' current' :
  stack_inv dest_nets st →
  checking_stack st = below ++ [cur_item] →
  entered dest_nets st cur_item cur_item' current' →
  dst_w cur_item' = dst_w cur_item ∧
  (∀ x, x ∈ current' → x ∈ dst_w <$> (below ++ [cur_item])) ∧
  dst_w cur_item ∈ current' ∧
  (∀ f, f ∈ below → dst_w f ∈ current') ∧
  (∀ n, net cur_item' = Some n →
     dest_nets !! dst_w cur_item = Some n ∧ op n ≠ "r"%char ∧
     -1 <= arg_num cur_item' < Z.of_nat (length (args n))).
Proof.
  intros [Hnd Hsub Hsup Hfr Hch] Hst Hent. rewrite Hst in *.
  assert (∀ f, f ∈ below → dst_w f ∈ current_wires st) as Hbelow.
  { intros f Hf. apply Hsup; [apply elem_of_app; by left|].
    by apply (chain_link_visited below cur_item). }
  destruct Hent as [(Hnew & Hin & -> & n & Hn & Hr & ->) | (Hseen & -> & ->)].
  - split; [done|]. split; [|split; [set_solver|split]].
    + intros x [Hx | Hx]%elem_of_union; [by apply Hsub|].
      apply elem_of_singleton in Hx as ->. rewrite fmap_app. set_solver.
    + intros f Hf. apply elem_of_union. left. by apply Hbelow.
    + simpl. intros n' [= <-]. repeat split; try done. lia.
  - split; [done|]. split; [done|]. split; [|split; [done|]].
    + apply Hsup; [|done]. apply elem_of_app. right. by left.
    + intros n Hn. apply Forall_app in Hfr as [_ Hcur].
      apply Forall_singleton in Hcur as [Hcur | (n' & Hn' & HD & Hr & Hk)]; [done|].
      simplify_eq. repeat split; try done; lia.
Qed.

Lemma nodup_below (below : list _FilteringState) cur_item :
  NoDup (dst_w <$> (below ++ [cur_item])) →
  NoDup (dst_w <$> below) ∧ dst_w cur_item ∉ dst_w <$> below.
Proof.
  rewrite fmap_app. intros (Hb & Hd & _)%NoDup_app. split; [done|].
  intros Hin. apply (Hd _ Hin). simpl. by left.
Qed.

(** Popping the top frame. *)
Lemma stack_inv_pop dest_nets st below cur_item current' wl' :
  stack_inv dest_nets st →
  checking_stack st = below ++ [cur_item] →
  (∀ x, x ∈ current' → x ∈ dst_w <$> (below ++ [cur_item])) →
  (∀ f, f ∈ below → dst_w f ∈ current') →
  stack_inv dest_nets (mkState wl' (current' ∖ {[dst_w cur_item]}) below).
Proof.
  intros [Hnd Hsub Hsup Hfr Hch] Hst Hsub' Hsup'. rewrite Hst in *.
  destruct (nodup_below _ _ Hnd) as [Hnd' Hfresh].
  split; simpl.
  - done.
  - intros x [Hx Hne]%elem_of_difference. apply Hsub' in Hx.
    rewrite fmap_app in Hx. apply elem_of_app in Hx as [Hx | Hx]; [done|].
    simpl in Hx. apply list_elem_of_singleton in Hx. set_solver.
  - intros f Hf _. apply elem_of_difference. split; [by apply Hsup'|].
    intros Heq%elem_of_singleton. apply Hfresh. rewrite <- Heq.
    by apply list_elem_of_fmap_2.
  - by apply Forall_app in Hfr as [? _].
  - by apply chain_app_inv in Hch as [? _].
Qed.

Lemma stack_inv_step dest_nets st st' :
  stack_inv dest_nets st →
  body_spec dest_nets st (Continue st') →
  stack_inv dest_nets st'.
Proof.
  intros Hinv Hstep. inversion Hstep as
    [below cur Hst Hnew Hwhy | | | below cur cur' cw' n Hst Hent Hnet Hlen
     | | below cur cur' cw' n next Hst Hent Hnet Hlen Harg Hfresh | ]; subst.
  - (* dead end on the first visit *)
    apply (stack_inv_pop dest_nets st below cur); [done | done | |].
    + destruct Hinv as [_ Hsub _ _ _]. by rewrite Hst in Hsub.
    + intros f Hf. destruct Hinv as [_ _ Hsup _ Hch]. rewrite Hst in *.
      apply Hsup; [apply elem_of_app; by left|].
      by apply (chain_link_visited below cur).
  - (* arguments exhausted *)
    destruct (entered_facts _ _ _ _ _ _ Hinv Hst Hent) as (_ & Hsub & _ & Hsup & _).
    by apply (stack_inv_pop dest_nets st below cur).
  - (* a frame is pushed *)
    destruct (entered_facts _ _ _ _ _ _ Hinv Hst Hent) as (Hdst & Hsub & Hcur & Hsup & Hn).
    destruct (Hn n Hnet) as (HD & Hr & Hk).
    destruct Hinv as [Hnd _ _ Hfr Hch]. rewrite Hst in *.
    destruct (nodup_below _ _ Hnd) as [Hnd' Hfresh'].
    set (cur2 := mkFrame (dst_w cur) (arg_num cur' + 1) (Some n)).
    split; simpl.
    + rewrite fmap_app. simpl. apply NoDup_app. split; [done|]. split.
      * intros x Hx Hin. apply elem_of_cons in Hin as [-> | Hin]; [done|].
        apply list_elem_of_singleton in Hin as ->.
        apply list_elem_of_fmap in Hx as (f & -> & Hf). apply Hfresh. by apply Hsup.
      * apply NoDup_cons. split; [|apply NoDup_singleton].
        intros Hin. apply list_elem_of_singleton in Hin. apply Hfresh. by rewrite <- Hin.
    + intros x [Hx | Hx]%elem_of_union.
      * apply Hsub in Hx. rewrite !fmap_app in *. simpl in *. set_solver.
      * apply elem_of_singleton in Hx as ->. rewrite fmap_app. simpl. set_solver.
    + intros f Hf Hv. apply elem_of_union. left.
      apply elem_of_app in Hf as [Hf | Hf]; [by apply Hsup|].
      apply elem_of_cons in Hf as [-> | Hf]; [done|].
      apply list_elem_of_singleton in Hf as ->. by destruct Hv.
    + apply Forall_app in Hfr as [Hfr _]. apply Forall_app. split; [done|].
      apply Forall_cons. split; [|apply Forall_singleton; by left].
      right. exists n. simpl. repeat split; try done; lia.
    + change (below ++ [cur2; new_FilteringState next])
        with (below ++ [cur2] ++ [new_FilteringState next]).
      rewrite app_assoc. apply chain_snoc. split.
      * apply chain_snoc in Hch as [Hch Hlast]. apply chain_snoc. split; [done|].
        intros y Hy. destruct (Hlast y Hy) as (Hv & m & Hm & Ha).
        split; [done|]. by exists m.
      * intros y Hy. rewrite last_snoc in Hy. simplify_eq.
        split; [unfold visited; simpl; lia|]. by exists n.
  - (* the scan returns or raises *)
    match goal with
    | H : match ?x with _ => _ end = Continue _ |- _ => destruct x; discriminate
    end.
Qed.

(** The branch that raises "Shouldn't get here" is never taken. *)
Lemma body_scan_finds dest_nets st r :
  stack_inv dest_nets st →
  body_spec dest_nets st r →
  r ≠ Raise shouldnt_get_here.
Proof.
  intros Hinv Hstep. inversion Hstep as
    [ | | | | | | below cur cur' cw' n next Hst Hent Hnet Hlen Harg Hold]; subst; try done.
  destruct (entered_facts _ _ _ _ _ _ Hinv Hst Hent) as (_ & Hsub & _).
  destruct (scan_loop_found next
              (reverse (below ++ [mkFrame (dst_w cur) (arg_num cur' + 1) (Some n)])))
    as [l ->]; [|done].
  apply Hsub in Hold. rewrite fmap_reverse, elem_of_reverse.
  rewrite fmap_app in *. simpl in *. done.
Qed.

Lemma reachable_stack_inv dest_nets st0 st :
  stack_inv dest_nets st0 → reachable dest_nets st0 st → stack_inv dest_nets st.
Proof.
  intros H0 Hr. induction Hr as [|st st' Hr IH Hne Hbody]; [done|].
  apply (stack_inv_step dest_nets st); [done|].
  rewrite <- Hbody. by apply loop_body_spec.
Qed.

Lemma iterate_body_reachable k : ∀ dest_nets st0 st st',
  reachable dest_nets st0 st →
  iterate_body k dest_nets st = Some st' →
  reachable dest_nets st0 st'.
Proof.
  induction k as [|k IH]; intros D st0 st st' Hr Hit; simpl in Hit; [by simplify_eq|].
  destruct (checking_stack st) as [|f stack] eqn:Hst; [done|].
  destruct (loop_body D st) as [st1| |] eqn:Hb; try done.
  apply (IH D st0 st1); [|done].
  apply (reachable_step D st0 st); [done | by rewrite Hst | done].
Qed.

(** *** The frames the search returns *)

(** The frames returned are the frames of the stack from the top down to
    the frame at the repeated wire, which is the only frame at it. *)
Lemma body_return_run dest_nets st loop_info :
  stack_inv dest_nets st →
  body_spec dest_nets st (Return loop_info) →
  ∃ next_wire stack current' deeper pre f,
    stack_at_scan dest_nets st next_wire stack ∧
    stack_inv dest_nets (mkState (wires_left st) current' stack) ∧
    next_wire ∈ current' ∧
    Forall visited stack ∧
    stack = deeper ++ reverse loop_info ∧
    loop_info = pre ++ [f] ∧
    dst_w f = next_wire ∧
    ∀ g, g ∈ deeper ++ reverse pre → dst_w g ≠ next_wire.
Proof.
  intros Hinv Hstep. inversion Hstep as
    [ | | | | | | below cur cur' cw' n next Hst Hent Hnet Hlen Harg Hold Hres]; subst.
  destruct (scan_loop next _) as [l|] eqn:Hscan; [|done]. simplify_eq.
  destruct (entered_facts _ _ _ _ _ _ Hinv Hst Hent) as (Hdst & Hsub & Hcur & Hsup & Hn).
  destruct (Hn n Hnet) as (HD & Hr & Hk).
  set (cur2 := mkFrame (dst_w cur) (arg_num cur' + 1) (Some n)) in *.
  assert (arg_num cur' = arg_num cur) as Hsame.
  { destruct Hent as [(Hnew & _ & _ & m & _ & _ & ->) | (_ & -> & _)]; [by rewrite Hnew | done]. }
  destruct (scan_loop_spec _ _ _ Hscan) as (pre & f & post & -> & Hpost & Hf & Hpre).
  assert (below ++ [cur2] = reverse post ++ reverse (pre ++ [f])) as Hstack.
  { by rewrite <- reverse_app, <- Hpost, reverse_involutive. }
  assert (stack_inv dest_nets (mkState (wires_left st) cw' (below ++ [cur2]))) as Hinv2.
  { destruct Hinv as [Hnd Hsub0 Hsup0 Hfr Hch]. rewrite Hst in *. split; simpl.
    - by rewrite fmap_app in *.
    - intros x Hx. apply Hsub in Hx. by rewrite fmap_app in *.
    - intros g Hg Hv. apply elem_of_app in Hg as [Hg | Hg]; [by apply Hsup|].
      by apply list_elem_of_singleton in Hg as ->.
    - apply Forall_app in Hfr as [Hfr _]. apply Forall_app. split; [done|].
      apply Forall_singleton. right. exists n. simpl. repeat split; try done; lia.
    - apply chain_snoc in Hch as [Hch Hlast]. apply chain_snoc. split; [done|].
      intros y Hy. destruct (Hlast y Hy) as (Hv & m & Hm & Ha).
      split; [done|]. by exists m. }
  exists next, (below ++ [cur2]), cw', (reverse post), pre, f.
  split; [|split; [done|split; [done|split; [|split; [done|split; [done|split; [done|]]]]]]].
  - exists below, cur, n. rewrite <- Hsame. done.
  - apply Forall_app. split.
    + apply Forall_forall. intros g Hg.
      destruct Hinv as [_ _ _ _ Hch]. rewrite Hst in Hch.
      by apply (chain_link_visited below cur).
    + apply Forall_singleton. unfold visited. simpl. lia.
  - intros g Hg. apply elem_of_app in Hg as [Hg | Hg].
    + (* a deeper frame at the same wire would be a duplicate *)
      intros Hgx. destruct Hinv2 as [Hnd _ _ _ _]. simpl in Hnd.
      rewrite Hstack, fmap_app in Hnd.
      apply NoDup_app in Hnd as (_ & Hd & _).
      apply (Hd (dst_w g)); [by apply list_elem_of_fmap_2|].
      rewrite Hgx, <- Hf. apply list_elem_of_fmap_2.
      apply elem_of_reverse, elem_of_app. right. by left.
    + apply Hpre. by apply elem_of_reverse.
Qed.

(** The frames returned form a cycle: each is at an argument of the net of
    the next one, and the last at an argument of the net of the first. *)
Lemma body_return_feeds dest_nets st loop_info :
  stack_inv dest_nets st →
  body_spec dest_nets st (Return loop_info) →
  loop_info ≠ [] ∧
  Forall (frame_ok dest_nets) loop_info ∧ Forall visited loop_info ∧
  chain frame_feeds (loop_info ++ take 1 loop_info).
Proof.
  intros Hinv Hstep.
  destruct (body_return_run _ _ _ Hinv Hstep)
    as (next & stack & cw' & deeper & pre & f & Hscan & Hinv2 & Hnext & Hvis & Hstack & -> & Hf & _).
  destruct Hscan as (below & cur & n & Hst & Hstack' & HD & Harg).
  destruct Hinv2 as [_ _ _ Hfr Hch]. simpl in Hfr, Hch.
  rewrite Hstack in Hfr, Hch, Hvis.
  apply Forall_app in Hfr as [_ Hfr]. apply Forall_app in Hvis as [_ Hvis].
  apply chain_app_inv in Hch as [_ Hch].
  split; [by destruct pre|].
  rewrite Forall_reverse in Hfr, Hvis. split; [done|]. split; [done|].
  apply (proj1 (chain_reverse _ _)) in Hch.
  (* the top frame is the first frame returned *)
  set (cur2 := mkFrame (dst_w cur) (arg_num cur + 1) (Some n)) in *.
  assert (head (pre ++ [f]) = Some cur2) as Hhead.
  { assert (reverse (deeper ++ reverse (pre ++ [f])) = reverse (below ++ [cur2])) as Hrev
      by (by rewrite <- Hstack, Hstack').
    rewrite reverse_app, reverse_involutive, reverse_snoc in Hrev.
    destruct pre; simpl in *; by simplify_eq. }
  assert (take 1 (pre ++ [f]) = [cur2]) as ->.
  { destruct (pre ++ [f]); simpl in *; by simplify_eq. }
  apply chain_app; [|done|].
  - apply (chain_mono (flip link)); [|done].
    intros g h _ _ (Hv & m & Hm & Ha). exists m. split; [done|].
    by apply list_elem_of_lookup_2 in Ha.
  - intros g h Hg Hh. rewrite last_snoc in Hg. simpl in Hh. simplify_eq.
    exists n. split; [done|]. by apply list_elem_of_lookup_2 in Harg.
Qed.

Lemma frames_have_nets dest_nets logic_left loop_info :
  dest_nets_of logic_left dest_nets →
  Forall (frame_ok dest_nets) loop_info → Forall visited loop_info →
  ∃ ns, frame_nets loop_info ns ∧
        Forall (λ n, n ∈ logic_left ∧ op n ≠ "r"%char) ns.
Proof.
  intros HD. induction loop_info as [|f l IH]; intros Hfr Hv.
  - exists []. split; [constructor | done].
  - apply Forall_cons in Hfr as [Hf Hfr]. apply Forall_cons in Hv as [Hvf Hv].
    destruct (IH Hfr Hv) as (ns & Hns & Hall).
    destruct Hf as [Hf | (n & Hn & Hl & Hr & _)]; [done|].
    destruct (HD _ _ Hl) as [Hin Hd].
    exists (n :: ns). split; [by constructor | by constructor].
Qed.

Lemma frame_nets_chain l ns :
  frame_nets l ns → chain frame_feeds l → chain feeds ns.
Proof.
  induction 1 as [|f n l ns [Hn Hd] Hrest IH]; [done|].
  rewrite !chain_cons. intros [Hhead Hc]. split; [|by apply IH].
  intros m Hm. destruct Hrest as [|h m' l ns [Hm' Hd'] Hrest]; simplify_eq/=.
  destruct (Hhead h eq_refl) as (m'' & Hm'' & Ha). simplify_eq.
  by exists (dst_w f).
Qed.

(** The nets of the frames returned are a combinational loop of the nets
    [dest_nets] was built from. *)
Lemma body_return_loop dest_nets logic_left st loop_info :
  dest_nets_of logic_left dest_nets →
  stack_inv dest_nets st →
  body_spec dest_nets st (Return loop_info) →
  loop_info ≠ [] ∧
  ∃ ns, frame_nets loop_info ns ∧ ns ≠ [] ∧
        Forall (λ n, n ∈ logic_left ∧ op n ≠ "r"%char) ns ∧
        chain feeds (ns ++ take 1 ns).
Proof.
  intros HD Hinv Hstep.
  destruct (body_return_feeds _ _ _ Hinv Hstep) as (Hne & Hfr & Hv & Hch).
  split; [done|].
  destruct (frames_have_nets _ _ _ HD Hfr Hv) as (ns & Hns & Hall).
  exists ns. split; [done|]. split.
  { intros ->. apply Forall2_nil_inv_r in Hns. done. }
  split; [done|].
  apply (frame_nets_chain (loop_info ++ take 1 loop_info)); [|done].
  apply Forall2_app; [done|]. by apply Forall2_take.
Qed.

(** *** Termination of the search *)

Lemma total_weight_app l1 l2 :
  total_weight (l1 ++ l2) = total_weight l1 + total_weight l2.
Proof. induction l1 as [|f l1 IH]; simpl; [done|]. rewrite IH. lia. Qed.

Lemma weight_unvisited f : arg_num f = -1 → weight f = 1.
Proof.
  intros Hf. unfold weight. destruct (net f); [|done].
  destruct (decide (visited f)) as [Hv|]; [by destruct Hv | done].
Qed.

Lemma weight_visited f n :
  net f = Some n → arg_num f ≠ -1 →
  weight f = 2 * (Z.of_nat (length (args n)) - arg_num f).
Proof.
  intros Hn Hf. unfold weight. rewrite Hn.
  destruct (decide (visited f)) as [|Hv]; [done | by destruct Hv].
Qed.

Lemma weight_nonneg dest_nets f : frame_ok dest_nets f → 0 <= weight f.
Proof.
  intros [Hf | (n & Hn & _ & _ & Hk)].
  - rewrite weight_unvisited by done. lia.
  - rewrite (weight_visited f n) by (done || lia). lia.
Qed.

Lemma total_weight_nonneg dest_nets stack :
  Forall (frame_ok dest_nets) stack → 0 <= total_weight stack.
Proof.
  induction 1 as [|f l Hf Hl IH]; simpl; [done|].
  pose proof (weight_nonneg _ _ Hf). lia.
Qed.

Lemma visited_wires_snoc (below : list _FilteringState) cur_item :
  list_to_set (C := gset WireVector) (dst_w <$> filter visited (below ++ [cur_item])) =
  list_to_set (dst_w <$> filter visited below) ∪
    (if decide (visited cur_item) then {[dst_w cur_item]} else ∅).
Proof.
  rewrite filter_app, fmap_app, list_to_set_app_L. f_equal.
  rewrite filter_cons, filter_nil.
  destruct (decide (visited cur_item)); simpl; set_solver.
Qed.

Lemma visited_wires_on_stack (stack : list _FilteringState) x :
  x ∈ list_to_set (C := gset WireVector) (dst_w <$> filter visited stack) →
  x ∈ dst_w <$> stack.
Proof.
  rewrite elem_of_list_to_set. intros (f & -> & Hf)%list_elem_of_fmap.
  apply list_elem_of_filter in Hf as [_ Hf]. by apply list_elem_of_fmap_2.
Qed.

Lemma measure_nonneg K dest_nets st :
  0 <= K → stack_inv dest_nets st → 0 <= measure K st.
Proof.
  intros HK [_ _ _ Hfr _]. unfold measure.
  pose proof (total_weight_nonneg _ _ Hfr). nia.
Qed.

Section Measure.

Variable dest_nets : gmap WireVector LogicNet.
Variable K : Z.
Hypothesis K_nonneg : 0 <= K.
Hypothesis K_bound : ∀ x n, dest_nets !! x = Some n → Z.of_nat (length (args n)) <= K.

(** Popping a frame that was not visited. *)
Lemma measure_pop_unvisited st below cur_item current' :
  checking_stack st = below ++ [cur_item] →
  arg_num cur_item = -1 →
  measure K (mkState (wires_left st ∖ {[dst_w cur_item]}) current' below)
    < measure K st.
Proof.
  intros Hst Hnew. unfold measure, unvisited_left. simpl.
  rewrite Hst, visited_wires_snoc, total_weight_app. simpl.
  rewrite weight_unvisited by done.
  destruct (decide (visited cur_item)) as [Hv|_]; [by destruct Hv|].
  set (V := list_to_set (dst_w <$> filter visited below) : gset WireVector).
  assert (size ((wires_left st ∖ {[dst_w cur_item]}) ∖ V) ≤ size (wires_left st ∖ (V ∪ ∅)))%nat
    by (apply subseteq_size; set_solver).
  nia.
Qed.

(** Popping a visited frame whose last argument was followed. *)
Lemma measure_pop_visited st below cur_item current' n :
  checking_stack st = below ++ [cur_item] →
  arg_num cur_item ≠ -1 →
  net cur_item = Some n →
  arg_num cur_item + 1 = Z.of_nat (length (args n)) →
  measure K (mkState (wires_left st ∖ {[dst_w cur_item]}) current' below)
    < measure K st.
Proof.
  intros Hst Hseen Hn Hlen. unfold measure, unvisited_left. simpl.
  rewrite Hst, visited_wires_snoc, total_weight_app. simpl.
  rewrite (weight_visited _ n) by done.
  destruct (decide (visited cur_item)) as [_|Hv]; [|by destruct Hv].
  set (V := list_to_set (dst_w <$> filter visited below) : gset WireVector).
  replace ((wires_left st ∖ {[dst_w cur_item]}) ∖ V)
    with (wires_left st ∖ (V ∪ {[dst_w cur_item]})) by set_solver.
  lia.
Qed.

Lemma measure_step st st' :
  stack_inv dest_nets st →
  body_spec dest_nets st (Continue st') →
  measure K st' < measure K st.
Proof.
  intros Hinv Hstep. inversion Hstep as
    [below cur Hst Hnew Hwhy | | | below cur cur' cw' n Hst Hent Hnet Hlen
     | | below cur cur' cw' n next Hst Hent Hnet Hlen Harg Hfresh | ]; subst.
  - by apply measure_pop_unvisited.
  - destruct Hent as [(Hnew & _ & _ & m & _ & _ & ->) | (Hseen & -> & _)].
    + by apply measure_pop_unvisited.
    + by apply (measure_pop_visited st below cur _ n).
  - destruct (entered_facts _ _ _ _ _ _ Hinv Hst Hent) as (_ & _ & _ & _ & Hn).
    destruct (Hn n Hnet) as (HD & Hr & Hk).
    destruct Hinv as [Hnd _ _ _ _]. rewrite Hst in Hnd.
    destruct (nodup_below _ _ Hnd) as [_ Hfresh'].
    set (cur2 := mkFrame (dst_w cur) (arg_num cur' + 1) (Some n)).
    unfold measure, unvisited_left. simpl.
    change (below ++ [cur2; new_FilteringState next])
      with (below ++ [cur2] ++ [new_FilteringState next]).
    rewrite Hst, app_assoc, !visited_wires_snoc, !total_weight_app. simpl.
    rewrite (weight_visited cur2 n) by (simpl; (done || lia)). simpl.
    destruct (decide (visited cur2)) as [_|Hv]; [|destruct Hv; unfold visited; simpl; lia].
    destruct (decide (visited (new_FilteringState next))) as [Hv|_]; [by destruct Hv|].
    set (V := list_to_set (dst_w <$> filter visited below) : gset WireVector).
    rewrite (weight_unvisited (new_FilteringState next)) by done.
    destruct Hent as [(Hnew & Hin & _ & m & _ & _ & ->) | (Hseen & -> & _)].
    + (* first visit: the wire of the frame is counted no more *)
      destruct (decide (visited cur)) as [Hv|_]; [by destruct Hv|].
      simpl in *. simplify_eq.
      assert (dst_w cur ∉ V) as HV.
      { intros Hin'. by apply visited_wires_on_stack in Hin'. }
      replace (wires_left st ∖ (V ∪ {[dst_w cur]} ∪ ∅))
        with ((wires_left st ∖ (V ∪ ∅)) ∖ {[dst_w cur]}) by set_solver.
      rewrite size_difference by set_solver. rewrite size_singleton.
      assert (1 ≤ size (wires_left st ∖ (V ∪ ∅)))%nat.
      { rewrite <- (size_singleton (C := gset WireVector) (dst_w cur)).
        apply subseteq_size. set_solver. }
      pose proof (K_bound _ _ HD). rewrite (weight_unvisited cur) by done.
      rewrite Nat2Z.inj_sub by done. nia.
    + rewrite (weight_visited cur n) by done.
      destruct (decide (visited cur)) as [_|Hv]; [|by destruct Hv].
      replace (wires_left st ∖ (V ∪ {[dst_w cur]} ∪ ∅))
        with (wires_left st ∖ (V ∪ {[dst_w cur]})) by set_solver.
      lia.
  - match goal with
    | H : match ?x with _ => _ end = Continue _ |- _ => destruct x; discriminate
    end.
Qed.

Lemma search_loop_terminates fuel : ∀ st,
  stack_inv dest_nets st →
  measure K st < Z.of_nat fuel →
  is_Some (search_loop fuel dest_nets st).
Proof.
  induction fuel as [|fuel IH]; intros st Hinv Hm.
  - pose proof (measure_nonneg K _ _ K_nonneg Hinv). lia.
  - simpl. destruct (checking_stack st) as [|f stack] eqn:Hst; [done|].
    assert (checking_stack st ≠ []) as Hne by (by rewrite Hst).
    pose proof (loop_body_spec dest_nets st Hne) as Hspec.
    destruct (loop_body dest_nets st) as [st'| |]; [|done..].
    apply IH; [by apply (stack_inv_step dest_nets st)|].
    pose proof (measure_step st st' Hinv Hspec). lia.
Qed.

End Measure.

Lemma search_loop_mono fuel : ∀ fuel' dest_nets st r,
  search_loop fuel dest_nets st = Some r → (fuel ≤ fuel')%nat →
  search_loop fuel' dest_nets st = Some r.
Proof.
  induction fuel as [|fuel IH]; intros fuel' D st r Hs Hle; [done|].
  destruct fuel' as [|fuel']; [lia|]. simpl in *.
  destruct (checking_stack st); [done|].
  destruct (loop_body D st); [|done..]. apply IH; [done | lia].
Qed.

(** ** [find_loop] as a whole *)

Lemma max_args_bound nets n : n ∈ nets → (length (args n) ≤ max_args nets)%nat.
Proof.
  induction nets as [|m nets IH]; intros Hn; [by apply elem_of_nil in Hn|].
  simpl. apply elem_of_cons in Hn as [-> | Hn]; [lia|].
  specialize (IH Hn). lia.
Qed.

Lemma inner_fold_lookup (m : gmap WireVector LogicNet) n ds x :
  foldl (λ m' dest_w, <[dest_w := n]> m') m ds !! x =
    if decide (x ∈ ds) then Some n else m !! x.
Proof.
  revert m. induction ds as [|d ds IH]; intros m; simpl.
  - destruct (decide (x ∈ [])) as [Hx|]; [by apply elem_of_nil in Hx | done].
  - rewrite IH. destruct (decide (x ∈ ds)) as [Hx | Hx].
    + rewrite decide_True; [done | by right].
    + destruct (decide (d = x)) as [-> | Hne].
      * rewrite lookup_insert_eq. rewrite decide_True; [done | by left].
      * rewrite lookup_insert_ne by done.
        rewrite decide_False; [done|]. intros [?|?]%elem_of_cons; done.
Qed.

Lemma build_fold_of all nets : ∀ (m : gmap WireVector LogicNet),
  (∀ n, n ∈ nets → n ∈ all) →
  dest_nets_of all m →
  dest_nets_of all
    (foldl (λ m net_, foldl (λ m' dest_w, <[dest_w := net_]> m') m (dests net_)) m nets).
Proof.
  induction nets as [|n0 nets IH]; intros m Hall Hm; simpl; [done|].
  apply IH; [intros; apply Hall; by right|].
  intros x n. rewrite inner_fold_lookup.
  destruct (decide (x ∈ dests n0)) as [Hx|Hx].
  - intros [= <-]. split; [apply Hall; by left | done].
  - apply Hm.
Qed.

Lemma build_dest_nets_of logic_left : dest_nets_of logic_left (build_dest_nets logic_left).
Proof.
  apply build_fold_of; [done|]. intros x n Hx. by rewrite lookup_empty in Hx.
Qed.

Lemma build_fold_defined nets : ∀ (m : gmap WireVector LogicNet) x,
  is_Some (m !! x) ∨ (∃ n, n ∈ nets ∧ x ∈ dests n) →
  is_Some (foldl (λ m net_, foldl (λ m' dest_w, <[dest_w := net_]> m') m (dests net_))
                 m nets !! x).
Proof.
  induction nets as [|n0 nets IH]; intros m x Hx; simpl.
  - destruct Hx as [Hx | (n & Hn & _)]; [done | by apply elem_of_nil in Hn].
  - apply IH. rewrite inner_fold_lookup.
    destruct (decide (x ∈ dests n0)) as [Hd|Hd]; [by left|].
    destruct Hx as [Hx | (n & Hn & Hxn)]; [by left|].
    apply elem_of_cons in Hn as [-> | Hn]; [done|]. right. by exists n.
Qed.

Lemma build_dest_nets_defined logic_left x n :
  n ∈ logic_left → x ∈ dests n → is_Some (build_dest_nets logic_left !! x).
Proof. intros Hn Hx. apply build_fold_defined. right. by exists n. Qed.

Lemma check_for_loop_inv fuel block r :
  _check_for_loop fuel block = Some r →
  ∃ ll wl,
    prune_loop fuel (length (logic block) + 1) (logic block)
               (wirevector_subset_exclude block) = Some (ll, wl) ∧
    r = if decide (0 = length ll)%nat then None else Some (wl, ll).
Proof.
  unfold _check_for_loop.
  destruct (prune_loop _ _ _ _) as [[ll wl]|]; [|done].
  intros Hr. exists ll, wl. split; [done|].
  destruct (decide _); by simplify_eq.
Qed.

Lemma check_for_loop_total block :
  ∃ r, ∀ fuel, (length (logic block) + 2 ≤ fuel)%nat → _check_for_loop fuel block = Some r.
Proof.
  destruct (prune_loop_terminates (length (logic block) + 2) (length (logic block) + 1)
              (logic block) (wirevector_subset_exclude block)) as [[ll wl] Hp]; [lia|].
  exists (if decide (0 = length ll)%nat then None else Some (wl, ll)).
  intros fuel Hfuel. unfold _check_for_loop.
  rewrite (prune_loop_mono _ fuel _ _ _ _ Hp Hfuel).
  by destruct (decide _).
Qed.

Lemma initial_measure K wl x :
  measure K (initial_state wl x) = Z.of_nat (size wl) * (2 * K + 1) + 1.
Proof.
  unfold measure, unvisited_left. simpl.
  replace (wl ∖ ∅) with wl by set_solver.
  rewrite weight_unvisited by done. lia.
Qed.

(** The search on what the pruning of a block left terminates within
    [enough_fuel]. *)
Lemma search_after_prune_total block fuel0 ll wl x :
  prune_loop fuel0 (length (logic block) + 1) (logic block)
             (wirevector_subset_exclude block) = Some (ll, wl) →
  ∃ r, ∀ fuel, (enough_fuel block ≤ fuel)%nat →
    search_loop fuel (build_dest_nets ll) (initial_state wl x) = Some r.
Proof.
  intros Hp. destruct (prune_loop_subset _ _ _ _ _ _ Hp) as [Hll Hwl].
  set (K := Z.of_nat (max_args (logic block))).
  destruct (search_loop_terminates (build_dest_nets ll) K ltac:(lia)) with
    (fuel := enough_fuel block) (st := initial_state wl x) as [r Hr].
  - intros y n Hy. destruct (build_dest_nets_of ll y n Hy) as [Hn _].
    pose proof (max_args_bound _ _ (Hll n Hn)). unfold K. lia.
  - apply stack_inv_initial.
  - rewrite initial_measure. unfold enough_fuel, K.
    pose proof (subseteq_size _ _ Hwl). nia.
  - exists r. intros fuel Hfuel. by apply (search_loop_mono (enough_fuel block)).
Qed.

Section Total.

Variable sanity_check : Block → bool.

Lemma find_loop_total block rnd :
  ∃ r, ∀ fuel, (enough_fuel block ≤ fuel)%nat →
    find_loop sanity_check fuel rnd block = Some r.
Proof.
  unfold find_loop. destruct (sanity_check block); [|by eexists].
  destruct (check_for_loop_total block) as [r1 Hr1].
  assert (∀ fuel, (enough_fuel block ≤ fuel)%nat → _check_for_loop fuel block = Some r1)
    as Hc by (intros fuel Hfuel; apply Hr1; unfold enough_fuel in Hfuel; lia).
  destruct r1 as [[wl ll]|].
  - destruct (check_for_loop_inv _ _ _ (Hc _ (le_n _))) as (ll' & wl' & Hp & Hr).
    destruct (decide (0 = length ll')%nat); [done|]. simplify_eq.
    destruct (random_sample rnd wl') as [x|] eqn:Hs.
    + destruct (search_after_prune_total block _ ll' wl' x Hp) as [r Hr].
      exists r. intros fuel Hfuel. rewrite (Hc fuel Hfuel), Hs. by apply Hr.
    + exists (Raised ValueError). intros fuel Hfuel. by rewrite (Hc fuel Hfuel), Hs.
  - exists ReturnNone. intros fuel Hfuel. by rewrite (Hc fuel Hfuel).
Qed.

End Total.

(** C8: for every block the loop of [_check_for_loop] and the loop of
    [find_loop] terminate: with the fuel [enough_fuel] computes from the block,
    or more, each of the two functions returns its result or raises, and
    the outcome does not depend on the fuel. *)
Theorem pruning_and_search_terminate (sanity_check : Block → bool) (block : Block)
    (rnd : nat) :
  (∃ r, ∀ fuel, (enough_fuel block ≤ fuel)%nat → _check_for_loop fuel block = Some r) ∧
  (∃ r, ∀ fuel, (enough_fuel block ≤ fuel)%nat →
     find_loop sanity_check fuel rnd block = Some r).
Proof.
  split; [|apply find_loop_total].
  destruct (check_for_loop_total block) as [r Hr].
  exists r. intros fuel Hfuel. apply Hr. unfold enough_fuel in Hfuel. lia.
Qed.

(** The outcome of the loop is the outcome of the iteration of a state it
    reaches. *)
Lemma search_loop_reach fuel : ∀ dest_nets st0 st r,
  reachable dest_nets st0 st →
  search_loop fuel dest_nets st = Some r →
  ∃ st', reachable dest_nets st0 st' ∧
    ((checking_stack st' = [] ∧ r = Raised error_in_detecting) ∨
     (checking_stack st' ≠ [] ∧
      ((∃ l, loop_body dest_nets st' = Return l ∧ r = ReturnLoop l) ∨
       (∃ e, loop_body dest_nets st' = Raise e ∧ r = Raised e)))).
Proof.
  induction fuel as [|fuel IH]; intros D st0 st r Hr Hs; [done|].
  simpl in Hs. destruct (checking_stack st) as [|f stack] eqn:Hst.
  - simplify_eq. exists st. split; [done|]. by left.
  - assert (checking_stack st ≠ []) as Hne by (by rewrite Hst).
    destruct (loop_body D st) as [st'|l|e] eqn:Hb.
    + apply (IH D st0 st'); [|done]. by apply (reachable_step D st0 st).
    + simplify_eq. exists st. split; [done|]. right. split; [done|]. left. by exists l.
    + simplify_eq. exists st. split; [done|]. right. split; [done|]. right. by exists e.
Qed.

(** C10: the branch of [find_loop] that raises "Shouldn't get here" is
    never taken: in every state the search reaches, a wire of
    [current_wires] is the [dst_w] of a frame of [checking_stack], so the scan
    for the repeated wire finds its frame; no call of [find_loop] raises that
    error. *)
Theorem fallback_unreachable :
  (∀ dest_nets wl x st,
      reachable dest_nets (initial_state wl x) st →
      (∀ y, y ∈ current_wires st → ∃ f, f ∈ checking_stack st ∧ dst_w f = y) ∧
      (checking_stack st ≠ [] → loop_body dest_nets st ≠ Raise shouldnt_get_here)) ∧
  (∀ sanity_check fuel rnd block,
      find_loop sanity_check fuel rnd block ≠ Some (Raised shouldnt_get_here)).
Proof.
  assert (∀ dest_nets wl x st,
      reachable dest_nets (initial_state wl x) st →
      (∀ y, y ∈ current_wires st → ∃ f, f ∈ checking_stack st ∧ dst_w f = y) ∧
      (checking_stack st ≠ [] → loop_body dest_nets st ≠ Raise shouldnt_get_here))
    as Hreach.
  { intros D wl x st Hr.
    pose proof (reachable_stack_inv D _ st (stack_inv_initial D wl x) Hr) as Hinv.
    split.
    - intros y Hy. destruct Hinv as [_ Hsub _ _ _].
      apply Hsub, list_elem_of_fmap in Hy as (f & -> & Hf). by exists f.
    - intros Hne. apply (body_scan_finds D st); [done|]. by apply loop_body_spec. }
  split; [exact Hreach|].
  intros sanity_check fuel rnd block. unfold find_loop.
  destruct (sanity_check block); [|done].
  destruct (_check_for_loop fuel block) as [[[wl ll]|]|]; [|done..].
  destruct (random_sample rnd wl) as [x|]; [|done].
  intros Hs.
  destruct (search_loop_reach _ _ _ _ _ (reachable_start _ _) Hs)
    as (st' & Hr & [[_ [=]] | [Hne [(l & _ & [=]) | (e & He & [= <-])]]]).
  by apply (proj2 (Hreach _ _ _ _ Hr) Hne).
Qed.

(** C6, as the specification states it, fails: on two gates that feed each
    other the stack holds the frame of the wire the search started from and,
    above it, the frame of the other wire, and the list returned holds them
    the other way round, so that it is no run of the stack in the order of
    the stack. *)
Lemma loop_not_in_stack_order :
  ∃ st loop_info next_wire stack,
    reachable two_gate_nets (initial_state two_gate_wires (wire 2)) st ∧
    loop_body two_gate_nets st = Return loop_info ∧
    stack_at_scan two_gate_nets st next_wire stack ∧
    length stack = 2%nat ∧ loop_info = reverse stack ∧
    ¬ ∃ deeper, stack = deeper ++ loop_info.
Proof.
  destruct (iterate_body 5 two_gate_nets (initial_state two_gate_wires (wire 2)))
    as [st|] eqn:Hst; [|by vm_compute in Hst].
  exists st.
  assert (reachable two_gate_nets (initial_state two_gate_wires (wire 2)) st) as Hr
    by (by apply (iterate_body_reachable 5 _ _ _ _ (reachable_start _ _))).
  vm_compute in Hst. injection Hst as <-.
  eexists _, (wire 2), _. split; [exact Hr|].
  split; [vm_compute; reflexivity|]. split.
  { eexists [_], _, _. split; [reflexivity|]. split; [reflexivity|].
    split; vm_compute; reflexivity. }
  split; [reflexivity|]. split; [reflexivity|].
  intros [deeper Hd]. destruct deeper as [|f [|g deeper]]; [discriminate Hd | |].
  - discriminate Hd.
  - apply (f_equal length) in Hd. simpl in Hd. rewrite length_app in Hd.
    simpl in Hd. lia.
Qed.

(** C6, amended: when [find_loop] finds a cycle, the argument wire being in
    [current_wires], the list it returns holds the frames of the stack from
    the top down to the frame at that wire, the only frame at it: the frames
    of that run in the reverse of the order of the stack, top first and
    deepest last. *)
Theorem loop_frames_from_top dest_nets wl x st loop_info :
  reachable dest_nets (initial_state wl x) st →
  checking_stack st ≠ [] →
  loop_body dest_nets st = Return loop_info →
  ∃ next_wire stack deeper pre f,
    stack_at_scan dest_nets st next_wire stack ∧
    stack = deeper ++ reverse loop_info ∧
    loop_info = pre ++ [f] ∧
    dst_w f = next_wire ∧
    ∀ g, g ∈ deeper ++ reverse pre → dst_w g ≠ next_wire.
Proof.
  intros Hr Hne Hb.
  pose proof (reachable_stack_inv _ _ st (stack_inv_initial dest_nets wl x) Hr) as Hinv.
  pose proof (loop_body_spec dest_nets st Hne) as Hspec. rewrite Hb in Hspec.
  destruct (body_return_run _ _ _ Hinv Hspec)
    as (next & stack & cw' & deeper & pre & f & H1 & _ & _ & _ & H2 & H3 & H4 & H5).
  by exists next, stack, deeper, pre, f.
Qed.

(** ** The search on closed wires *)

Lemma entered_net dest_nets st below cur_item cur_item' current' :
  stack_inv dest_nets st →
  checking_stack st = below ++ [cur_item] →
  entered dest_nets st cur_item cur_item' current' →
  is_Some (net cur_item') ∧ arg_num cur_item' = arg_num cur_item.
Proof.
  intros [_ _ _ Hfr _] Hst [(Hnew & _ & _ & n & _ & _ & ->) | (Hseen & -> & _)].
  - by split.
  - split; [|done]. rewrite Hst in Hfr. apply Forall_app in Hfr as [_ Hfr].
    apply Forall_singleton in Hfr as [? | (n & -> & _)]; done.
Qed.

Lemma live_inv_initial wl x : x ∈ wl → live_inv wl (initial_state wl x).
Proof.
  intros Hx. split; simpl.
  - done.
  - by eexists _, _.
  - intros f ->%list_elem_of_singleton Hv. by destruct Hv.
  - intros f n j a ->%list_elem_of_singleton Hv. by destruct Hv.
  - intros f n a [= <-] Hv. by destruct Hv.
Qed.

(** The frame below the top is at the wire of the top frame. *)
Lemma live_pop dest_nets W0 st below cur_item current' :
  stack_inv dest_nets st →
  live_inv W0 st →
  checking_stack st = below ++ [cur_item] →
  dst_w cur_item ∉ W0 →
  live_inv W0 (mkState (wires_left st ∖ {[dst_w cur_item]}) current' below).
Proof.
  intros [_ _ _ _ Hch] [Hw Hbot Hvis Hpast Htop] Hst Hout. rewrite Hst in *.
  split; simpl.
  - rewrite Hw. set_solver.
  - destruct Hbot as (f0 & rest & Hf0 & Hin).
    destruct below as [|g below]; simpl in Hf0; simplify_eq; [done|].
    by eexists _, _.
  - intros f Hf. apply Hvis, elem_of_app. by left.
  - intros f n j a Hf. apply Hpast, elem_of_app. by left.
  - intros g n a Hg Hv Hn Ha.
    apply chain_snoc in Hch as [_ Hlast].
    destruct (Hlast g Hg) as (_ & m & Hm & Ha'). by simplify_eq.
Qed.

Lemma live_step dest_nets W0 st r :
  closed dest_nets W0 →
  stack_inv dest_nets st →
  live_inv W0 st →
  body_spec dest_nets st r →
  (∃ st', r = Continue st' ∧ live_inv W0 st') ∨ (∃ loop_info, r = Return loop_info).
Proof.
  intros W0_closed Hinv Hlive Hstep.
  pose proof (body_scan_finds _ _ _ Hinv Hstep) as Hfound.
  inversion Hstep as
    [ below cur Hst Hnew Hwhy
    | below cur Hst Hnew Hin HD
    | below cur cur' cw' Hst Hent Hnet
    | below cur cur' cw' n Hst Hent Hnet Hlen
    | below cur cur' cw' n Hst Hent Hnet Hlen Harg
    | below cur cur' cw' n next Hst Hent Hnet Hlen Harg Hfresh
    | below cur cur' cw' n next Hst Hent Hnet Hlen Harg Hold ]; subst;
    pose proof Hlive as [Hw Hbot Hvis Hpast Htop].
  - (* a dead end: the wire was not left *)
    left. eexists. split; [done|]. apply (live_pop dest_nets); [done..|].
    destruct Hwhy as [Hout | (n & Hn & Hr)]; [by rewrite <- Hw|].
    intros Hin. destruct (W0_closed _ Hin) as (n' & Hn' & Hr' & _). by simplify_eq.
  - (* no KeyError: a wire left has its net *)
    rewrite Hw in Hin. destruct (W0_closed _ Hin) as (n' & Hn' & _). by simplify_eq.
  - destruct (entered_net _ _ _ _ _ _ Hinv Hst Hent) as [[n Hn] _]. by simplify_eq.
  - (* the arguments of a wire left are never exhausted *)
    exfalso.
    destruct (entered_facts _ _ _ _ _ _ Hinv Hst Hent) as (_ & _ & _ & _ & Hn).
    destruct (Hn n Hnet) as (HD & _ & Hk).
    destruct (entered_net _ _ _ _ _ _ Hinv Hst Hent) as [_ Hsame].
    assert (dst_w cur ∈ W0) as Hin.
    { destruct Hent as [(_ & Hin & _) | (Hseen & _)]; [by rewrite <- Hw|].
      apply Hvis; [|done]. rewrite Hst. apply elem_of_app. right. by left. }
    destruct (W0_closed _ Hin) as (n' & Hn' & _ & a & Ha & HaW). simplify_eq.
    apply list_elem_of_lookup in Ha as [j Hj].
    pose proof (lookup_lt_Some _ _ _ Hj) as Hlt.
    destruct Hent as [(Hnew & _ & _ & m & _ & _ & ->) | (Hseen & -> & _)];
      [simpl in *; lia|].
    assert (cur ∈ checking_stack st) as Hcur
      by (rewrite Hst; apply elem_of_app; right; by left).
    destruct (decide (Z.of_nat j < arg_num cur)) as [Hlow | Hhigh].
    + by apply (Hpast cur n j a).
    + assert (Z.to_nat (arg_num cur) = j) as Hj' by lia.
      apply (Htop cur n a); [by rewrite Hst, last_snoc | done | done | by rewrite Hj' | done].
  - (* no IndexError *)
    exfalso.
    destruct (entered_facts _ _ _ _ _ _ Hinv Hst Hent) as (_ & _ & _ & _ & Hn).
    destruct (Hn n Hnet) as (_ & _ & Hk).
    apply lookup_ge_None in Harg. lia.
  - (* a frame is pushed *)
    left. eexists. split; [done|].
    destruct (entered_facts _ _ _ _ _ _ Hinv Hst Hent) as (_ & _ & _ & _ & Hn).
    destruct (Hn n Hnet) as (HD & _ & Hk).
    destruct (entered_net _ _ _ _ _ _ Hinv Hst Hent) as [_ Hsame].
    assert (cur ∈ checking_stack st) as Hcur
      by (rewrite Hst; apply elem_of_app; right; by left).
    assert (dst_w cur ∈ W0) as Hin.
    { destruct Hent as [(_ & Hin & _) | (Hseen & _)]; [by rewrite <- Hw|].
      by apply Hvis. }
    assert (∀ m, net cur = Some m → arg_num cur ≠ -1 → m = n) as Hsame_net.
    { intros m Hm Hseen.
      destruct Hent as [(Hnew & _) | (_ & -> & _)]; [done | by simplify_eq]. }
    set (cur2 := mkFrame (dst_w cur) (arg_num cur' + 1) (Some n)).
    split; simpl.
    + done.
    + destruct Hbot as (f0 & rest & Hf0 & Hf0in). rewrite Hst in Hf0.
      destruct below as [|g below]; simpl in Hf0; simplify_eq; by eexists _, _.
    + intros f Hf Hv. apply elem_of_app in Hf as [Hf | Hf].
      * apply Hvis; [|done]. rewrite Hst. apply elem_of_app. by left.
      * apply elem_of_cons in Hf as [-> | Hf]; [done|].
        apply list_elem_of_singleton in Hf as ->. by destruct Hv.
    + intros f m j a Hf Hv Hm Hj Ha. apply elem_of_app in Hf as [Hf | Hf].
      * apply (Hpast f m j a); try done. rewrite Hst. apply elem_of_app. by left.
      * apply elem_of_cons in Hf as [-> | Hf].
        -- simpl in *. simplify_eq.
           destruct (decide (arg_num cur = -1)) as [Hnew | Hseen]; [lia|].
           assert (net cur = Some m) as Hm.
           { destruct Hent as [(Hnew & _) | (_ & -> & _)]; done. }
           destruct (decide (Z.of_nat j < arg_num cur)) as [Hlow | Hhigh].
           ++ by apply (Hpast cur m j a).
           ++ assert (Z.to_nat (arg_num cur) = j) as Hj' by lia.
              apply (Htop cur m a); [by rewrite Hst, last_snoc | done | done |].
              by rewrite Hj'.
        -- apply list_elem_of_singleton in Hf as ->. by destruct Hv.
    + intros f m a Hf Hv. 
      change (below ++ [cur2; new_FilteringState next])
        with (below ++ [cur2] ++ [new_FilteringState next]) in Hf.
      rewrite app_assoc, last_snoc in Hf. injection Hf as <-. by destruct Hv.
  - (* the scan returns *)
    right. destruct (scan_loop next _) as [l|]; [by exists l | done].
Qed.

Lemma live_reachable dest_nets W0 st0 st :
  closed dest_nets W0 →
  stack_inv dest_nets st0 → live_inv W0 st0 →
  reachable dest_nets st0 st → live_inv W0 st.
Proof.
  intros Hclosed Hinv0 Hlive0 Hr. induction Hr as [|st st' Hr IH Hne Hb]; [done|].
  pose proof (reachable_stack_inv _ _ _ Hinv0 Hr) as Hinv.
  destruct (live_step _ _ st (Continue st') Hclosed Hinv IH)
    as [(st'' & [= <-] & Hl) | (l & [=])]; [|done].
  rewrite <- Hb. by apply loop_body_spec.
Qed.

(** On closed wires the search returns a loop when it ends. *)
Lemma search_live dest_nets W0 fuel st0 r :
  closed dest_nets W0 →
  stack_inv dest_nets st0 → live_inv W0 st0 →
  search_loop fuel dest_nets st0 = Some r →
  ∃ st loop_info,
    reachable dest_nets st0 st ∧ checking_stack st ≠ [] ∧
    loop_body dest_nets st = Return loop_info ∧ r = ReturnLoop loop_info.
Proof.
  intros Hclosed Hinv0 Hlive0 Hs.
  destruct (search_loop_reach _ _ _ _ _ (reachable_start _ _) Hs) as (st & Hr & Hcase).
  pose proof (live_reachable _ _ _ _ Hclosed Hinv0 Hlive0 Hr) as Hlive.
  pose proof (reachable_stack_inv _ _ _ Hinv0 Hr) as Hinv.
  destruct Hcase as [[Hnil _] | [Hne [(l & Hl & ->) | (e & He & ->)]]].
  - destruct Hlive as [_ (f & rest & Hst & _) _ _ _]. by rewrite Hst in Hnil.
  - by exists st, l.
  - pose proof (loop_body_spec dest_nets st Hne) as Hspec.
    destruct (live_step _ _ st _ Hclosed Hinv Hlive Hspec) as [(st' & Hc & _) | (l & Hc)];
      rewrite He in Hc; discriminate.
Qed.

(** ** Sane blocks *)

Lemma sane_dest block n x :
  sane block → n ∈ logic block → x ∈ dests n →
  dest_ok n x ∧ x ∈ wirevector_set block.
Proof.
  intros [Hnets _] Hn Hx. rewrite Forall_forall in Hnets.
  destruct (Hnets n Hn) as (Hd & _ & _). rewrite Forall_forall in Hd. by apply Hd.
Qed.

Lemma sane_arg block n x :
  sane block → n ∈ logic block → x ∈ args n →
  wclass x ≠ Output ∧ x ∈ wirevector_set block.
Proof.
  intros [Hnets _] Hn Hx. rewrite Forall_forall in Hnets.
  destruct (Hnets n Hn) as (_ & Ha & _). rewrite Forall_forall in Ha. by apply Ha.
Qed.

Lemma sane_unique block n m x :
  sane block → n ∈ logic block → m ∈ logic block →
  x ∈ dests n → x ∈ dests m → n = m.
Proof.
  intros [Hnets _] Hn Hm Hxn Hxm. rewrite Forall_forall in Hnets.
  destruct (Hnets n Hn) as (_ & _ & Hu). rewrite Forall_forall in Hu.
  specialize (Hu m Hm). rewrite Forall_forall in Hu. by apply (Hu x).
Qed.

Lemma sane_driven block x :
  sane block → x ∈ wirevector_set block → wclass x = Plain →
  ∃ n, n ∈ logic block ∧ x ∈ dests n.
Proof.
  intros [_ Hw] Hx Hp. specialize (Hw x Hx Hp).
  apply Exists_exists in Hw as (n & Hn & Hd). by exists n.
Qed.

Lemma elem_of_subset_exclude block x :
  x ∈ wirevector_subset_exclude block ↔ wclass x = Plain ∧ x ∈ wirevector_set block.
Proof.
  unfold wirevector_subset_exclude.
  apply (elem_of_filter (λ w, wclass w = Plain)).
Qed.

(** The wire between two nets of a loop is a plain wire of the block. *)
Lemma loop_wire_plain block m n x :
  sane block → m ∈ logic block → n ∈ logic block → op m ≠ "r"%char →
  x ∈ dests m → x ∈ args n →
  x ∈ wirevector_subset_exclude block.
Proof.
  intros Hs Hm Hn Hr Hd Ha.
  destruct (sane_dest _ _ _ Hs Hm Hd) as [(Hi & Hc & Hreg) Hin].
  destruct (sane_arg _ _ _ Hs Hn Ha) as [Ho _].
  apply elem_of_subset_exclude. split; [|done].
  destruct (wclass x); try done. by destruct Hr; apply Hreg.
Qed.

(** What the pruning of a sane block leaves is closed. *)
Lemma pruned_closed block fuel ll wl :
  sane block →
  prune_loop fuel (length (logic block) + 1) (logic block)
             (wirevector_subset_exclude block) = Some (ll, wl) →
  closed (build_dest_nets ll) wl.
Proof.
  intros Hs Hp.
  destruct (prune_loop_subset _ _ _ _ _ _ Hp) as [Hll Hwl].
  assert (fed ll wl) as Hfed.
  { apply (prune_loop_fixed fuel (length (logic block) + 1) (logic block)
             (wirevector_subset_exclude block)); [left; lia | done]. }
  assert (all_driven ll wl) as Hdr.
  { apply (prune_loop_driven fuel (length (logic block) + 1) (logic block)
             (wirevector_subset_exclude block)); [|done].
    intros y [Hy Hin]%elem_of_subset_exclude. by apply sane_driven. }
  intros x Hx.
  destruct (Hdr x Hx) as (n0 & Hn0 & Hx0).
  destruct (build_dest_nets_defined ll x n0 Hn0 Hx0) as [n Hn].
  destruct (build_dest_nets_of ll x n Hn) as [Hin Hd].
  exists n. split; [done|]. split; [|by apply Hfed].
  destruct (sane_dest _ _ _ Hs (Hll n Hin) Hd) as [(_ & _ & Hreg) _].
  intros Hr. apply Hreg in Hr.
  apply Hwl, elem_of_subset_exclude in Hx as [Hp' _]. congruence.
Qed.

(** A loop of a sane block survives the pruning. *)
Lemma loop_survives block fuel ns ll wl :
  sane block → comb_loop block ns →
  prune_loop fuel (length (logic block) + 1) (logic block)
             (wirevector_subset_exclude block) = Some (ll, wl) →
  ll ≠ [].
Proof.
  intros Hs (Hne & Hall & Hch) Hp. rewrite Forall_forall in Hall.
  destruct (prune_loop_keeps ns (logic block) fuel (length (logic block) + 1)
              (wirevector_subset_exclude block) ll wl) as [Hkept _].
  - intros n m x Hn Hm. apply (sane_unique block); [done..|]. by apply Hall.
  - intros n Hn. by apply Hall.
  - intros n Hn. destruct (cycle_predecessor feeds ns n Hch Hn) as (m & Hm & x & Hd & Ha).
    exists x. split; [done|]. split; [|by exists m].
    apply (loop_wire_plain block m n); try done; by apply Hall.
  - done.
  - destruct ns as [|n ns]; [done|]. intros ->.
    specialize (Hkept n ltac:(by left)). by apply elem_of_nil in Hkept.
Qed.

Lemma random_sample_elem rnd wires x : random_sample rnd wires = Some x → x ∈ wires.
Proof. intros Hx. apply list_elem_of_lookup_2 in Hx. by apply elem_of_elements in Hx. Qed.

Lemma random_sample_nonempty rnd (wires : gset WireVector) y :
  y ∈ wires → is_Some (random_sample rnd wires).
Proof.
  intros Hy. apply lookup_lt_is_Some. unfold size, set_size. simpl.
  assert (length (elements wires) ≠ 0)%nat.
  { apply elem_of_elements in Hy. destruct (elements wires); [by apply elem_of_nil in Hy|].
    done. }
  by apply Nat.mod_upper_bound.
Qed.

(** Every wire left can be the one the search starts from. *)
Lemma random_sample_any (wires : gset WireVector) x :
  x ∈ wires → ∃ rnd, random_sample rnd wires = Some x.
Proof.
  intros Hx. apply elem_of_elements, list_elem_of_lookup in Hx as [i Hi].
  exists i. unfold random_sample.
  pose proof (lookup_lt_Some _ _ _ Hi) as Hlt.
  replace (i mod size wires)%nat with i; [done|].
  symmetry. by apply Nat.mod_small.
Qed.

Section Correct.

Variable sanity_check : Block → bool.
Hypothesis sanity_check_sane : ∀ block, sanity_check block = true → sane block.

(** On a block that passed the sanity check and kept nets after the
    pruning, [find_loop] returns the frames of a combinational loop. *)
Lemma find_loop_after_prune block fuel rnd ll wl :
  sanity_check block = true →
  (enough_fuel block ≤ fuel)%nat →
  prune_loop fuel (length (logic block) + 1) (logic block)
             (wirevector_subset_exclude block) = Some (ll, wl) →
  ll ≠ [] →
  ∃ loop_info ns,
    find_loop sanity_check fuel rnd block = Some (ReturnLoop loop_info) ∧
    loop_info ≠ [] ∧ frame_nets loop_info ns ∧ comb_loop block ns.
Proof.
  intros Hsc Hfuel Hp Hne. pose proof (sanity_check_sane _ Hsc) as Hs.
  pose proof (pruned_closed _ _ _ _ Hs Hp) as Hclosed.
  destruct (prune_loop_subset _ _ _ _ _ _ Hp) as [Hll Hwl].
  assert (fed ll wl) as Hfed.
  { apply (prune_loop_fixed fuel (length (logic block) + 1) (logic block)
             (wirevector_subset_exclude block)); [left; lia | done]. }
  assert (∃ y, y ∈ wl) as [y Hy].
  { destruct ll as [|n ll]; [done|].
    destruct (Hfed n ltac:(by left)) as (a & _ & Ha). by exists a. }
  destruct (random_sample_nonempty rnd wl y Hy) as [x Hx].
  pose proof (random_sample_elem _ _ _ Hx) as Hxin.
  destruct (search_after_prune_total block fuel ll wl x Hp) as [r Hr].
  specialize (Hr fuel Hfuel).
  destruct (search_live _ wl _ _ _ Hclosed (stack_inv_initial _ wl x)
              (live_inv_initial wl x Hxin) Hr) as (st & l & Hreach & Hstne & Hb & ->).
  pose proof (reachable_stack_inv _ _ _ (stack_inv_initial _ wl x) Hreach) as Hinv.
  pose proof (loop_body_spec (build_dest_nets ll) st Hstne) as Hspec. rewrite Hb in Hspec.
  destruct (body_return_loop _ ll _ _ (build_dest_nets_of ll) Hinv Hspec)
    as (Hlne & ns & Hns & Hnsne & Hall & Hch).
  exists l, ns. split; [|split; [done|split; [done|]]].
  - unfold find_loop, _check_for_loop. rewrite Hsc, Hp.
    destruct (decide (0 = length ll)%nat) as [H0|_]; [by destruct ll|].
    by rewrite Hx.
  - split; [done|]. split; [|done].
    eapply Forall_impl; [exact Hall|]. intros n [Hn Hr']. split; [by apply Hll | done].
Qed.

(** C1, amended: on a block that passed the sanity check, [find_loop]
    returns None when the nets form no cycle that avoids the register nets
    (so it does when every feedback path goes through a register); and when
    they form such a cycle it returns, for every choice of the starting
    wire, a list of frames that is not empty and whose nets are such a
    cycle of the block: one loop, which need not be the cycle given. *)
Theorem find_loop_correct block fuel rnd :
  sanity_check block = true →
  (enough_fuel block ≤ fuel)%nat →
  ((∀ ns, ¬ comb_loop block ns) →
     find_loop sanity_check fuel rnd block = Some ReturnNone) ∧
  (∀ ns, comb_loop block ns →
     ∃ loop_info ns',
       find_loop sanity_check fuel rnd block = Some (ReturnLoop loop_info) ∧
       loop_info ≠ [] ∧ frame_nets loop_info ns' ∧ comb_loop block ns').
Proof.
  intros Hsc Hfuel. pose proof (sanity_check_sane _ Hsc) as Hs.
  destruct (prune_loop_terminates fuel (length (logic block) + 1) (logic block)
              (wirevector_subset_exclude block)) as [[ll wl] Hp].
  { left. unfold enough_fuel in Hfuel. lia. }
  split.
  - intros Hnone. destruct (decide (ll = [])) as [-> | Hne].
    + unfold find_loop, _check_for_loop. by rewrite Hsc, Hp.
    + destruct (find_loop_after_prune block fuel rnd ll wl Hsc Hfuel Hp Hne)
        as (l & ns & _ & _ & _ & Hloop).
      by destruct (Hnone ns).
  - intros ns Hloop. apply (find_loop_after_prune block fuel rnd ll wl); try done.
    by apply (loop_survives block fuel ns ll wl).
Qed.

End Correct.

Lemma sane_check_sane block : sane_check block = true → sane block.
Proof. unfold sane_check. apply bool_decide_eq_true_1. Qed.

Lemma two_gate_loop : comb_loop two_gate_block (logic two_gate_block).
Proof.
  split; [done|]. split.
  - repeat constructor; try done; set_solver.
  - simpl. repeat split.
    + exists (wire 1). set_solver.
    + exists (wire 2). set_solver.
Qed.

Lemma find_loop_correct_witness :
  ∃ loop_info ns,
    find_loop sane_check (enough_fuel two_gate_block) 0 two_gate_block =
      Some (ReturnLoop loop_info) ∧
    loop_info ≠ [] ∧ frame_nets loop_info ns ∧ comb_loop two_gate_block ns.
Proof.
  destruct (find_loop_correct sane_check sane_check_sane two_gate_block
              (enough_fuel two_gate_block) 0 eq_refl (le_n _)) as [_ Hloop].
  exact (Hloop _ two_gate_loop).
Defined.

(** C1, as the specification states it, fails: a block with two cycles has
    one of them returned; the nets of the other are not among the nets of
    the frames. *)
Lemma find_loop_misses_a_cycle :
  ∃ ns loop_info,
    sane_check two_loop_block = true ∧
    comb_loop two_loop_block ns ∧
    find_loop sane_check (enough_fuel two_loop_block) 0 two_loop_block =
      Some (ReturnLoop loop_info) ∧
    ¬ ∀ n, n ∈ ns → ∃ f, f ∈ loop_info ∧ net f = Some n.
Proof.
  exists [gate "&" (mkWire 0 Input) (wire 2) (wire 1);
          gate "|" (mkWire 0 Input) (wire 1) (wire 2)].
  eexists. split; [reflexivity|]. split; [|split; [vm_compute; reflexivity|]].
  - split; [done|]. split.
    + repeat constructor; try done; set_solver.
    + simpl. repeat split; [exists (wire 1) | exists (wire 2)]; set_solver.
  - intros Hall.
    destruct (Hall (gate "&" (mkWire 0 Input) (wire 2) (wire 1)) ltac:(by left))
      as (f & Hf & Hn).
    repeat (apply elem_of_cons in Hf as [-> | Hf]; [discriminate Hn|]).
    by apply elem_of_nil in Hf.
Qed.

(** The scenarios of the specification: a chain of gates and a feedback
    through a register have no loop, two gates that feed each other have
    one, with both nets. *)
Example find_loop_scenarios :
  find_loop sane_check (enough_fuel chain_block) 0 chain_block = Some ReturnNone ∧
  find_loop sane_check (enough_fuel register_block) 0 register_block = Some ReturnNone ∧
  ∀ rnd, ∃ loop_info,
    find_loop sane_check (enough_fuel two_gate_block) rnd two_gate_block =
      Some (ReturnLoop loop_info) ∧
    ∀ n, n ∈ logic two_gate_block → ∃ f, f ∈ loop_info ∧ net f = Some n.
Proof.
  split; [vm_compute; reflexivity|]. split; [vm_compute; reflexivity|].
  intros rnd.
  assert (find_loop sane_check (enough_fuel two_gate_block) rnd two_gate_block =
          find_loop sane_check (enough_fuel two_gate_block) (rnd mod 2) two_gate_block) as ->.
  { unfold find_loop, random_sample.
    destruct (sane_check two_gate_block); [|done].
    destruct (_check_for_loop _ _) as [[[wl ll]|]|] eqn:Hc; [|done..].
    vm_compute in Hc. injection Hc as <- <-.
    change (size _) with 2%nat. by rewrite Nat.Div0.mod_mod. }
  assert (rnd mod 2 = 0 ∨ rnd mod 2 = 1)%nat as [-> | ->]
    by (pose proof (Nat.mod_upper_bound rnd 2); lia).
  - eexists. split; [vm_compute; reflexivity|].
    intros n Hn. repeat (apply elem_of_cons in Hn as [-> | Hn]).
    + eexists. split; [by left | done].
    + eexists. split; [right; by left | done].
    + by apply elem_of_nil in Hn.
  - eexists. split; [vm_compute; reflexivity|].
    intros n Hn. repeat (apply elem_of_cons in Hn as [-> | Hn]).
    + eexists. split; [right; by left | done].
    + eexists. split; [by left | done].
    + by apply elem_of_nil in Hn.
Qed.

Lemma loop_frames_from_top_witness :
  ∃ next_wire stack deeper pre f,
    stack_at_scan two_gate_nets two_gate_scan next_wire stack ∧
    stack = deeper ++ reverse two_gate_found ∧
    two_gate_found = pre ++ [f] ∧
    dst_w f = next_wire ∧
    ∀ g, g ∈ deeper ++ reverse pre → dst_w g ≠ next_wire.
Proof.
  apply (loop_frames_from_top two_gate_nets two_gate_wires (wire 2)).
  - apply (iterate_body_reachable 5 _ _ _ _ (reachable_start _ _)).
    vm_compute. reflexivity.
  - vm_compute. discriminate.
  - vm_compute. reflexivity.
Defined.

End LoopFacts.

(** * Properties of the integer and bit-pattern helpers *)

Module HelperFacts.
Import Helper.

(** *** Arithmetic of the bit operations *)

Lemma shiftl_one (n : Z) : 0 <= n → Z.shiftl 1 n = 2 ^ n.
Proof. intros Hn. rewrite Z.shiftl_mul_pow2 by done. lia. Qed.

Lemma land_mask (x n : Z) : 0 <= n → Z.land x (2 ^ n - 1) = x mod 2 ^ n.
Proof.
  intros Hn. rewrite <- Z.land_ones by done.
  f_equal. rewrite Z.ones_equiv. lia.
Qed.

Lemma land_pow2 (x n : Z) :
  0 <= n → Z.land x (2 ^ n) = if Z.testbit x n then 2 ^ n else 0.
Proof.
  intros Hn. apply Z.bits_inj'. intros m Hm.
  rewrite Z.land_spec, Z.pow2_bits_eqb by done.
  destruct (Z.eqb_spec n m) as [->|Hne].
  - destruct (Z.testbit x m); simpl.
    + rewrite Z.pow2_bits_eqb, Z.eqb_refl; done.
    + by rewrite Z.bits_0.
  - rewrite andb_false_r. destruct (Z.testbit x n).
    + rewrite Z.pow2_bits_eqb by done. symmetry. by apply Z.eqb_neq.
    + by rewrite Z.bits_0.
Qed.

Lemma pow2_pos (n : Z) : 0 <= n → 0 < 2 ^ n.
Proof. intros. by apply Z.pow_pos_nonneg. Qed.

Lemma pow2_succ (n : Z) : 0 <= n → 2 ^ (n + 1) = 2 * 2 ^ n.
Proof. intros. rewrite Z.pow_add_r by lia. lia. Qed.

(** The bit of weight [2 ^ n] splits a number into three parts. *)
Lemma split_at_bit (x n : Z) :
  0 <= n →
  x = x mod 2 ^ n + (if Z.testbit x n then 2 ^ n else 0) + 2 ^ (n + 1) * (x / 2 ^ (n + 1)).
Proof.
  intros Hn. pose proof (pow2_pos n Hn) as Hp.
  pose proof (Z.testbit_spec' x n Hn) as Hb.
  rewrite pow2_succ by done.
  replace (2 * 2 ^ n) with (2 ^ n * 2) by lia.
  rewrite <- Z.div_div by lia.
  pose proof (Z.div_mod x (2 ^ n) ltac:(lia)) as H1.
  pose proof (Z.div_mod (x / 2 ^ n) 2 ltac:(lia)) as H2.
  set (a := 2 ^ n) in *. set (q := x / a) in *. set (r := x mod a) in *.
  set (q2 := q / 2) in *. set (b := q mod 2) in *.
  rewrite H2 in H1.
  destruct (Z.testbit x n); simpl in Hb; rewrite <- Hb in H1. all: lia.
Qed.

Lemma mod_pow2_bound (x n : Z) : 0 <= n → 0 <= x mod 2 ^ n < 2 ^ n.
Proof. intros. apply Z.mod_pos_bound. by apply pow2_pos. Qed.


Lemma shiftr_minus_one (x n : Z) :
  0 <= n → Z.shiftr x n = -1 ↔ - 2 ^ n <= x < 0.
Proof.
  intros Hn. rewrite Z.shiftr_div_pow2 by done.
  pose proof (pow2_pos n Hn) as Hp.
  pose proof (Z.div_mod x (2 ^ n) ltac:(lia)) as Hd.
  pose proof (Z.mod_pos_bound x (2 ^ n) Hp) as Hm.
  split.
  - intros E. rewrite E in Hd. lia.
  - intros Hx. symmetry. apply (Z.div_unique x (2 ^ n) (-1) (x + 2 ^ n)); lia.
Qed.

Lemma shiftr_zero (x n : Z) : 0 <= n → Z.shiftr x n = 0 ↔ 0 <= x < 2 ^ n.
Proof.
  intros Hn. rewrite Z.shiftr_div_pow2 by done.
  pose proof (pow2_pos n Hn). rewrite Z.div_small_iff by lia. lia.
Qed.

Lemma shiftr_fits (x n : Z) :
  0 <= n → Z.shiftr x n = 0 ∨ Z.shiftr x n = -1 ↔ - 2 ^ n <= x < 2 ^ n.
Proof.
  intros Hn. rewrite shiftr_zero, shiftr_minus_one by done.
  pose proof (pow2_pos n Hn). lia.
Qed.

Lemma bit_length_pos (i : Z) : 0 < i → bit_length i = Z.log2 i + 1.
Proof.
  intros Hi. unfold bit_length. rewrite decide_False by lia.
  by rewrite Z.abs_eq by lia.
Qed.

Lemma bit_length_bounds (i : Z) :
  0 < i → 1 <= bit_length i ∧ 2 ^ (bit_length i - 1) <= i < 2 ^ bit_length i.
Proof.
  intros Hi. rewrite bit_length_pos by done.
  pose proof (Z.log2_spec i Hi) as Hs. pose proof (Z.log2_nonneg i).
  replace (Z.log2 i + 1 - 1) with (Z.log2 i) by lia.
  replace (Z.succ (Z.log2 i)) with (Z.log2 i + 1) in Hs by lia. lia.
Qed.

(** A positive number has no bit in common with its predecessor exactly
    when it is a power of two. *)
Lemma land_pred_zero (i : Z) :
  0 < i → Z.land i (i - 1) = 0 ↔ i = 2 ^ Z.log2 i.
Proof.
  intros Hi. pose proof (Z.log2_spec i Hi) as Hs. pose proof (Z.log2_nonneg i) as Hk.
  set (k := Z.log2 i) in *. split.
  - intros Hz. destruct (decide (i = 2 ^ k)) as [|Hne]; [done|exfalso].
    assert (Z.log2 (i - 1) = k) as Hl.
    { apply Z.log2_unique; [done|]. replace (Z.succ k) with (k + 1) in * by lia. lia. }
    assert (Z.testbit (Z.land i (i - 1)) k = true) as Hb.
    { rewrite Z.land_spec. unfold k at 1. rewrite Z.bit_log2 by done.
      rewrite <- Hl. rewrite Z.bit_log2 by lia. done. }
    rewrite Hz, Z.bits_0 in Hb. done.
  - intros E. rewrite E. rewrite land_mask by done. apply Z_mod_same_full.
Qed.

(** *** [log2] *)

(** X1: [log2] returns [k] exactly on [2 ^ k]: it is defined on the powers of
    two and on nothing else, and returns the exponent. *)
Theorem log2_exact (i k : Z) : log2 i = Returns k ↔ 0 <= k ∧ i = 2 ^ k.
Proof.
  unfold log2. split.
  - intros H. destruct (decide (i <= 0)); [done|].
    destruct (decide (Z.land i (i - 1) ≠ 0)) as [|Hz]; [done|].
    apply dec_stable in Hz. injection H as Hk. subst k.
    apply land_pred_zero in Hz; [|lia].
    rewrite bit_length_pos by lia. pose proof (Z.log2_nonneg i).
    split; [lia|]. by replace (Z.log2 i + 1 - 1) with (Z.log2 i) by lia.
  - intros [Hk ->]. pose proof (pow2_pos k Hk).
    rewrite decide_False by lia.
    rewrite decide_False.
    + rewrite bit_length_pos, Z.log2_pow2 by lia. f_equal. lia.
    + intros Hne. apply Hne. apply land_pred_zero; [done|]. by rewrite Z.log2_pow2.
Qed.

(** X2: A positive number that is no power of two is refused, with the message
    about powers of two. *)
Theorem log2_not_a_power (i : Z) :
  0 < i → (∀ k, 0 <= k → i ≠ 2 ^ k) →
  log2 i = pyrtl_error "this function can only take even powers of 2".
Proof.
  intros Hi Hnp. unfold log2. rewrite decide_False by lia.
  rewrite decide_True; [done|].
  intros Hz. apply land_pred_zero in Hz; [|done].
  apply (Hnp (Z.log2 i)); [apply Z.log2_nonneg|done].
Qed.

Lemma log2_not_a_power_witness :
  log2 6 = pyrtl_error "this function can only take even powers of 2".
Proof.
  apply log2_not_a_power; [lia|].
  intros k Hk E.
  assert (k < 3) by (apply (Z.pow_lt_mono_r_iff 2); lia).
  assert (k = 0 ∨ k = 1 ∨ k = 2) as [->|[->| ->]] by lia; discriminate.
Defined.

(** *** [truncate] *)

Lemma truncate_value (x bitwidth : Z) :
  1 <= bitwidth → truncate x bitwidth = Returns (x mod 2 ^ bitwidth).
Proof.
  intros Hb. unfold truncate, lshift. rewrite !decide_False by lia. simpl.
  rewrite shiftl_one by lia. by rewrite land_mask by lia.
Qed.

(** X3: For a positive bitwidth, [truncate] of an integer is its residue modulo
    [2 ^ bitwidth]: the result lies in [0, 2 ^ bitwidth), also for a
    negative number, and a number of that range is returned as it is. *)
Theorem truncate_mod (x bitwidth : Z) :
  1 <= bitwidth →
  ∃ r, truncate x bitwidth = Returns r ∧
       r = x mod 2 ^ bitwidth ∧ 0 <= r < 2 ^ bitwidth ∧
       (0 <= x < 2 ^ bitwidth → r = x).
Proof.
  intros Hb. exists (x mod 2 ^ bitwidth).
  split; [by apply truncate_value|]. split; [done|].
  split; [apply mod_pow2_bound; lia|].
  intros Hx. by apply Z.mod_small.
Qed.

Lemma truncate_mod_witness :
  ∃ r, truncate (-1) 3 = Returns r ∧
       r = (-1) mod 2 ^ 3 ∧ 0 <= r < 2 ^ 3 ∧ (0 <= -1 < 2 ^ 3 → r = -1).
Proof. apply truncate_mod. lia. Defined.

(** *** [val_to_signed_integer] *)

Lemma val_to_signed_integer_value (value bitwidth : Z) :
  1 <= bitwidth →
  val_to_signed_integer value bitwidth =
    Returns ((value + 2 ^ (bitwidth - 1)) mod 2 ^ bitwidth - 2 ^ (bitwidth - 1)).
Proof.
  intros Hb. unfold val_to_signed_integer, lshift. rewrite !decide_False by lia. simpl.
  set (k := bitwidth - 1). assert (0 <= k) as Hk by lia.
  replace bitwidth with (k + 1) by lia.
  rewrite shiftl_one, land_mask, land_pow2 by lia. f_equal.
  pose proof (split_at_bit value k Hk) as Hs.
  pose proof (mod_pow2_bound value k Hk) as Hm.
  pose proof (pow2_succ k Hk) as Hp.
  set (q := value / 2 ^ (k + 1)) in *.
  destruct (Z.testbit value k).
  - rewrite <- (Z.mod_unique_pos (value + 2 ^ k) (2 ^ (k + 1)) (q + 1) (value mod 2 ^ k));
      lia.
  - rewrite <- (Z.mod_unique_pos (value + 2 ^ k) (2 ^ (k + 1)) q (value mod 2 ^ k + 2 ^ k));
      lia.
Qed.

(** X4: The value read as two's complement lies in the signed range of the
    bitwidth and differs from the input by a multiple of [2 ^ bitwidth];
    an input below [2 ^ (bitwidth - 1)] is returned as it is, one from there
    to [2 ^ bitwidth] is lowered by [2 ^ bitwidth]. *)
Theorem val_to_signed_integer_range (value bitwidth : Z) :
  1 <= bitwidth →
  ∃ s, val_to_signed_integer value bitwidth = Returns s ∧
       - 2 ^ (bitwidth - 1) <= s < 2 ^ (bitwidth - 1) ∧
       (s - value) mod 2 ^ bitwidth = 0 ∧
       (0 <= value < 2 ^ (bitwidth - 1) → s = value) ∧
       (2 ^ (bitwidth - 1) <= value < 2 ^ bitwidth → s = value - 2 ^ bitwidth).
Proof.
  intros Hb. eexists. split; [by apply val_to_signed_integer_value|].
  set (k := bitwidth - 1). assert (0 <= k) as Hk by lia.
  replace bitwidth with (k + 1) by lia.
  pose proof (pow2_succ k Hk) as Hp. pose proof (pow2_pos k Hk) as Hp'.
  pose proof (mod_pow2_bound (value + 2 ^ k) (k + 1) ltac:(lia)) as Hm.
  pose proof (Z.div_mod (value + 2 ^ k) (2 ^ (k + 1)) ltac:(lia)) as Hd.
  set (r := (value + 2 ^ k) mod 2 ^ (k + 1)) in *.
  set (q := (value + 2 ^ k) / 2 ^ (k + 1)) in *.
  split; [lia|]. split.
  - replace (r - 2 ^ k - value) with (- q * 2 ^ (k + 1)) by lia.
    apply Z_mod_mult.
  - split; intros Hv.
    + assert (q = 0) by nia. lia.
    + assert (q = 1) by nia. lia.
Qed.

Lemma val_to_signed_integer_range_witness :
  ∃ s, val_to_signed_integer 255 8 = Returns s ∧
       - 2 ^ (8 - 1) <= s < 2 ^ (8 - 1) ∧
       (s - 255) mod 2 ^ 8 = 0 ∧
       (0 <= 255 < 2 ^ (8 - 1) → s = 255) ∧
       (2 ^ (8 - 1) <= 255 < 2 ^ 8 → s = 255 - 2 ^ 8).
Proof. apply val_to_signed_integer_range. lia. Defined.

Lemma signed_of_residue (x bitwidth : Z) :
  1 <= bitwidth → - 2 ^ (bitwidth - 1) <= x < 2 ^ (bitwidth - 1) →
  val_to_signed_integer (x mod 2 ^ bitwidth) bitwidth = Returns x.
Proof.
  intros Hb Hx. rewrite val_to_signed_integer_value by done. f_equal.
  set (k := bitwidth - 1) in *. assert (0 <= k) as Hk by lia.
  replace bitwidth with (k + 1) by lia.
  pose proof (pow2_succ k Hk) as Hp. pose proof (pow2_pos k Hk) as Hp'.
  rewrite Zplus_mod_idemp_l.
  rewrite Z.mod_small by lia. lia.
Qed.

(** X5: Two's complement round trip, from the signed side: truncating a number
    of the signed range to the bitwidth and reading the result back as a
    signed integer gives the number again. *)
Theorem truncate_then_signed (x bitwidth : Z) :
  1 <= bitwidth → - 2 ^ (bitwidth - 1) <= x < 2 ^ (bitwidth - 1) →
  (u ←' truncate x bitwidth; val_to_signed_integer u bitwidth) = Returns x.
Proof.
  intros Hb Hx. rewrite truncate_value by done. simpl.
  by apply signed_of_residue.
Qed.

Lemma truncate_then_signed_witness :
  (u ←' truncate (-3) 4; val_to_signed_integer u 4) = Returns (-3).
Proof. apply truncate_then_signed; lia. Defined.

(** X6: The round trip from the unsigned side: reading a value of the bitwidth
    as a signed integer and truncating that gives the value again. *)
Theorem signed_then_truncate (value bitwidth : Z) :
  1 <= bitwidth → 0 <= value < 2 ^ bitwidth →
  (s ←' val_to_signed_integer value bitwidth; truncate s bitwidth) = Returns value.
Proof.
  intros Hb Hv. rewrite val_to_signed_integer_value by done. simpl.
  rewrite truncate_value by done. f_equal.
  set (k := bitwidth - 1) in *. assert (0 <= k) as Hk by lia.
  replace bitwidth with (k + 1) in * by lia.
  pose proof (pow2_succ k Hk) as Hp. pose proof (pow2_pos k Hk) as Hp'.
  rewrite Zminus_mod_idemp_l.
  replace (value + 2 ^ k - 2 ^ k) with value by lia.
  by rewrite Z.mod_small by lia.
Qed.

Lemma signed_then_truncate_witness :
  (s ←' val_to_signed_integer 13 4; truncate s 4) = Returns 13.
Proof. apply signed_then_truncate; lia. Defined.


(** *** [_convert_int] *)

Lemma bit_length_le (n k : Z) : 0 < n → 0 <= k → n < 2 ^ k ↔ bit_length n <= k.
Proof.
  intros Hn Hk. rewrite bit_length_pos by done.
  rewrite Z.log2_lt_pow2 by done. lia.
Qed.

Lemma len_bin_nonneg (n : Z) :
  0 <= n → len_bin n - 2 = if decide (n = 0) then 1 else bit_length n.
Proof. intros Hn. unfold len_bin. rewrite decide_False by lia. lia. Qed.

Lemma len_bin_lnot (val : Z) :
  val < -1 → len_bin (Z.lnot val) - 1 = bit_length (Z.lnot val) + 1.
Proof.
  intros Hv. unfold len_bin, Z.lnot. rewrite !decide_False by lia. lia.
Qed.

Lemma min_width_pos (val : Z) (signed : bool) : 1 <= min_width val signed.
Proof.
  unfold min_width. destruct (decide (val >= 0)).
  - destruct (decide (val = 0)).
    + destruct (signed && _); lia.
    + pose proof (bit_length_bounds val ltac:(lia)). destruct (signed && _); lia.
  - unfold Z.lnot. destruct (decide (val = -1)) as [->|]; [done|].
    pose proof (bit_length_bounds (Z.pred (- val)) ltac:(lia)). lia.
Qed.

(** A negative value fits [k + 1] bits exactly from [min_width] on. *)
Lemma negative_fits (val k : Z) :
  val < 0 → 0 <= k → - 2 ^ k <= val ↔ min_width val true <= k + 1.
Proof.
  intros Hv Hk. unfold min_width. rewrite decide_False by lia.
  unfold Z.lnot. destruct (decide (val = -1)) as [->|Hne].
  - simpl. pose proof (pow2_pos k Hk). unfold bit_length. simpl. lia.
  - rewrite <- (Z.add_le_mono_r _ _ 1).
    rewrite <- bit_length_le by lia. lia.
Qed.

Lemma min_width_negative (val : Z) (signed : bool) :
  val < 0 → min_width val signed = min_width val true.
Proof. intros. unfold min_width. by rewrite !decide_False by lia. Qed.

(** [_convert_int] with a bitwidth: it returns exactly when the bitwidth is
    at least [min_width], and then the residue of the value. *)
Lemma convert_int_given (val b : Z) (signed : bool) :
  (min_width val signed <= b →
     _convert_int val (Some b) signed = Returns (val mod 2 ^ b, b)) ∧
  (b < min_width val signed →
     ∃ e, _convert_int val (Some b) signed = Raises e).
Proof.
  pose proof (min_width_pos val signed) as Hpos.
  unfold _convert_int. destruct (decide (val >= 0)) as [Hv|Hv].
  - rewrite len_bin_nonneg by lia.
    assert (min_width val signed =
              if signed && bool_decide (val ≠ 0)
              then (if decide (val = 0) then 1 else bit_length val) + 1
              else (if decide (val = 0) then 1 else bit_length val)) as Hmw.
    { unfold min_width. rewrite decide_True by done.
      destruct (signed && _); lia. }
    rewrite <- Hmw. split; intros Hb.
    + rewrite decide_False by lia. do 2 f_equal.
      symmetry. apply Z.mod_small. split; [lia|].
      destruct (decide (val = 0)) as [->|Hne].
      * apply pow2_pos. lia.
      * apply bit_length_le; [lia..|].
        rewrite Hmw in Hb. destruct (signed && _); lia.
    + rewrite decide_True by lia. by eexists.
  - rewrite andb_false_r. unfold rshift, lshift.
    rewrite (min_width_negative val signed) in * by lia.
    split; intros Hb.
    + rewrite decide_False by lia. simpl.
      rewrite decide_False.
      2:{ intros Hne. apply Hne. apply shiftr_minus_one; [lia|].
          split; [|lia]. apply negative_fits; lia. }
      rewrite decide_False by lia. simpl.
      by rewrite shiftl_one, land_mask by lia.
    + destruct (decide (b - 1 < 0)); [by eexists|]. simpl.
      rewrite decide_True; [by eexists|].
      intros E. apply shiftr_minus_one in E; [|lia].
      destruct E as [E _]. apply negative_fits in E; lia.
Qed.

(** [_convert_int] without a bitwidth: the bitwidth it infers is
    [min_width]; a negative value needs [signed]. *)
Lemma convert_int_inferred (val : Z) (signed : bool) :
  _convert_int val None signed =
    if decide (val < 0 ∧ signed = false) then
      pyrtl_error "negative constants require either signed=True or specified bitwidth"
    else _convert_int val (Some (min_width val signed)) signed.
Proof.
  destruct (convert_int_given val (min_width val signed) signed) as [Hg _].
  rewrite Hg by lia. clear Hg.
  pose proof (min_width_pos val signed) as Hpos.
  unfold _convert_int. destruct (decide (val >= 0)) as [Hv|Hv].
  - rewrite decide_False by lia. rewrite len_bin_nonneg by lia.
    assert (min_width val signed =
              if signed && bool_decide (val ≠ 0)
              then (if decide (val = 0) then 1 else bit_length val) + 1
              else (if decide (val = 0) then 1 else bit_length val)) as Hmw.
    { unfold min_width. rewrite decide_True by done.
      destruct (signed && _); lia. }
    rewrite <- Hmw. do 2 f_equal.
    symmetry. apply Z.mod_small. split; [lia|].
    destruct (decide (val = 0)) as [->|Hne].
    + apply pow2_pos. lia.
    + apply bit_length_le; [lia..|].
      rewrite Hmw. destruct (signed && _); lia.
  - destruct signed; simpl.
    + rewrite (decide_False (P := val < 0 ∧ true = false)) by (intros [_ ?]; done).
      assert ((if decide (val = -1) then 1 else len_bin (Z.lnot val) - 1)
              = min_width val true) as ->.
      { unfold min_width. rewrite (decide_False (P := val >= 0)) by lia.
        destruct (decide (val = -1)) as [->|]; [done|].
        apply len_bin_lnot. lia. }
      destruct (convert_int_given val (min_width val true) true) as [Hg _].
      specialize (Hg ltac:(lia)). unfold _convert_int in Hg.
      rewrite decide_False in Hg by done. simpl in Hg. exact Hg.
    + rewrite decide_True by (split; [lia|done]). done.
Qed.

Lemma convert_int_result (val : Z) (bitwidth : option Z) (signed : bool) (num b : Z) :
  _convert_int val bitwidth signed = Returns (num, b) →
  min_width val signed <= b ∧ num = val mod 2 ^ b.
Proof.
  intros H. destruct bitwidth as [b0|].
  - destruct (convert_int_given val b0 signed) as [Hok Hbad].
    destruct (decide (min_width val signed <= b0)) as [Hle|Hlt].
    + rewrite Hok in H by done. by simplify_eq.
    + destruct Hbad as [e He]; [lia|]. congruence.
  - rewrite convert_int_inferred in H.
    destruct (decide (val < 0 ∧ signed = false)); [done|].
    destruct (convert_int_given val (min_width val signed) signed) as [Hok _].
    rewrite Hok in H by lia. by simplify_eq.
Qed.

(** X7: Whatever [_convert_int] returns fits the bitwidth it returns: the
    bitwidth is positive, the value is the residue of the input modulo
    [2 ^ bitwidth], and a non-negative input is returned unchanged. *)
Theorem convert_int_fits (val : Z) (bitwidth : option Z) (signed : bool) (num b : Z) :
  _convert_int val bitwidth signed = Returns (num, b) →
  1 <= b ∧ 0 <= num < 2 ^ b ∧ num = val mod 2 ^ b ∧ (0 <= val → num = val).
Proof.
  intros H. apply convert_int_result in H as [Hb ->].
  pose proof (min_width_pos val signed).
  pose proof (mod_pow2_bound val b ltac:(lia)).
  repeat split; try lia.
  intros Hv. apply Z.mod_small. split; [done|].
  destruct (decide (val = 0)) as [->|Hne]; [apply pow2_pos; lia|].
  apply bit_length_le; [lia..|].
  unfold min_width in Hb. rewrite decide_True, decide_False in Hb by lia.
  destruct (signed && _); lia.
Qed.

Lemma convert_int_fits_witness :
  1 <= 5 ∧ 0 <= 29 < 2 ^ 5 ∧ 29 = (-3) mod 2 ^ 5 ∧ (0 <= -3 → 29 = -3).
Proof. apply (convert_int_fits (-3) (Some 5) true). reflexivity. Defined.

(** X8: A signed constant survives the conversion: reading the value
    [_convert_int] returns for [signed=True] as a two's complement number
    of the returned bitwidth gives the input back. *)
Theorem convert_int_signed_round_trip (val : Z) (bitwidth : option Z) (num b : Z) :
  _convert_int val bitwidth true = Returns (num, b) →
  val_to_signed_integer num b = Returns val.
Proof.
  intros H. apply convert_int_result in H as [Hb ->].
  pose proof (min_width_pos val true) as Hpos.
  assert (- 2 ^ (b - 1) <= val < 2 ^ (b - 1)) as Hrange.
  { pose proof (pow2_pos (b - 1) ltac:(lia)).
    destruct (decide (val < 0)) as [Hneg|Hnn].
    - split; [|lia]. apply negative_fits; lia.
    - split; [lia|]. destruct (decide (val = 0)) as [->|Hne]; [lia|].
      apply bit_length_le; [lia..|].
      unfold min_width in Hb. rewrite decide_True, decide_False in Hb by lia.
      rewrite bool_decide_true in Hb by done. simpl in Hb. lia. }
  apply signed_of_residue; [lia|done].
Qed.

Lemma convert_int_signed_round_trip_witness :
  val_to_signed_integer 5 3 = Returns (-3).
Proof. apply (convert_int_signed_round_trip (-3) None). reflexivity. Defined.

(** X9: The bitwidth inferred for a value is the least one that can be given
    for it: with the same [signed], an explicit bitwidth is accepted
    exactly when it is not below the inferred one. *)
Theorem convert_int_inferred_minimal (val : Z) (signed : bool) (num b b' : Z) :
  _convert_int val None signed = Returns (num, b) →
  (∃ num', _convert_int val (Some b') signed = Returns (num', b')) ↔ b <= b'.
Proof.
  intros H. rewrite convert_int_inferred in H.
  destruct (decide (val < 0 ∧ signed = false)); [done|].
  destruct (convert_int_given val (min_width val signed) signed) as [Hok _].
  rewrite Hok in H by lia. simplify_eq.
  destruct (convert_int_given val b' signed) as [Hok' Hbad'].
  split.
  - intros [num' Hn]. destruct (decide (min_width val signed <= b')); [done|].
    destruct Hbad' as [e He]; [lia|]. congruence.
  - intros Hle. eexists. by apply Hok'.
Qed.

Lemma convert_int_inferred_minimal_witness :
  (∃ num', _convert_int (-3) (Some 2) true = Returns (num', 2)) ↔ 3 <= 2.
Proof. apply (convert_int_inferred_minimal (-3) true 5). reflexivity. Defined.


(** *** [_convert_verilog_str] and [infer_val_and_bitwidth] *)

(** The arithmetic of [_convert_verilog_str] after the string is taken
    apart. *)
Lemma convert_verilog_str_inv int_of_str (val : list ascii) (bitwidth : option Z)
    (signed : bool) (num w : Z) :
  _convert_verilog_str int_of_str val bitwidth signed = Returns (num, w) →
  signed = false ∧
  ∃ neg N, verilog_fields int_of_str val = Returns (neg, w, N) ∧
    0 <= w ∧ Z.shiftr num w = 0 ∧
    (∀ p, bitwidth = Some p → p = 0 ∨ p = w) ∧
    ((neg = false ∨ N = 0) ∧ num = N ∨
     neg = true ∧ N ≠ 0 ∧ 1 <= w ∧ Z.shiftr N (w - 1) = 0 ∧ num = 2 ^ w - N).
Proof.
  unfold _convert_verilog_str. destruct signed; [done|]. intros H. split; [done|].
  destruct (verilog_fields int_of_str val) as [[[neg w0] N]|] eqn:Hf; [|done].
  simpl in H.
  assert (∃ num0,
    (if neg && bool_decide (N ≠ 0) then
       top ←' rshift N (w0 - 1);
       if decide (top ≠ 0) then
         pyrtl_error (A := Z) "error, insufficient bits for negative number"
       else m ←' lshift 1 w0; Returns (m - N)
     else Returns N) = Returns num0 ∧
    ((neg = false ∨ N = 0) ∧ num0 = N ∨
     neg = true ∧ N ≠ 0 ∧ 1 <= w0 ∧ Z.shiftr N (w0 - 1) = 0 ∧ num0 = 2 ^ w0 - N))
    as (num0 & Hnum & Hcase).
  { destruct neg; simpl.
    - destruct (decide (N = 0)) as [->|HN].
      + rewrite bool_decide_false by (intros Hn; done). exists 0. split; [done|].
        left. split; [by right|done].
      + rewrite bool_decide_true by done.
        rewrite bool_decide_true in H by done. simpl in H.
        unfold rshift, lshift in *.
        destruct (decide (w0 - 1 < 0)); [done|]. simpl in *.
        destruct (decide (Z.shiftr N (w0 - 1) ≠ 0)) as [|Hz]; [done|].
        apply dec_stable in Hz.
        rewrite decide_False by lia. simpl.
        eexists. split; [done|]. right. rewrite shiftl_one by lia.
        repeat split; try done. lia.
    - exists N. split; [done|]. left. split; [by left|done]. }
  rewrite Hnum in H. simpl in H.
  destruct (match bitwidth with
            | Some passed => bool_decide (passed ≠ 0 ∧ passed ≠ w0)
            | None => false
            end) eqn:Hp; [done|].
  unfold rshift in H. destruct (decide (w0 < 0)); [done|]. simpl in H.
  destruct (decide (Z.shiftr num0 w0 ≠ 0)) as [|Hz]; [done|]. apply dec_stable in Hz.
  simplify_eq. exists neg, N. split; [done|]. split; [lia|]. split; [done|].
  split; [|done]. intros p ->. apply bool_decide_eq_false in Hp.
  destruct (decide (p = 0)); [by left|]. right.
  destruct (decide (p = w)); [done|]. exfalso. by apply Hp.
Qed.

(** X10: The constant a verilog-style string stands for, in terms of the sign,
    the bitwidth and the number [N] read from the string: the bitwidth is
    the one the string gives, the value fits it, a bitwidth passed along is
    0 or the same; without a minus sign the value is [N]; with one, [N] is 0
    or lies below [2 ^ (bitwidth - 1)], and the value is its two's
    complement, which read back as a signed integer is [- N]. *)
Theorem verilog_constant_value int_of_str (val : list ascii) (bitwidth : option Z)
    (signed : bool) (num w : Z) :
  _convert_verilog_str int_of_str val bitwidth signed = Returns (num, w) →
  signed = false ∧
  ∃ neg N, verilog_fields int_of_str val = Returns (neg, w, N) ∧
    0 <= w ∧ 0 <= num < 2 ^ w ∧
    (∀ p, bitwidth = Some p → p = 0 ∨ p = w) ∧
    (neg = false → num = N) ∧
    (neg = true → N = 0 → num = 0) ∧
    (neg = true → N ≠ 0 →
       0 < N < 2 ^ (w - 1) ∧ val_to_signed_integer num w = Returns (- N)).
Proof.
  intros H. apply convert_verilog_str_inv in H as (Hs & neg & N & Hf & Hw & Hz & Hp & Hcase).
  split; [done|]. exists neg, N. split; [done|]. split; [done|].
  apply shiftr_zero in Hz; [|done]. split; [done|]. split; [done|].
  destruct Hcase as [([Hneg|HN] & ->)|(Hneg & HN & Hw1 & Hz1 & ->)].
  - subst neg. repeat split; try done.
  - subst N. repeat split; try done.
  - subst neg. apply shiftr_zero in Hz1; [|lia].
    split; [done|]. split; [done|]. intros _ _.
    split; [lia|]. rewrite val_to_signed_integer_value by done. f_equal.
    pose proof (pow2_succ (w - 1) ltac:(lia)) as Hpw.
    replace (w - 1 + 1) with w in Hpw by lia.
    rewrite <- (Z.mod_unique_pos (2 ^ w - N + 2 ^ (w - 1)) (2 ^ w) 1 (2 ^ (w - 1) - N));
      lia.
Qed.

Lemma verilog_constant_value_witness :
  false = false ∧
  ∃ neg N, verilog_fields int_of_digits ["-"; "4"; "'"; "d"; "3"]%char = Returns (neg, 4, N) ∧
    0 <= 4 ∧ 0 <= 13 < 2 ^ 4 ∧
    (∀ p, @None Z = Some p → p = 0 ∨ p = 4) ∧
    (neg = false → 13 = N) ∧
    (neg = true → N = 0 → 13 = 0) ∧
    (neg = true → N ≠ 0 →
       0 < N < 2 ^ (4 - 1) ∧ val_to_signed_integer 13 4 = Returns (- N)).
Proof.
  apply (verilog_constant_value int_of_digits ["-"; "4"; "'"; "d"; "3"]%char None false 13 4).
  reflexivity.
Defined.

(** X11: Whatever [infer_val_and_bitwidth] is given, a bool, an integer or a
    string, the value it returns is not negative and fits the bitwidth it
    returns. *)
Theorem infer_val_and_bitwidth_fits int_of_str (raw : rawinput) (bitwidth : option Z)
    (signed : bool) (v w : Z) :
  infer_val_and_bitwidth int_of_str raw bitwidth signed = Returns (v, w) →
  0 <= w ∧ 0 <= v < 2 ^ w.
Proof.
  destruct raw as [b|i|s|t]; simpl; intros H.
  - unfold _convert_bool in H. destruct signed; [done|].
    destruct (decide (default 1 bitwidth ≠ 1)) as [|H1]; [done|].
    apply dec_stable in H1. rewrite H1 in H. simplify_eq.
    destruct b; simpl; lia.
  - apply convert_int_result in H as [Hb ->].
    pose proof (min_width_pos i signed).
    pose proof (mod_pow2_bound i w ltac:(lia)). lia.
  - apply convert_verilog_str_inv in H as (_ & neg & N & _ & Hw & Hz & _).
    apply shiftr_zero in Hz; [|done]. done.
  - done.
Qed.

Lemma infer_val_and_bitwidth_fits_witness : 0 <= 5 ∧ 0 <= 12 < 2 ^ 5.
Proof.
  apply (infer_val_and_bitwidth_fits int_of_digits
           (RawStr ["5"; "'"; "d"; "1"; "2"]%char) None false 12 5).
  reflexivity.
Defined.

(** *** [chop] *)

Lemma foldl_add (a : Z) (l : list Z) : foldl Z.add a l = a + foldl Z.add 0 l.
Proof.
  revert a. induction l as [|x l IH]; intros a; [simpl; lia|].
  change (foldl Z.add (a + x) l = a + foldl Z.add (0 + x) l).
  rewrite (IH (a + x)), (IH (0 + x)). lia.
Qed.

Lemma sum_cons (x : Z) (l : list Z) : sum (x :: l) = x + sum l.
Proof. unfold sum. simpl. apply foldl_add. Qed.

Lemma sum_drop (l : list Z) (i : nat) (w : Z) :
  l !! i = Some w → sum (drop i l) = w + sum (drop (S i) l).
Proof.
  intros Hl. rewrite (drop_S l w i Hl). apply sum_cons.
Qed.

Lemma sum_drop_nonneg (l : list Z) (i : nat) :
  Forall (λ w, 0 <= w) l → 0 <= sum (drop i l) <= sum l.
Proof.
  intros Hl. revert i. induction Hl as [|x l Hx Hl IH]; intros i.
  - by rewrite drop_nil.
  - destruct i as [|i]; simpl.
    + rewrite sum_cons. specialize (IH 0%nat). rewrite drop_0 in IH. lia.
    + rewrite sum_cons. specialize (IH i). lia.
Qed.

Lemma chop_lookup (len_w : Z) (segment_widths : list Z) (segs : list (Z * Z)) :
  chop len_w segment_widths = Returns segs →
  sum segment_widths = len_w ∧
  length segs = length segment_widths ∧
  ∀ i s e, segs !! i = Some (s, e) →
    s = sum (drop (S i) segment_widths) ∧ e = sum (drop i segment_widths).
Proof.
  unfold chop. destruct (decide (sum segment_widths ≠ len_w)) as [|Hs]; [done|].
  apply dec_stable in Hs. intros [= <-]. split; [done|]. split.
  - rewrite length_zip_with, !length_fmap, length_seq. lia.
  - intros i s e Hi. apply lookup_zip_with_Some in Hi as (x & y & [= -> ->] & Hx & Hy).
    rewrite list_lookup_fmap in Hx, Hy.
    destruct (seq 0 (length segment_widths) !! i) as [j|] eqn:Hj; [|done].
    apply lookup_seq in Hj as [-> _]. simpl in *. simplify_eq.
    by rewrite Nat.add_1_r.
Qed.

(** X12: The slices [chop] takes tile the wire from its top bit down: there is
    one slice for each width, the slice of a width has that many bits, the
    first slice ends at the length of the wire, each following slice ends
    where the one before starts, and the last one starts at bit 0.  When no
    width is negative, every slice lies within the wire. *)
Theorem chop_tiles (len_w : Z) (segment_widths : list Z) (segs : list (Z * Z)) :
  chop len_w segment_widths = Returns segs →
  length segs = length segment_widths ∧
  (∀ i s e, segs !! i = Some (s, e) → segment_widths !! i = Some (e - s)) ∧
  (∀ s e, head segs = Some (s, e) → e = len_w) ∧
  (∀ i s e s' e', segs !! i = Some (s, e) → segs !! S i = Some (s', e') → e' = s) ∧
  (∀ s e, last segs = Some (s, e) → s = 0) ∧
  (Forall (λ w, 0 <= w) segment_widths →
     ∀ i s e, segs !! i = Some (s, e) → 0 <= s ∧ s <= e ∧ e <= len_w).
Proof.
  intros H. apply chop_lookup in H as (Hsum & Hlen & Hl).
  split; [done|]. split; [|split; [|split; [|split]]].
  - intros i s e Hi. destruct (Hl i s e Hi) as [-> ->].
    apply lookup_lt_Some in Hi as Hlt. rewrite Hlen in Hlt.
    destruct (lookup_lt_is_Some_2 segment_widths i Hlt) as [w Hw].
    rewrite (sum_drop _ _ _ Hw), Hw. f_equal. lia.
  - intros s e Hh. rewrite head_lookup in Hh.
    destruct (Hl 0%nat s e Hh) as [_ ->]. by rewrite drop_0.
  - intros i s e s' e' Hi Hi'.
    destruct (Hl i s e Hi) as [-> _]. by destruct (Hl (S i) s' e' Hi') as [_ ->].
  - intros s e Hla. rewrite last_lookup in Hla.
    destruct (Hl _ s e Hla) as [-> _]. rewrite Hlen.
    apply lookup_lt_Some in Hla.
    replace (S (pred (length segment_widths))) with (length segment_widths) by lia.
    by rewrite drop_all.
  - intros Hnn i s e Hi. destruct (Hl i s e Hi) as [-> ->].
    apply lookup_lt_Some in Hi as Hlt. rewrite Hlen in Hlt.
    destruct (lookup_lt_is_Some_2 segment_widths i Hlt) as [w Hw].
    pose proof (sum_drop_nonneg segment_widths (S i) Hnn).
    pose proof (sum_drop_nonneg segment_widths i Hnn).
    rewrite (sum_drop _ _ _ Hw) in *.
    assert (0 <= w).
    { rewrite Forall_lookup in Hnn. by apply (Hnn i). }
    lia.
Qed.

Lemma chop_tiles_witness :
  let segs := [(26, 32); (21, 26); (16, 21); (0, 16)] in
  length segs = length [6; 5; 5; 16] ∧
  (∀ i s e, segs !! i = Some (s, e) → [6; 5; 5; 16] !! i = Some (e - s)) ∧
  (∀ s e, head segs = Some (s, e) → e = 32) ∧
  (∀ i s e s' e', segs !! i = Some (s, e) → segs !! S i = Some (s', e') → e' = s) ∧
  (∀ s e, last segs = Some (s, e) → s = 0) ∧
  (Forall (λ w, 0 <= w) [6; 5; 5; 16] →
     ∀ i s e, segs !! i = Some (s, e) → 0 <= s ∧ s <= e ∧ e <= 32).
Proof. apply (chop_tiles 32 [6; 5; 5; 16]). reflexivity. Defined.

(** *** [bitpattern_to_val] *)

Lemma letters_from_spec (seen p : list ascii) :
  NoDup seen →
  NoDup (letters_from seen p) ∧
  ∀ c, c ∈ letters_from seen p ↔ c ∈ seen ∨ (c ∈ p ∧ c ≠ "0"%char ∧ c ≠ "1"%char).
Proof.
  revert seen. induction p as [|x p IH]; intros seen Hnd; simpl.
  - split; [done|]. intros c. rewrite elem_of_nil. tauto.
  - destruct (decide _) as [(H0 & H1 & Hx)|Hno].
    + destruct (IH (seen ++ [x])) as [Hnd' Hin].
      { apply NoDup_app. split; [done|]. split; [|apply NoDup_singleton].
        intros y Hy Hy'. apply list_elem_of_singleton in Hy' as ->. done. }
      split; [done|]. intros c. rewrite Hin, elem_of_app, list_elem_of_singleton, elem_of_cons.
      split; [|naive_solver].
      intros [[?| ->]|(? & ? & ?)]; [by left|right..]; naive_solver.
    + destruct (IH seen Hnd) as [Hnd' Hin]. split; [done|].
      intros c. rewrite Hin, elem_of_cons. split; [naive_solver|].
      intros [?|([E|?] & ? & ?)]; [by left| |by right].
      subst c. left. destruct (decide (x ∈ seen)); [done|]. exfalso. by apply Hno.
Qed.

Lemma letters_nodup (p : list ascii) : NoDup (letters_in_field_order p).
Proof. apply letters_from_spec, NoDup_nil_2. Qed.

Lemma elem_of_letters (p : list ascii) (c : ascii) :
  c ∈ letters_in_field_order p ↔ c ∈ p ∧ c ≠ "0"%char ∧ c ≠ "1"%char.
Proof.
  unfold letters_in_field_order.
  destruct (letters_from_spec [] p (NoDup_nil_2)) as [_ H].
  rewrite H, elem_of_nil. tauto.
Qed.

Lemma foldl_insert_lookup (kvs : list (ascii * Z)) (m : gmap ascii Z) (k : ascii) :
  NoDup kvs.*1 →
  (∀ v, (k, v) ∈ kvs → foldl (λ m kv, <[kv.1 := kv.2]> m) m kvs !! k = Some v) ∧
  (k ∉ kvs.*1 → foldl (λ m kv, <[kv.1 := kv.2]> m) m kvs !! k = m !! k).
Proof.
  revert m. induction kvs as [|[k0 v0] kvs IH]; intros m Hnd; simpl.
  - split; [by intros v Hv%elem_of_nil|done].
  - apply NoDup_cons in Hnd as [Hk0 Hnd].
    destruct (IH (<[k0 := v0]> m) Hnd) as [IH1 IH2]. split.
    + intros v [[= -> ->]|Hin]%elem_of_cons.
      * rewrite IH2 by done. by rewrite lookup_insert_eq.
      * by apply IH1.
    + intros Hk. apply not_elem_of_cons in Hk as [Hne Hk].
      rewrite IH2 by done. by rewrite lookup_insert_ne.
Qed.

Lemma dict_zip_lookup (lifo : list ascii) (intfields : list Z) (c : ascii) (f : Z) :
  NoDup lifo → length lifo = length intfields →
  dict_zip lifo intfields !! c = Some f ↔
  ∃ j, lifo !! j = Some c ∧ intfields !! j = Some f.
Proof.
  intros Hnd Hlen. unfold dict_zip.
  assert ((zip lifo intfields).*1 = lifo) as Hfst by (apply fst_zip; lia).
  destruct (foldl_insert_lookup (zip lifo intfields) ∅ c) as [H1 H2].
  { by rewrite Hfst. }
  split.
  - intros Hl. destruct (decide (c ∈ lifo)) as [Hin|Hnin].
    + apply list_elem_of_lookup in Hin as [j Hj].
      destruct (lookup_lt_is_Some_2 intfields j) as [f' Hf'].
      { rewrite <- Hlen. by eapply lookup_lt_Some. }
      rewrite (H1 f') in Hl.
      * exists j. by simplify_eq.
      * apply list_elem_of_lookup. exists j.
        apply lookup_zip_with_Some. by exists c, f'.
    + rewrite H2 in Hl by by rewrite Hfst. done.
  - intros (j & Hj & Hf). apply H1.
    apply list_elem_of_lookup. exists j.
    apply lookup_zip_with_Some. by exists c, f.
Qed.

Lemma occurrences_cons_eq (c : ascii) (l : list ascii) :
  occurrences c (c :: l) = S (occurrences c l).
Proof. unfold occurrences. by rewrite filter_cons_True. Qed.

Lemma occurrences_cons_ne (c x : ascii) (l : list ascii) :
  x ≠ c → occurrences c (x :: l) = occurrences c l.
Proof. intros. unfold occurrences. by rewrite filter_cons_False. Qed.

Lemma occurrences_reverse (c : ascii) (l : list ascii) :
  occurrences c (reverse l) = occurrences c l.
Proof.
  unfold occurrences. apply Permutation_length.
  apply filter_Permutation. apply reverse_Permutation.
Qed.

Lemma str_bit_low (v : Z) :
  (str_bit (Z.land v 1) = "0"%char ∨ str_bit (Z.land v 1) = "1"%char) ∧
  (str_bit (Z.land v 1) = "1"%char ↔ Z.testbit v 0 = true).
Proof.
  pose proof (land_mask v 1 ltac:(lia)) as Hm. change (2 ^ 1 - 1) with 1 in Hm.
  change (2 ^ 1) with 2 in Hm. rewrite Hm.
  pose proof (Z.bit0_mod v) as Hb. rewrite <- Hb.
  unfold str_bit. destruct (Z.testbit v 0); simpl; split; first [by left|by right|done].
Qed.

(** What the loop over the reversed pattern leaves: one binary digit for
    each character, the digit itself or the next bit of the field, and each
    field shifted by the number of its characters. *)
Lemma fill_spec (cs bl : list ascii) (fm : gmap ascii Z) (bl' : list ascii)
    (fm' : gmap ascii Z) :
  fill cs bl fm = Returns (bl', fm') →
  ∃ bits, bl' = bl ++ bits ∧ length bits = length cs ∧
    (∀ k, k ≠ "0"%char → k ≠ "1"%char →
       fm' !! k = (λ v, Z.shiftr v (Z.of_nat (occurrences k cs))) <$> fm !! k) ∧
    (∀ i c, cs !! i = Some c →
       ∃ b, bits !! i = Some b ∧ (b = "0"%char ∨ b = "1"%char) ∧
         (c = "0"%char ∨ c = "1"%char → b = c) ∧
         (c ≠ "0"%char → c ≠ "1"%char →
            ∃ f, fm !! c = Some f ∧
              (b = "1"%char ↔
               Z.testbit f (Z.of_nat (occurrences c (take i cs))) = true))).
Proof.
  revert bl fm. induction cs as [|c cs IH]; intros bl fm H; simpl in H.
  - simplify_eq. exists []. rewrite app_nil_r. split; [done|]. split; [done|]. split.
    + intros k _ _. destruct (fm' !! k); simpl; [|done]. by rewrite Z.shiftr_0_r.
    + intros i c Hi. by rewrite lookup_nil in Hi.
  - destruct (decide (c = "0"%char ∨ c = "1"%char)) as [Hd|Hd].
    + apply IH in H as (bits & -> & Hlen & Hfm & Hbits).
      exists (c :: bits). rewrite <- app_assoc. split; [done|].
      split; [simpl; lia|]. split.
      * intros k H0 H1. rewrite occurrences_cons_ne by naive_solver. by apply Hfm.
      * intros [|i] c' Hi; simpl in Hi.
        -- simplify_eq. exists c'. split; [done|]. split; [done|].
           split; [done|]. intros; naive_solver.
        -- destruct (Hbits i c' Hi) as (b & Hb & Hb01 & Hdig & Hfield).
           exists b. split; [done|]. split; [done|]. split; [done|].
           intros H0 H1. destruct (Hfield H0 H1) as (f & Hf & Hbit).
           exists f. split; [done|]. simpl.
           rewrite occurrences_cons_ne by naive_solver. done.
    + destruct (decide (c = "?"%char)); [done|].
      destruct (fm !! c) as [v|] eqn:Hv; [|done].
      apply IH in H as (bits & -> & Hlen & Hfm & Hbits).
      destruct (str_bit_low v) as [Hs01 Hs].
      exists (str_bit (Z.land v 1) :: bits). rewrite <- app_assoc. split; [done|].
      split; [simpl; lia|]. split.
      * intros k H0 H1. rewrite Hfm by done.
        destruct (decide (k = c)) as [->|Hne].
        -- rewrite lookup_insert_eq, Hv, occurrences_cons_eq. simpl. f_equal.
           rewrite Z.shiftr_shiftr by lia. f_equal. lia.
        -- rewrite lookup_insert_ne by done. by rewrite occurrences_cons_ne.
      * intros [|i] c' Hi; simpl in Hi.
        -- simplify_eq. eexists. split; [done|]. split; [done|].
           split; [done|]. intros _ _. exists v. split; [done|]. done.
        -- destruct (Hbits i c' Hi) as (b & Hb & Hb01 & Hdig & Hfield).
           exists b. split; [done|]. split; [done|]. split; [done|].
           intros H0 H1. destruct (Hfield H0 H1) as (f & Hf & Hbit). simpl.
           destruct (decide (c' = c)) as [->|Hne].
           ++ rewrite lookup_insert_eq in Hf. simplify_eq. exists v. split; [done|].
              rewrite occurrences_cons_eq. rewrite Hbit.
              rewrite Z.shiftr_spec by lia. by rewrite Nat2Z.inj_succ, Z.add_1_r.
           ++ rewrite lookup_insert_ne in Hf by done. exists f. split; [done|].
              by rewrite occurrences_cons_ne.
Qed.

Lemma check_fields_spec (keys : list ascii) (fm : gmap ascii Z) :
  check_fields keys fm = Returns () →
  ∀ k, k ∈ keys → ∃ v, fm !! k = Some v ∧ (v = 0 ∨ v = -1).
Proof.
  induction keys as [|f keys IH]; simpl; intros H k Hk.
  - by apply elem_of_nil in Hk.
  - destruct (fm !! f) as [v|] eqn:Hv; [|done].
    destruct (decide (v ≠ 0 ∧ v ≠ -1)) as [|Hok]; [done|].
    apply elem_of_cons in Hk as [->|Hk]; [|by apply IH].
    exists v. split; [done|]. lia.
Qed.

Lemma binary_digits_app (acc : Z) (s t : list ascii) :
  binary_digits acc (s ++ t) = a ← binary_digits acc s; binary_digits a t.
Proof.
  revert acc. induction s as [|c s IH]; intros acc; simpl; [done|].
  repeat case_decide; by rewrite ?IH.
Qed.

(** The number a string of binary digits stands for, from its digits taken
    from the least significant one. *)
Lemma binary_value (bits : list ascii) :
  Forall (λ b, b = "0"%char ∨ b = "1"%char) bits →
  ∃ v, binary_digits 0 (reverse bits) = Some v ∧ 0 <= v < 2 ^ Z.of_nat (length bits) ∧
       ∀ (i : nat) b, bits !! i = Some b →
         Z.testbit v (Z.of_nat i) = bool_decide (b = "1"%char).
Proof.
  induction 1 as [|b bits Hb Hbits (v & Hv & Hr & Ht)].
  - exists 0. split; [done|]. split; [simpl; lia|]. intros i b Hi. by rewrite lookup_nil in Hi.
  - rewrite reverse_cons, binary_digits_app, Hv. simpl.
    rewrite Nat2Z.inj_succ, Z.pow_succ_r by lia.
    destruct Hb as [-> | ->]; simpl.
    + exists (2 * v). split; [done|]. split; [lia|].
      intros [|i] b Hi; simpl in Hi.
      * simplify_eq. by rewrite Z.testbit_even_0.
      * rewrite Nat2Z.inj_succ, Z.double_bits_succ. by apply Ht.
    + exists (2 * v + 1). split; [done|]. split; [lia|].
      intros [|i] b Hi; simpl in Hi.
      * simplify_eq. by rewrite Z.testbit_odd_0.
      * rewrite Nat2Z.inj_succ, Z.testbit_odd_succ by lia. by apply Ht.
Qed.

Lemma named_intfields_length (named_fields : gmap string Z)
    (field_map : option (gmap string string)) (lifo : list ascii) (vs : list Z) :
  named_intfields named_fields field_map lifo = inr vs → length vs = length lifo.
Proof.
  revert vs. induction lifo as [|n lifo IH]; intros vs; simpl.
  - by intros [= <-].
  - destruct (named_field _ _ n); [done|].
    destruct (named_intfields _ _ lifo); [done|].
    intros [= <-]. simpl. f_equal. by apply IH.
Qed.

Lemma intfields_of_length (lifo : list ascii) (ordered_fields : list Z)
    (named_fields : gmap string Z) (field_map : option (gmap string string))
    (intfields : list Z) :
  intfields_of lifo ordered_fields named_fields field_map = Returns intfields →
  length lifo = length intfields.
Proof.
  unfold intfields_of. repeat case_decide; try done.
  - intros [= <-]. lia.
  - destruct (named_intfields _ _ _) eqn:E; [done|].
    intros [= <-]. symmetry. by eapply named_intfields_length.
Qed.

(** The stages of a call that returns. *)
Lemma bitpattern_to_val_inv (bitpattern : list ascii) (ordered_fields : list Z)
    (named_fields : gmap string Z) (field_map : option (gmap string string)) (v : Z) :
  bitpattern_to_val bitpattern ordered_fields named_fields field_map = Returns v →
  ∃ intfields bitlist fmap,
    intfields_of (letters_in_field_order bitpattern) ordered_fields named_fields field_map
      = Returns intfields ∧
    fill (reverse bitpattern) []
         (dict_zip (letters_in_field_order bitpattern) intfields)
      = Returns (bitlist, fmap) ∧
    check_fields (letters_in_field_order bitpattern) fmap = Returns () ∧
    int_base2 (reverse bitlist) = Returns v.
Proof.
  unfold bitpattern_to_val. case_decide; [done|].
  destruct (intfields_of _ _ _ _) as [intfields|] eqn:Hi; [|done]. simpl.
  destruct (fill _ _ _) as [[bitlist fmap]|] eqn:Hf; [|done]. simpl.
  rewrite fst_zip by (apply intfields_of_length in Hi; lia).
  destruct (check_fields _ _) as [[]|] eqn:Hc; [|done]. simpl.
  case_decide; [done|]. intros Hv. by exists intfields, bitlist, fmap.
Qed.

(** X13: The value [bitpattern_to_val] returns, bit by bit: the pattern is not
    empty, the value has as many bits as the pattern has characters, a
    character [0] or [1] gives its bit as written, and the [n]-th
    character of a letter, counted from the right from 0, gives bit [n] of
    the field of that letter. *)
Theorem bitpattern_to_val_bits (bitpattern : list ascii) (ordered_fields : list Z)
    (named_fields : gmap string Z) (field_map : option (gmap string string)) (v : Z) :
  bitpattern_to_val bitpattern ordered_fields named_fields field_map = Returns v →
  bitpattern ≠ [] ∧ 0 <= v < 2 ^ Z.of_nat (length bitpattern) ∧
  ∃ intfields,
    intfields_of (letters_in_field_order bitpattern) ordered_fields named_fields field_map
      = Returns intfields ∧
    ∀ (i : nat) c, reverse bitpattern !! i = Some c →
      if decide (c = "0"%char) then Z.testbit v (Z.of_nat i) = false
      else if decide (c = "1"%char) then Z.testbit v (Z.of_nat i) = true
      else ∃ j f, letters_in_field_order bitpattern !! j = Some c ∧
                  intfields !! j = Some f ∧
                  Z.testbit v (Z.of_nat i) =
                  Z.testbit f (Z.of_nat (occurrences c (take i (reverse bitpattern)))).
Proof.
  intros H. apply bitpattern_to_val_inv in H as (intfields & bitlist & fmap & Hi & Hf & Hc & Hv).
  apply fill_spec in Hf as (bits & -> & Hlen & Hfm & Hbits). simpl in *.
  rewrite length_reverse in Hlen.
  assert (Forall (λ b, b = "0"%char ∨ b = "1"%char) bits) as Hall.
  { apply Forall_lookup. intros i b Hb.
    destruct (lookup_lt_is_Some_2 (reverse bitpattern) i) as [c Hci].
    { rewrite length_reverse, <- Hlen. by eapply lookup_lt_Some. }
    destruct (Hbits i c Hci) as (b' & Hb' & H01 & _). by simplify_eq. }
  destruct (binary_value bits Hall) as (v' & Hv' & Hrange & Htest).
  unfold int_base2 in Hv. rewrite Hv' in Hv.
  destruct (reverse bits) eqn:Hrev; [done|]. simplify_eq.
  split.
  { intros ->. destruct bits; [|done]. done. }
  rewrite Hlen in Hrange. split; [done|].
  exists intfields. split; [done|].
  intros i c Hci. destruct (Hbits i c Hci) as (b & Hb & H01 & Hdig & Hfield).
  rewrite (Htest i b Hb).
  destruct (decide (c = "0"%char)) as [->|H0].
  { rewrite Hdig by by left. done. }
  destruct (decide (c = "1"%char)) as [->|H1].
  { rewrite Hdig by by right. done. }
  destruct (Hfield H0 H1) as (f & Hf & Hbit).
  apply dict_zip_lookup in Hf as (j & Hj & Hfj);
    [|apply letters_nodup|by eapply intfields_of_length].
  exists j, f. split; [done|]. split; [done|].
  destruct (Z.testbit f _).
  - apply bool_decide_eq_true. by apply Hbit.
  - apply bool_decide_eq_false. intros Hb1. by apply Hbit in Hb1.
Qed.


Lemma bitpattern_to_val_bits_witness :
  let bitpattern := ["a"; "0"; "a"; "1"]%char in
  bitpattern ≠ [] ∧ 0 <= 9 < 2 ^ Z.of_nat (length bitpattern) ∧
  ∃ intfields,
    intfields_of (letters_in_field_order bitpattern) [2] ∅ None = Returns intfields ∧
    ∀ (i : nat) c, reverse bitpattern !! i = Some c →
      if decide (c = "0"%char) then Z.testbit 9 (Z.of_nat i) = false
      else if decide (c = "1"%char) then Z.testbit 9 (Z.of_nat i) = true
      else ∃ j f, letters_in_field_order bitpattern !! j = Some c ∧
                  intfields !! j = Some f ∧
                  Z.testbit 9 (Z.of_nat i) =
                  Z.testbit f (Z.of_nat (occurrences c (take i (reverse bitpattern)))).
Proof. apply (bitpattern_to_val_bits ["a"; "0"; "a"; "1"]%char [2] ∅ None). reflexivity. Defined.

(** X14: A call returns only if every field fits the characters of its letter:
    with [n] characters the field lies from [- 2 ^ n] up to, not including,
    [2 ^ n]. *)
Theorem bitpattern_to_val_fields_fit (bitpattern : list ascii) (ordered_fields : list Z)
    (named_fields : gmap string Z) (field_map : option (gmap string string))
    (v : Z) (intfields : list Z) :
  bitpattern_to_val bitpattern ordered_fields named_fields field_map = Returns v →
  intfields_of (letters_in_field_order bitpattern) ordered_fields named_fields field_map
    = Returns intfields →
  ∀ j c f, letters_in_field_order bitpattern !! j = Some c → intfields !! j = Some f →
    - 2 ^ Z.of_nat (occurrences c bitpattern) <= f < 2 ^ Z.of_nat (occurrences c bitpattern).
Proof.
  intros H Hi' j c f Hj Hf.
  apply bitpattern_to_val_inv in H as (ints & bitlist & fmap & Hi & Hfill & Hc & Hv).
  rewrite Hi' in Hi. simplify_eq.
  apply fill_spec in Hfill as (bits & _ & _ & Hfm & _).
  assert (c ∈ letters_in_field_order bitpattern) as Hin by by eapply list_elem_of_lookup_2.
  destruct (check_fields_spec _ _ Hc c Hin) as (w & Hw & Hw01).
  apply elem_of_letters in Hin as (_ & H0 & H1).
  rewrite (Hfm c H0 H1) in Hw.
  assert (dict_zip (letters_in_field_order bitpattern) ints !! c = Some f) as Hd.
  { apply dict_zip_lookup; [apply letters_nodup|by eapply intfields_of_length|by exists j]. }
  rewrite Hd in Hw. simpl in Hw. simplify_eq.
  rewrite occurrences_reverse in Hw01.
  apply shiftr_fits in Hw01; [done|lia].
Qed.

Lemma bitpattern_to_val_fields_fit_witness :
  - 2 ^ Z.of_nat (occurrences "a" ["a"; "0"; "a"; "1"]%char) <= 2
    < 2 ^ Z.of_nat (occurrences "a" ["a"; "0"; "a"; "1"]%char).
Proof.
  apply (bitpattern_to_val_fields_fit ["a"; "0"; "a"; "1"]%char [2] ∅ None 9 [2])
    with (j := 0%nat); reflexivity.
Defined.

Lemma fill_question (cs bl : list ascii) (fm : gmap ascii Z) :
  "?"%char ∈ cs →
  (∀ c, c ∈ cs → c ≠ "0"%char → c ≠ "1"%char → is_Some (fm !! c)) →
  fill cs bl fm = pyrtl_error "all fields in the bitpattern must have names".
Proof.
  revert bl fm. induction cs as [|c cs IH]; intros bl fm Hq Hdom.
  - by apply elem_of_nil in Hq.
  - simpl. destruct (decide (c = "0"%char ∨ c = "1"%char)) as [Hd|Hd].
    + apply IH.
      * apply elem_of_cons in Hq as [E|]; [|done]. subst c. by destruct Hd.
      * intros c' Hc'. apply Hdom. by right.
    + destruct (decide (c = "?"%char)); [done|].
      destruct (Hdom c) as [v ->]; [by left|naive_solver..|].
      apply IH.
      * apply elem_of_cons in Hq as [E|]; [by subst c|done].
      * intros c' Hc' H0 H1. destruct (decide (c' = c)) as [->|Hne].
        -- by rewrite lookup_insert_eq.
        -- rewrite lookup_insert_ne by done. apply Hdom; [by right|done..].
Qed.

Lemma dict_zip_defined (bitpattern : list ascii) (intfields : list Z) (c : ascii) :
  length (letters_in_field_order bitpattern) = length intfields →
  c ∈ bitpattern → c ≠ "0"%char → c ≠ "1"%char →
  is_Some (dict_zip (letters_in_field_order bitpattern) intfields !! c).
Proof.
  intros Hlen Hc H0 H1.
  assert (c ∈ letters_in_field_order bitpattern) as Hin by by apply elem_of_letters.
  apply list_elem_of_lookup in Hin as [j Hj].
  destruct (lookup_lt_is_Some_2 intfields j) as [f Hf].
  { rewrite <- Hlen. by eapply lookup_lt_Some. }
  exists f. apply dict_zip_lookup; [apply letters_nodup|done|by exists j].
Qed.

(** X15: A pattern with a [?] is never turned into a value: whatever the fields
    given, the call raises a [PyrtlError]. *)
Theorem bitpattern_to_val_question_mark (bitpattern : list ascii)
    (ordered_fields : list Z) (named_fields : gmap string Z)
    (field_map : option (gmap string string)) :
  "?"%char ∈ bitpattern →
  ∃ msg, bitpattern_to_val bitpattern ordered_fields named_fields field_map
         = pyrtl_error msg.
Proof.
  intros Hq. unfold bitpattern_to_val. case_decide; [by eexists|].
  destruct (intfields_of _ _ _ _) as [intfields|e] eqn:Hi; simpl.
  - rewrite fill_question; [by eexists| by apply elem_of_reverse |].
    intros c Hc H0 H1. rewrite elem_of_reverse in Hc.
    apply dict_zip_defined; [exact (intfields_of_length _ _ _ _ _ Hi)|done..].
  - unfold intfields_of in Hi. repeat case_decide; try done.
    + injection Hi as <-. by eexists.
    + injection Hi as <-. by eexists.
    + destruct (named_intfields _ _ _); [|done]. injection Hi as <-. by eexists.
Qed.

Lemma bitpattern_to_val_question_mark_witness :
  ∃ msg, bitpattern_to_val ["1"; "?"; "a"]%char [1; 1] ∅ None = pyrtl_error msg.
Proof.
  apply bitpattern_to_val_question_mark. apply elem_of_cons. right. by left.
Defined.

Lemma fill_returns (cs bl : list ascii) (fm : gmap ascii Z) :
  "?"%char ∉ cs →
  (∀ c, c ∈ cs → c ≠ "0"%char → c ≠ "1"%char → is_Some (fm !! c)) →
  ∃ r, fill cs bl fm = Returns r.
Proof.
  revert bl fm. induction cs as [|c cs IH]; intros bl fm Hq Hdom; simpl.
  - by eexists.
  - apply not_elem_of_cons in Hq as [Hne Hq].
    destruct (decide (c = "0"%char ∨ c = "1"%char)) as [Hd|Hd].
    + apply IH; [done|]. intros c' Hc'. apply Hdom. by right.
    + rewrite decide_False by done.
      destruct (Hdom c) as [v ->]; [by left|naive_solver..|].
      apply IH; [done|].
      intros c' Hc' H0 H1. destruct (decide (c' = c)) as [->|Hne'].
      * by rewrite lookup_insert_eq.
      * rewrite lookup_insert_ne by done. apply Hdom; [by right|done..].
Qed.

Lemma check_fields_returns (keys : list ascii) (fm : gmap ascii Z) :
  (∀ k, k ∈ keys → ∃ v, fm !! k = Some v ∧ (v = 0 ∨ v = -1)) →
  check_fields keys fm = Returns ().
Proof.
  induction keys as [|f keys IH]; intros H; simpl; [done|].
  destruct (H f) as (v & -> & Hv); [by left|].
  rewrite decide_False by lia. apply IH. intros k Hk. apply H. by right.
Qed.

(** X16: With ordered fields [bitpattern_to_val] returns a value whenever the
    pattern is not empty and has no [?], there is one field for each
    letter, and each field fits the characters of its letter. *)
Theorem bitpattern_to_val_returns (bitpattern : list ascii) (ordered_fields : list Z) :
  bitpattern ≠ [] → "?"%char ∉ bitpattern →
  length (letters_in_field_order bitpattern) = length ordered_fields →
  (∀ j c f, letters_in_field_order bitpattern !! j = Some c →
            ordered_fields !! j = Some f →
     - 2 ^ Z.of_nat (occurrences c bitpattern) <= f
       < 2 ^ Z.of_nat (occurrences c bitpattern)) →
  ∃ v, bitpattern_to_val bitpattern ordered_fields ∅ None = Returns v.
Proof.
  intros Hne Hq Hlen Hfit. unfold bitpattern_to_val.
  cbv zeta. rewrite decide_False by (rewrite map_size_empty; simpl; lia).
  assert (intfields_of (letters_in_field_order bitpattern) ordered_fields ∅ None
          = Returns ordered_fields) as ->.
  { unfold intfields_of. destruct (decide (ordered_fields ≠ [])) as [|He].
    - by rewrite decide_False by (intros Hn; done).
    - apply dec_stable in He. subst. simpl in Hlen.
      rewrite decide_False by (rewrite map_size_empty, Hlen; intros Hn; done).
      apply nil_length_inv in Hlen. by rewrite Hlen. }
  simpl.
  destruct (fill_returns (reverse bitpattern) []
              (dict_zip (letters_in_field_order bitpattern) ordered_fields))
    as [[bitlist fmap] Hf].
  { by rewrite elem_of_reverse. }
  { intros c Hc H0 H1. rewrite elem_of_reverse in Hc. by apply dict_zip_defined. }
  rewrite Hf. simpl. rewrite fst_zip by lia.
  apply fill_spec in Hf as (bits & -> & Hbl & Hfm & Hbits). simpl.
  rewrite length_reverse in Hbl.
  rewrite check_fields_returns.
  2:{ intros k Hk. apply elem_of_letters in Hk as Hk'. destruct Hk' as (_ & H0 & H1).
      apply list_elem_of_lookup in Hk as [j Hj].
      destruct (lookup_lt_is_Some_2 ordered_fields j) as [f Hfj].
      { rewrite <- Hlen. by eapply lookup_lt_Some. }
      rewrite (Hfm k H0 H1).
      assert (dict_zip (letters_in_field_order bitpattern) ordered_fields !! k = Some f)
        as -> by (apply dict_zip_lookup; [apply letters_nodup|done|by exists j]).
      simpl. eexists. split; [done|].
      apply shiftr_fits; [lia|]. rewrite occurrences_reverse. by eapply Hfit. }
  simpl. rewrite decide_False by lia.
  assert (Forall (λ b, b = "0"%char ∨ b = "1"%char) bits) as Hall.
  { apply Forall_lookup. intros i b Hb.
    destruct (lookup_lt_is_Some_2 (reverse bitpattern) i) as [c Hci].
    { rewrite length_reverse, <- Hbl. by eapply lookup_lt_Some. }
    destruct (Hbits i c Hci) as (b' & Hb' & H01 & _). by simplify_eq. }
  destruct (binary_value bits Hall) as (v & Hv & _).
  exists v. unfold int_base2. rewrite Hv.
  destruct (reverse bits) eqn:Hrev; [|done].
  apply (f_equal length) in Hrev. rewrite length_reverse in Hrev. simpl in Hrev.
  destruct bitpattern; [done|]. simpl in Hbl. lia.
Qed.

Lemma bitpattern_to_val_returns_witness :
  ∃ v, bitpattern_to_val ["a"; "0"; "a"; "1"]%char [2] ∅ None = Returns v.
Proof.
  apply bitpattern_to_val_returns.
  - done.
  - apply (bool_decide_unpack _). vm_compute. exact I.
  - reflexivity.
  - intros [|[|j]] c f Hc Hf; vm_compute in Hc; try discriminate.
    injection Hc as <-. injection Hf as <-. vm_compute. split; [discriminate|reflexivity].
Defined.


Lemma named_intfields_values (named_fields : gmap string Z)
    (field_map : option (gmap string string)) (lifo : list ascii) (values : list Z) :
  length values = length lifo →
  (∀ j c f, lifo !! j = Some c → values !! j = Some f →
            named_field named_fields field_map c = inr f) →
  named_intfields named_fields field_map lifo = inr values.
Proof.
  revert values. induction lifo as [|c lifo IH]; intros [|f values] Hlen Hv;
    simpl in *; try done.
  rewrite (Hv 0%nat c f) by done.
  rewrite (IH values); [done|lia|].
  intros j c' f' Hc' Hf'. by apply (Hv (S j)).
Qed.

(** X17: Naming the fields gives what giving them in order gives: when the
    keyword arguments hold one value for each letter of the pattern, found
    under the letter or under the name [field_map] gives the letter, the
    call agrees with the call that passes these values in the order of the
    letters. *)
Theorem bitpattern_to_val_named (bitpattern : list ascii) (values : list Z)
    (named_fields : gmap string Z) (field_map : option (gmap string string)) :
  length values = length (letters_in_field_order bitpattern) →
  size named_fields = length values →
  (∀ j c f, letters_in_field_order bitpattern !! j = Some c → values !! j = Some f →
            named_field named_fields field_map c = inr f) →
  bitpattern_to_val bitpattern [] named_fields field_map =
  bitpattern_to_val bitpattern values ∅ None.
Proof.
  intros Hlen Hsize Hv. unfold bitpattern_to_val. cbv zeta.
  rewrite decide_False by (simpl; lia).
  rewrite decide_False by (rewrite map_size_empty; simpl; lia).
  assert (intfields_of (letters_in_field_order bitpattern) [] named_fields field_map
          = Returns values) as ->.
  { unfold intfields_of. rewrite decide_False by (intros Hn; done).
    rewrite decide_False by (intros Hn; apply Hn; lia).
    by rewrite (named_intfields_values _ _ _ values). }
  assert (intfields_of (letters_in_field_order bitpattern) values ∅ None
          = Returns values) as ->; [|done].
  unfold intfields_of. destruct (decide (values ≠ [])) as [|He].
  - by rewrite decide_False by (intros Hn; apply Hn; lia).
  - apply dec_stable in He. subst. simpl in Hlen.
    rewrite decide_False by (rewrite map_size_empty, <- Hlen; intros Hn; done).
    symmetry in Hlen. apply nil_length_inv in Hlen. by rewrite Hlen.
Qed.

Lemma bitpattern_to_val_named_witness :
  bitpattern_to_val ["i"; "0"; "s"; "i"]%char []
    {[ "imm"%string := 1; "rs"%string := 0 ]}
    (Some {[ "i"%string := "imm"%string; "s"%string := "rs"%string ]}) =
  bitpattern_to_val ["i"; "0"; "s"; "i"]%char [1; 0] ∅ None.
Proof.
  apply bitpattern_to_val_named.
  - reflexivity.
  - reflexivity.
  - intros [|[|j]] c f Hc Hf; vm_compute in Hc; try discriminate;
      injection Hc as <-; injection Hf as <-; vm_compute; reflexivity.
Defined.

End HelperFacts.

(** * More properties of the memories *)

Module MemMoreFacts.
Import Mem MemMore MemFacts.


(** *** What one request does to the world *)

Lemma request_cases σ self r mem :
  heap σ !! self = Some mem →
  (∃ mem', same_but_counters mem mem' ∧
     (request self r σ).2 =
       mkWorld (working_block σ) (next_wire σ) (_memIndex σ) (<[self := mem']> (heap σ)))
  ∨ (∃ addr,
       let data := mkWire (next_wire σ) Plain in
       let net := mkNet "m" (Some (id mem)) [addr] [data] in
       (request self r σ).2 =
         mkWorld (mkBlock (block_add net (working_block σ))
                          ({[data]} ∪ wirevector_set (working_block σ)))
                 (S (next_wire σ)) (_memIndex σ)
                 (<[self := with_readport_nets (readport_nets mem ++ [net])
                              (counted_read mem)]> (heap σ)))
  ∨ (∃ addr data enable,
       let net := mkNet "@" (Some (id mem)) [addr; data; enable] [] in
       (request self r σ).2 =
         mkWorld (mkBlock (block_add net (working_block σ))
                          (wirevector_set (working_block σ)))
                 (next_wire σ) (_memIndex σ)
                 (<[self := with_writeport_nets (writeport_nets mem ++ [net])
                              (counted_write mem)]> (heap σ))).
Proof.
  intros Hm. destruct r as [addr | addr data enable]; simpl.
  - unfold mbind, M_bind, _readaccess.
    destruct (max_read_ports mem) as [k|] eqn:Hk.
    + destruct (decide (num_read_ports mem + 1 > k)) as [Hgt | Hle].
      * left. rewrite (read_port_fail _ _ _ mem k) by done. simpl.
        eexists. split; [|reflexivity]. by repeat split.
      * right; left. exists addr.
        rewrite (read_port_ok _ _ _ mem); [done|done|intros ? ?; simplify_eq; lia].
    + right; left. exists addr.
      rewrite (read_port_ok _ _ _ mem); [done|done|intros ? ?; simplify_eq].
  - destruct (max_write_ports mem) as [k|] eqn:Hk.
    + destruct (decide (num_write_ports mem + 1 > k)) as [Hgt | Hle].
      * left. rewrite (write_port_fail _ _ _ _ _ mem k) by done. simpl.
        eexists. split; [|reflexivity]. by repeat split.
      * right; right. exists addr, data, enable.
        rewrite (write_port_ok _ _ _ _ _ mem); [done|done|intros ? ?; simplify_eq; lia].
    + right; right. exists addr, data, enable.
      rewrite (write_port_ok _ _ _ _ _ mem); [done|done|intros ? ?; simplify_eq].
Qed.






(** *** Memories without a cap *)

(** X18: A memory created with [max_read_ports=None] has no limit: after
    requests of any number a further read still builds its port, the
    counter [num_read_ports] is never touched, and there is a port for each
    read asked for.  The same holds of the writes of a memory created with
    [max_write_ports=None]. *)
Theorem uncapped_ports_unlimited bw aw kr kw async σ0 self σ1 rs :
  new_MemBlock bw aw kr kw async σ0 = (Ok self, σ1) →
  let σ := requests self rs σ1 in
  (kr = None →
     (∀ addr, ∃ data σ', _readaccess self addr σ = (Ok data, σ')) ∧
     ∃ mem, heap σ !! self = Some mem ∧ num_read_ports mem = 0 ∧
            Z.of_nat (length (readport_nets mem)) = count_reads rs) ∧
  (kw = None →
     (∀ addr data enable, ∃ σ', _build self addr data enable σ = (Ok tt, σ')) ∧
     ∃ mem, heap σ !! self = Some mem ∧ num_write_ports mem = 0 ∧
            Z.of_nat (length (writeport_nets mem)) = count_writes rs).
Proof.
  intros Hnew σ.
  destruct (fresh_requests_tracked _ _ _ _ _ _ _ _ rs Hnew)
    as (mem & Hm & _ & _ & Hkr & Hkw & Hcr & Hcw & Hlr & Hlw).
  fold σ in Hm. split; intros ->; simpl in *.
  - split; [|by exists mem].
    intros addr. unfold _readaccess.
    rewrite (read_port_ok _ _ _ mem); [by eexists _, _|done|].
    intros max Hmax. congruence.
  - split; [|by exists mem].
    intros addr data enable.
    rewrite (write_port_ok _ _ _ _ _ mem); [by eexists|done|].
    intros max Hmax. congruence.
Qed.

Lemma uncapped_ports_unlimited_witness :
  let σ1 := (new_MemBlock 8 4 None (Some 1) false empty_world).2 in
  let σ := requests 0 three_reads σ1 in
  (@None Z = None →
     (∀ addr, ∃ data σ', _readaccess 0 addr σ = (Ok data, σ')) ∧
     ∃ mem, heap σ !! 0%nat = Some mem ∧ num_read_ports mem = 0 ∧
            Z.of_nat (length (readport_nets mem)) = count_reads three_reads) ∧
  (Some 1 = None →
     (∀ addr data enable, ∃ σ', _build 0 addr data enable σ = (Ok tt, σ')) ∧
     ∃ mem, heap σ !! 0%nat = Some mem ∧ num_write_ports mem = 0 ∧
            Z.of_nat (length (writeport_nets mem)) = count_writes three_reads).
Proof.
  apply (uncapped_ports_unlimited 8 4 None (Some 1) false empty_world 0). reflexivity.
Defined.

(** *** Copies *)




(** *** The ports a memory holds *)

Lemma elem_of_block_add net block n :
  n ∈ block_add net block ↔ n ∈ logic block ∨ n = net.
Proof.
  unfold block_add. destruct (decide (net ∈ logic block)).
  - split; [by left|]. by intros [?| ->].
  - rewrite elem_of_app, list_elem_of_singleton. done.
Qed.

Lemma read_port_of_mono self block block' n :
  (∀ m, m ∈ logic block → m ∈ logic block') →
  wirevector_set block ⊆ wirevector_set block' →
  read_port_of self block n → read_port_of self block' n.
Proof.
  intros Hl Hw (Hn & Hop & Hp & addr & data & Ha & Hd & Hc & Hin).
  split; [by apply Hl|]. split; [done|]. split; [done|].
  exists addr, data. repeat split; try done. by apply Hw.
Qed.

Lemma write_port_of_mono self block block' n :
  (∀ m, m ∈ logic block → m ∈ logic block') →
  write_port_of self block n → write_port_of self block' n.
Proof.
  intros Hl (Hn & Hop & Hp & Ha & Hd). split; [by apply Hl|]. done.
Qed.

Lemma request_ports σ self r mem :
  heap σ !! self = Some mem →
  ports_registered self σ mem →
  ∃ mem', heap (request self r σ).2 !! self = Some mem' ∧
          ports_registered self (request self r σ).2 mem'.
Proof.
  intros Hm (Hid & Hr & Hw & Hlt & Hnd).
  destruct (request_cases σ self r mem Hm)
    as [(mem' & Hs & ->) | [(addr & ->) | (addr & data & enable & ->)]]; simpl;
    rewrite lookup_insert_eq; eexists; (split; [done|]).
  - destruct Hs as (? & ? & ? & Hrn & Hid' & ? & ? & Hwn & ?).
    unfold ports_registered. simpl. rewrite Hrn, Hwn, Hid'. done.
  - set (data := mkWire (next_wire σ) Plain).
    set (net := mkNet "m" (Some (id mem)) [addr] [data]).
    assert (readport_nets (with_readport_nets (readport_nets mem ++ [net]) (counted_read mem))
            = readport_nets mem ++ [net]) as Hrn by done.
    assert (writeport_nets (with_readport_nets (readport_nets mem ++ [net]) (counted_read mem))
            = writeport_nets mem) as Hwn.
    { unfold counted_read. by destruct (max_read_ports mem). }
    assert (id (with_readport_nets (readport_nets mem ++ [net]) (counted_read mem))
            = id mem) as Hid'.
    { unfold counted_read. by destruct (max_read_ports mem). }
    unfold ports_registered. rewrite Hrn, Hwn, Hid'. simpl.
    split; [done|]. split; [|split; [|split]].
    + apply Forall_app. split.
      * eapply Forall_impl; [exact Hr|]. intros n. apply read_port_of_mono; simpl.
        -- intros m Hin. apply elem_of_block_add. by left.
        -- set_solver.
      * apply Forall_singleton. split; [apply elem_of_block_add; by right|].
        split; [done|]. split; [simpl; by rewrite Hid|].
        exists addr, data. repeat split; try done. simpl. set_solver.
    + eapply Forall_impl; [exact Hw|]. intros n. apply write_port_of_mono; simpl.
      intros m Hin. apply elem_of_block_add. by left.
    + intros n d [Hn| ->%list_elem_of_singleton]%elem_of_app Hd.
      * specialize (Hlt n d Hn Hd). lia.
      * simpl in Hd. apply list_elem_of_singleton in Hd as ->. simpl. lia.
    + rewrite bind_app. simpl. apply NoDup_app. split; [done|].
      split; [|apply NoDup_singleton].
      intros d Hd Hd'. apply list_elem_of_singleton in Hd' as ->.
      apply list_elem_of_bind in Hd as (n & Hd & Hn).
      specialize (Hlt n data Hn Hd). simpl in Hlt. lia.
  - set (net := mkNet "@" (Some (id mem)) [addr; data; enable] []).
    assert (readport_nets (with_writeport_nets (writeport_nets mem ++ [net]) (counted_write mem))
            = readport_nets mem) as Hrn.
    { unfold counted_write. by destruct (max_write_ports mem). }
    assert (writeport_nets (with_writeport_nets (writeport_nets mem ++ [net]) (counted_write mem))
            = writeport_nets mem ++ [net]) as Hwn by done.
    assert (id (with_writeport_nets (writeport_nets mem ++ [net]) (counted_write mem))
            = id mem) as Hid'.
    { unfold counted_write. by destruct (max_write_ports mem). }
    unfold ports_registered. rewrite Hrn, Hwn, Hid'. simpl.
    split; [done|]. split; [|split; [|split]].
    + eapply Forall_impl; [exact Hr|]. intros n. apply read_port_of_mono; simpl; [|done].
      intros m Hin. apply elem_of_block_add. by left.
    + apply Forall_app. split.
      * eapply Forall_impl; [exact Hw|]. intros n. apply write_port_of_mono; simpl.
        intros m Hin. apply elem_of_block_add. by left.
      * apply Forall_singleton. split; [apply elem_of_block_add; by right|].
        split; [done|]. split; [simpl; by rewrite Hid|]. done.
    + done.
    + done.
Qed.

Lemma requests_ports self rs : ∀ σ mem,
  heap σ !! self = Some mem →
  ports_registered self σ mem →
  ∃ mem', heap (requests self rs σ) !! self = Some mem' ∧
          ports_registered self (requests self rs σ) mem'.
Proof.
  induction rs as [|r rs IH]; intros σ mem Hm Hp; simpl.
  - by exists mem.
  - destruct (request_ports σ self r mem Hm Hp) as (mem1 & Hm1 & Hp1).
    by apply (IH _ mem1).
Qed.

(** X20: Every port a memory holds is a net of the working block: a read port
    is a net [m] with the identity of the memory, one address and one data
    wire, a plain wire of the block; a write port is a net [@] with the
    identity of the memory, three arguments and no destination; and no two
    read ports share their data wire. *)
Theorem ports_are_nets_of_the_block bw aw kr kw async σ0 self σ1 rs :
  new_MemBlock bw aw kr kw async σ0 = (Ok self, σ1) →
  let σ := requests self rs σ1 in
  ∃ mem, heap σ !! self = Some mem ∧
    Forall (read_port_of self (working_block σ)) (readport_nets mem) ∧
    Forall (write_port_of self (working_block σ)) (writeport_nets mem) ∧
    NoDup (readport_nets mem ≫= dests).
Proof.
  intros Hnew σ.
  destruct (requests_ports self rs σ1 (mkMem kr 0 bw aw [] self async kw 0 [] None))
    as (mem & Hm & _ & Hr & Hw & _ & Hnd).
  - by eapply new_MemBlock_heap.
  - unfold ports_registered. simpl. repeat split; try done.
    + intros n d Hn. by apply elem_of_nil in Hn.
    + apply NoDup_nil_2.
  - by exists mem.
Qed.

Lemma ports_are_nets_of_the_block_witness :
  ∃ mem, heap full_mem' !! 0%nat = Some mem ∧
    Forall (read_port_of 0 (working_block full_mem')) (readport_nets mem) ∧
    Forall (write_port_of 0 (working_block full_mem')) (writeport_nets mem) ∧
    NoDup (readport_nets mem ≫= dests).
Proof.
  apply (ports_are_nets_of_the_block 3 3 (Some 2) (Some 1) false empty_world 0 fresh_mem
           three_reads).
  reflexivity.
Defined.

(** *** What [_get_read_data] returns *)

(** X21: A value [_get_read_data] returns was read at an address of the ROM
    and fits its bitwidth, whatever the source of the data: a function, a
    dictionary or a list, padded with zeros or not. *)
Theorem get_read_data_in_range mem address v :
  _get_read_data mem address = Ok v →
  is_Some (rom mem) ∧
  0 <= address < 2 ^ addrwidth mem ∧
  0 <= v < 2 ^ bitwidth mem.
Proof.
  unfold _get_read_data. destruct (rom mem) as [fields|]; [|done].
  destruct (decide (address < 0 ∨ address > 2 ^ addrwidth mem - 1)) as [|Ha]; [done|].
  intros H. split; [done|]. split; [lia|].
  assert (∀ x, check_value mem x = Ok v → 0 <= v < 2 ^ bitwidth mem) as Hc.
  { intros x. unfold check_value.
    destruct (decide (x < 0 ∨ x >= 2 ^ bitwidth mem)); [done|]. intros [= <-]. lia. }
  destruct (data fields) as [f|d|l].
  - destruct (f address); [by eapply Hc|done].
  - destruct (d !! address); [by eapply Hc|].
    destruct (pad_with_zeros fields); [by eapply Hc|done].
  - destruct (list_getitem l address); [by eapply Hc|].
    destruct (pad_with_zeros fields); [by eapply Hc|done].
Qed.

Lemma get_read_data_in_range_witness :
  is_Some (rom (rom_4_2 false)) ∧
  0 <= 1 < 2 ^ addrwidth (rom_4_2 false) ∧
  0 <= 9 < 2 ^ bitwidth (rom_4_2 false).
Proof. apply (get_read_data_in_range (rom_4_2 false) 1 9). reflexivity. Defined.


(** *** RomBlocks and their read ports *)

Lemma count_rom_reads_cons r rs :
  count_rom_reads (r :: rs) = (if is_rom_read r then 1 else 0) + count_rom_reads rs.
Proof.
  unfold count_rom_reads. rewrite filter_cons.
  destruct (decide (is_rom_read r = true)) as [H|H]; destruct (is_rom_read r);
    simpl; try done; lia.
Qed.

Lemma count_rom_reads_nonneg rs : 0 <= count_rom_reads rs.
Proof. unfold count_rom_reads. lia. Qed.

(** Without [build_new_roms] a read of a RomBlock is a read of a MemBlock. *)
Lemma rom_plain_request σ self r d pad k mem :
  heap σ !! self = Some mem →
  rom mem = Some (mkRom d false self pad) →
  max_read_ports mem = Some k →
  ∃ mem', heap (rom_request_run self r σ).2 !! self = Some mem' ∧
    rom mem' = Some (mkRom d false self pad) ∧
    max_read_ports mem' = Some k ∧
    num_read_ports mem' = num_read_ports mem + (if is_rom_read r then 1 else 0) ∧
    _memIndex (rom_request_run self r σ).2 = _memIndex σ.
Proof.
  intros Hm Hrom Hk. destruct r as [addr | item assignment]; simpl.
  - unfold mbind, M_bind.
    rewrite (rom_read_same σ self addr mem _ Hm Hrom) by by left. simpl.
    destruct (decide (num_read_ports mem + 1 > k)) as [Hgt | Hle].
    + rewrite (read_port_fail _ _ _ mem k) by done. simpl. rewrite lookup_insert_eq.
      eexists. split; [done|]. by repeat split.
    + rewrite (read_port_ok _ _ _ mem); [|done|intros ? ?; simplify_eq; lia].
      simpl. rewrite lookup_insert_eq. eexists. split; [done|].
      unfold counted_read. rewrite Hk. by repeat split.
  - exists mem. rewrite Z.add_0_r. by repeat split.
Qed.

Lemma rom_plain_requests self d pad k rs : ∀ σ mem,
  heap σ !! self = Some mem →
  rom mem = Some (mkRom d false self pad) →
  max_read_ports mem = Some k →
  ∃ mem', heap (rom_requests self rs σ) !! self = Some mem' ∧
    rom mem' = Some (mkRom d false self pad) ∧
    max_read_ports mem' = Some k ∧
    num_read_ports mem' = num_read_ports mem + count_rom_reads rs ∧
    _memIndex (rom_requests self rs σ) = _memIndex σ.
Proof.
  induction rs as [|r rs IH]; intros σ mem Hm Hrom Hk; simpl.
  - exists mem. change (count_rom_reads []) with 0. rewrite Z.add_0_r. by repeat split.
  - destruct (rom_plain_request σ self r d pad k mem Hm Hrom Hk)
      as (mem1 & Hm1 & Hrom1 & Hk1 & Hn1 & Hi1).
    destruct (IH _ mem1 Hm1 Hrom1 Hk1) as (mem2 & Hm2 & Hrom2 & Hk2 & Hn2 & Hi2).
    exists mem2. rewrite count_rom_reads_cons. repeat split; try done; [lia|congruence].
Qed.

(** X22: A RomBlock created without [build_new_roms] is capped like a MemBlock:
    with [max_read_ports = k], a read is built when fewer than [k] reads
    were asked for before it and raises the capacity error otherwise, and
    no copy of the ROM is ever made. *)
Theorem rom_without_replication_is_capped bw aw d k async pad σ0 self σ1 rs :
  new_RomBlock bw aw d (Some k) false async pad σ0 = (Ok self, σ1) →
  let σ := rom_requests self rs σ1 in
  (∀ addr,
     (count_rom_reads rs < k →
        ∃ data σ', RomBlock_build_read_port self addr σ = (Ok data, σ')) ∧
     (k <= count_rom_reads rs →
        ∃ σ', RomBlock_build_read_port self addr σ = (Err (read_ports_exceeded k), σ'))) ∧
  _memIndex σ = _memIndex σ1.
Proof.
  intros Hnew σ.
  apply new_RomBlock_world in Hnew as (Hself & Hbw & Haw & ->).
  destruct (rom_plain_requests self d pad k rs
              (mkWorld (working_block σ0) (next_wire σ0) (S (_memIndex σ0))
                 (<[self := mkMem (Some k) 0 bw aw [] self async (Some 0) 0 []
                              (Some (mkRom d false self pad))]> (heap σ0)))
              (mkMem (Some k) 0 bw aw [] self async (Some 0) 0 []
                     (Some (mkRom d false self pad))))
    as (mem & Hm & Hrom & Hk & Hn & Hi); [by simpl; rewrite lookup_insert_eq|done..|].
  fold σ in Hm, Hi. simpl in Hn. split; [|done].
  intros addr. rewrite (rom_read_same σ self addr mem _ Hm Hrom) by by left. simpl.
  split; intros Hc.
  - rewrite (read_port_ok _ _ _ mem); [by eexists _, _|done|].
    intros max Hmax. simplify_eq. lia.
  - rewrite (read_port_fail _ _ _ mem k); [by eexists|done..|lia].
Qed.

Lemma rom_without_replication_is_capped_witness :
  let σ1 := (new_RomBlock 4 2 (RomList [1; 2; 3]) (Some 1) false false false empty_world).2 in
  let σ := rom_requests 0 rom_traffic σ1 in
  (∀ addr,
     (count_rom_reads rom_traffic < 1 →
        ∃ data σ', RomBlock_build_read_port 0 addr σ = (Ok data, σ')) ∧
     (1 <= count_rom_reads rom_traffic →
        ∃ σ', RomBlock_build_read_port 0 addr σ = (Err (read_ports_exceeded 1), σ'))) ∧
  _memIndex σ = _memIndex σ1.
Proof.
  apply (rom_without_replication_is_capped 4 2 (RomList [1; 2; 3]) 1 false false
           empty_world 0).
  reflexivity.
Defined.

Lemma rom_with_current_copy mem d bnr cur pad new :
  rom mem = Some (mkRom d bnr cur pad) →
  rom (with_current_copy new mem) = Some (mkRom d bnr new pad).
Proof. destruct mem. simpl. by intros ->. Qed.

Lemma counted_read_capped mem k nets :
  max_read_ports mem = Some k →
  max_read_ports (with_readport_nets nets (counted_read mem)) = Some k ∧
  num_read_ports (with_readport_nets nets (counted_read mem)) = num_read_ports mem + 1 ∧
  readport_nets (with_readport_nets nets (counted_read mem)) = nets.
Proof. intros Hk. unfold counted_read. rewrite Hk. by repeat split. Qed.

(** A read from a copy that has room. *)
Lemma rom_state_read_room σ self addr d pad k index m :
  rom_state self d pad k index m σ → m < k →
  ∃ data σ', RomBlock_build_read_port self addr σ = (Ok data, σ') ∧
             rom_state self d pad k index (m + 1) σ'.
Proof.
  intros (mem & cur & cc & Hm & Hrom & Hbw & Haw & Hk & Hlt & Hi & Hcc & Hkc & Hn & Hl) Hroom.
  rewrite (rom_read_same σ self addr mem _ Hm Hrom).
  2:{ right. exists cc, k. simpl. repeat split; try done. lia. }
  simpl. rewrite (read_port_ok _ _ _ cc); [|done|intros ? ?; simplify_eq; lia].
  eexists _, _. split; [done|].
  set (net := mkNet "m" (Some (id cc)) [addr] [mkWire (next_wire σ) Plain]).
  set (cc' := with_readport_nets (readport_nets cc ++ [net]) (counted_read cc)).
  assert (max_read_ports cc' = Some k ∧ num_read_ports cc' = m + 1 ∧
          readport_nets cc' = readport_nets cc ++ [net] ∧ rom cc' = rom cc ∧
          bitwidth cc' = bitwidth cc ∧ addrwidth cc' = addrwidth cc)
    as (Hk' & Hn' & Hr' & Hrom' & Hbw' & Haw').
  { unfold cc', counted_read. rewrite Hkc. simpl. repeat split; try done. lia. }
  destruct (decide (cur = self)) as [->|Hne].
  - simplify_eq. exists cc', self, cc'. cbn [heap _memIndex]. rewrite lookup_insert_eq.
    rewrite Hrom', Hbw', Haw', Hr', length_app. cbn [length].
    repeat split; try done. lia.
  - exists mem, cur, cc'. cbn [heap _memIndex].
    rewrite lookup_insert_eq, lookup_insert_ne by done.
    rewrite Hr', length_app. cbn [length]. repeat split; try done. lia.
Qed.

(** A read when the copy in use is full: a copy is made, and the read is
    built on it when the cap is not 0. *)
Lemma rom_state_read_full σ self addr d pad k index m :
  rom_state self d pad k index m σ → k <= m →
  ∃ r σ', RomBlock_build_read_port self addr σ = (r, σ') ∧
          rom_state self d pad k (S index) 1 σ' ∧
          ((1 <= k ∧ ∃ data, r = Ok data) ∨ (k <= 0 ∧ r = Err (read_ports_exceeded k))).
Proof.
  intros (mem & cur & cc & Hm & Hrom & Hbw & Haw & Hk & Hlt & Hi & Hcc & Hkc & Hn & Hl) Hfull.
  rewrite (rom_read_copy σ self addr mem _ cc k Hm Hrom); try done; [|lia..].
  simpl.
  set (new := _memIndex σ).
  set (copy := mkMem (max_read_ports mem) 0 (bitwidth mem) (addrwidth mem) [] new
                     (asynchronous mem) (Some 0) 0 []
                     (Some (mkRom d false new pad))).
  set (σ2 := mkWorld (working_block σ) (next_wire σ) (S new)
               (<[self := with_current_copy new mem]> (<[new := copy]> (heap σ)))).
  assert (self ≠ new) as Hne by (unfold new; lia).
  assert (heap σ2 !! new = Some copy) as Hcopy.
  { simpl. rewrite lookup_insert_ne by done. by rewrite lookup_insert_eq. }
  assert (rom (with_current_copy new mem) = Some (mkRom d true new pad)) as Hrom2
    by by eapply rom_with_current_copy.
  assert (max_read_ports (with_current_copy new mem) = Some k ∧
          bitwidth (with_current_copy new mem) = bitwidth mem ∧
          addrwidth (with_current_copy new mem) = addrwidth mem) as (Hk2 & Hbw2 & Haw2).
  { by destruct mem. }
  assert (∀ cc', max_read_ports cc' = Some k → num_read_ports cc' = 1 →
            Z.of_nat (length (readport_nets cc')) <= 1 →
            ∀ blk nw,
            rom_state self d pad k (S index) 1
              (mkWorld blk nw (S new) (<[new := cc']> (heap σ2)))) as Hst.
  { intros cc' Hk' Hn' Hl' blk nw.
    exists (with_current_copy new mem), new, cc'. cbn [heap _memIndex].
    rewrite lookup_insert_eq. rewrite lookup_insert_ne by done.
    unfold σ2. cbn [heap]. rewrite lookup_insert_eq.
    rewrite Hbw2, Haw2. repeat split; try done; try lia. }
  destruct (decide (1 <= k)) as [Hpos|Hzero].
  - rewrite (read_port_ok _ _ _ copy); [|done|simpl; intros ? ?; simplify_eq; lia].
    eexists _, _. split; [done|]. split; [|left; split; [done|by eexists]].
    destruct (counted_read_capped copy k
                (readport_nets copy ++
                   [mkNet "m" (Some (id copy)) [addr] [mkWire (next_wire σ2) Plain]]) Hk)
      as (Hk' & Hn' & Hr').
    apply Hst; [done|done|]. rewrite Hr'. simpl. lia.
  - rewrite (read_port_fail _ _ _ copy k); [|done|done|simpl; lia].
    eexists _, _. split; [done|]. split; [|right; split; [lia|done]].
    apply Hst; [done|done|simpl; lia].
Qed.

Lemma rom_state_initial bw aw d k async pad σ0 self σ1 :
  new_RomBlock bw aw d (Some k) true async pad σ0 = (Ok self, σ1) →
  rom_state self d pad k (_memIndex σ1) 0 σ1.
Proof.
  intros Hnew. apply new_RomBlock_world in Hnew as (Hself & Hbw & Haw & ->).
  eexists _, self, _. simpl. rewrite lookup_insert_eq. simpl.
  repeat split; try done. lia.
Qed.

Lemma rom_requests_replicating self d pad k rs : 1 <= k → ∀ σ first (c : nat) m,
  rom_state self d pad k (first + c) m σ →
  0 <= m <= k → (m = 0 → c = 0%nat) →
  ∃ (c' : nat) m',
    rom_state self d pad k (first + c') m' (rom_requests self rs σ) ∧
    0 <= m' <= k ∧ (m' = 0 → c' = 0%nat ∧ count_rom_reads rs = 0 ∧ m = 0) ∧
    Z.of_nat c * k + m + count_rom_reads rs = Z.of_nat c' * k + m'.
Proof.
  intros Hk. induction rs as [|r rs IH]; intros σ first c m Hst Hm Hc; simpl.
  - exists c, m. change (count_rom_reads []) with 0.
    repeat split; try done; try lia.
  - rewrite count_rom_reads_cons. pose proof (count_rom_reads_nonneg rs) as Hnn.
    destruct r as [addr | item assignment]; simpl.
    + unfold mbind, M_bind. destruct (decide (m < k)) as [Hroom|Hfull].
      * destruct (rom_state_read_room σ self addr d pad k _ m Hst Hroom)
          as (data & σ' & -> & Hst').
        simpl. destruct (IH σ' first c (m + 1) Hst') as (c' & m' & Hst'' & Hm' & Hz & Hsum);
          [lia|lia|].
        exists c', m'. split; [done|]. split; [done|]. split; [|lia].
        intros Hm0. destruct (Hz Hm0) as (_ & _ & ?). lia.
      * destruct (rom_state_read_full σ self addr d pad k _ m Hst ltac:(lia))
          as (r & σ' & -> & Hst' & Hr).
        assert (∃ x, (match r with
                      | Ok a => (mret () : M unit) σ' | Err e => (Err e, σ') end) = (x, σ'))
          as [x ->] by (destruct r; by eexists).
        cbn [snd].
        replace (S (first + c)) with (first + S c)%nat in Hst' by lia.
        destruct (IH σ' first (S c) 1 Hst') as (c' & m' & Hst'' & Hm' & Hz & Hsum);
          [lia|lia|].
        exists c', m'. split; [done|]. split; [done|]. split; [|lia].
        intros Hm0. destruct (Hz Hm0) as (_ & _ & ?). lia.
    + destruct (IH σ first c m Hst Hm Hc) as (c' & m' & Hst' & Hm' & Hz & Hsum).
      exists c', m'. split; [done|]. split; [done|]. split; [|lia].
      intros Hm0. destruct (Hz Hm0) as (? & ? & ?). repeat split; try done.
Qed.

(** X23: A RomBlock created with [build_new_roms=True] and a cap [k] of 1 or
    more never refuses a read: when the copy in use is full a new copy is
    made and the read is built there.  No copy counts more than [k] reads
    or holds more than [k] ports; after [n] reads, [n > 0], the ROM has made
    [(n - 1) / k] copies and the copy in use has counted
    [(n - 1) mod k + 1] reads. *)
Theorem rom_replication_never_refuses bw aw d k async pad σ0 self σ1 rs :
  new_RomBlock bw aw d (Some k) true async pad σ0 = (Ok self, σ1) →
  1 <= k →
  let σ := rom_requests self rs σ1 in
  let n := count_rom_reads rs in
  (∀ addr, ∃ data σ', RomBlock_build_read_port self addr σ = (Ok data, σ')) ∧
  ∃ mem fields cc,
    heap σ !! self = Some mem ∧ rom mem = Some fields ∧
    heap σ !! current_copy fields = Some cc ∧
    num_read_ports cc <= k ∧ Z.of_nat (length (readport_nets cc)) <= k ∧
    (0 < n →
       Z.of_nat (_memIndex σ) = Z.of_nat (_memIndex σ1) + (n - 1) / k ∧
       num_read_ports cc = (n - 1) mod k + 1).
Proof.
  intros Hnew Hk σ n.
  pose proof (rom_state_initial _ _ _ _ _ _ _ _ _ Hnew) as Hst0.
  replace (_memIndex σ1) with (_memIndex σ1 + 0)%nat in Hst0 by lia.
  destruct (rom_requests_replicating self d pad k rs Hk σ1 (_memIndex σ1) 0%nat 0 Hst0)
    as (c & m & Hst & Hm & Hz & Hsum); [lia|done|].
  fold σ in Hst. fold n in Hsum, Hz. split.
  - intros addr. destruct (decide (m < k)) as [Hroom|Hfull].
    + destruct (rom_state_read_room σ self addr d pad k _ m Hst Hroom)
        as (data & σ' & Hr & _). by exists data, σ'.
    + destruct (rom_state_read_full σ self addr d pad k _ m Hst ltac:(lia))
        as (r & σ' & Hr & _ & [(_ & data & ->)|(? & _)]); [|lia].
      by exists data, σ'.
  - destruct Hst as (mem & cur & cc & Hmem & Hrom & _ & _ & _ & _ & Hi & Hcc & _ & Hn & Hl).
    exists mem, (mkRom d true cur pad), cc. split; [done|]. split; [done|]. simpl.
    split; [done|]. split; [lia|]. split; [lia|].
    intros Hpos. assert (1 <= m) as Hm1.
    { destruct (decide (m = 0)) as [Hm0|]; [|lia]. destruct (Hz Hm0) as (_ & ? & _). lia. }
    assert (n - 1 = k * Z.of_nat c + (m - 1)) as Hdiv by lia.
    split.
    + rewrite <- (Z.div_unique (n - 1) k (Z.of_nat c) (m - 1)); [lia|lia|done].
    + rewrite <- (Z.mod_unique (n - 1) k (Z.of_nat c) (m - 1)); [lia|lia|done].
Qed.

Lemma rom_replication_never_refuses_witness :
  let σ := rom_requests 0 rom_traffic fresh_rom in
  let n := count_rom_reads rom_traffic in
  (∀ addr, ∃ data σ', RomBlock_build_read_port 0 addr σ = (Ok data, σ')) ∧
  ∃ mem fields cc,
    heap σ !! 0%nat = Some mem ∧ rom mem = Some fields ∧
    heap σ !! current_copy fields = Some cc ∧
    num_read_ports cc <= 2 ∧ Z.of_nat (length (readport_nets cc)) <= 2 ∧
    (0 < n →
       Z.of_nat (_memIndex σ) = Z.of_nat (_memIndex fresh_rom) + (n - 1) / 2 ∧
       num_read_ports cc = (n - 1) mod 2 + 1).
Proof.
  apply (rom_replication_never_refuses 4 2 (RomDict (<[0 := 5]> (<[1 := 9]> ∅))) 2
           false false empty_world 0 fresh_rom rom_traffic); [reflexivity|lia].
Defined.

Lemma rom_requests_zero_cap self d pad rs : ∀ σ index m,
  rom_state self d pad 0 index m σ → 0 <= m →
  ∃ m', rom_state self d pad 0 (index + Z.to_nat (count_rom_reads rs)) m'
          (rom_requests self rs σ) ∧ 0 <= m'.
Proof.
  induction rs as [|r rs IH]; intros σ index m Hst Hm; cbn [rom_requests].
  - exists m. change (count_rom_reads []) with 0. change (Z.to_nat 0) with 0%nat.
    replace (index + 0)%nat with index by lia. by split.
  - rewrite count_rom_reads_cons. pose proof (count_rom_reads_nonneg rs) as Hnn.
    destruct r as [addr | item assignment]; simpl.
    + unfold mbind, M_bind.
      destruct (rom_state_read_full σ self addr d pad 0 _ m Hst Hm)
        as (r & σ' & -> & Hst' & Hr).
      assert (∃ x, (match r with
                    | Ok a => (mret () : M unit) σ' | Err e => (Err e, σ') end) = (x, σ'))
        as [x ->] by (destruct r; by eexists).
      cbn [snd].
      destruct (IH σ' (S index) 1 Hst') as (m' & Hst'' & Hm'); [lia|].
      exists m'. split; [|done].
      by replace (index + Z.to_nat (1 + count_rom_reads rs))%nat
        with (S index + Z.to_nat (count_rom_reads rs))%nat by lia.
    + destruct (IH σ index m Hst Hm) as (m' & Hst' & Hm'). by exists m'.
Qed.

(** X24: With a cap of 0, [build_new_roms=True] does not help: every read makes
    a new copy of the ROM and raises the capacity error all the same. *)
Theorem rom_replication_with_zero_cap bw aw d async pad σ0 self σ1 rs :
  new_RomBlock bw aw d (Some 0) true async pad σ0 = (Ok self, σ1) →
  let σ := rom_requests self rs σ1 in
  (∀ addr, ∃ σ',
     RomBlock_build_read_port self addr σ = (Err (read_ports_exceeded 0), σ') ∧
     _memIndex σ' = S (_memIndex σ)) ∧
  Z.of_nat (_memIndex σ) = Z.of_nat (_memIndex σ1) + count_rom_reads rs.
Proof.
  intros Hnew σ.
  pose proof (rom_state_initial _ _ _ _ _ _ _ _ _ Hnew) as Hst0.
  destruct (rom_requests_zero_cap self d pad rs σ1 _ 0 Hst0) as (m & Hst & Hm); [done|].
  fold σ in Hst. pose proof (count_rom_reads_nonneg rs) as Hnn. split.
  - intros addr.
    destruct (rom_state_read_full σ self addr d pad 0 _ m Hst Hm)
      as (r & σ' & Hr & Hst' & [(? & _)|(_ & ->)]); [lia|].
    exists σ'. split; [done|].
    destruct Hst as (? & ? & ? & _ & _ & _ & _ & _ & _ & Hi & _).
    destruct Hst' as (? & ? & ? & _ & _ & _ & _ & _ & _ & Hi' & _).
    lia.
  - destruct Hst as (? & ? & ? & _ & _ & _ & _ & _ & _ & Hi & _). lia.
Qed.

Lemma rom_replication_with_zero_cap_witness :
  let σ1 := (new_RomBlock 4 2 (RomList [1; 2; 3]) (Some 0) true false false empty_world).2 in
  let σ := rom_requests 0 rom_traffic σ1 in
  (∀ addr, ∃ σ',
     RomBlock_build_read_port 0 addr σ = (Err (read_ports_exceeded 0), σ') ∧
     _memIndex σ' = S (_memIndex σ)) ∧
  Z.of_nat (_memIndex σ) = Z.of_nat (_memIndex σ1) + count_rom_reads rom_traffic.
Proof.
  apply (rom_replication_with_zero_cap 4 2 (RomList [1; 2; 3]) false false empty_world 0).
  reflexivity.
Defined.

End MemMoreFacts.

(** * More properties of the loop detector *)

Module LoopMoreFacts.
Import Loop LoopMore LoopFacts.

(** *** The loop [find_loop] reports *)

Lemma find_loop_return_state sanity_check fuel rnd block loop_info :
  find_loop sanity_check fuel rnd block = Some (ReturnLoop loop_info) →
  ∃ ll wl x st,
    prune_loop fuel (length (logic block) + 1) (logic block)
               (wirevector_subset_exclude block) = Some (ll, wl) ∧
    reachable (build_dest_nets ll) (initial_state wl x) st ∧
    checking_stack st ≠ [] ∧
    loop_body (build_dest_nets ll) st = Return loop_info.
Proof.
  unfold find_loop. destruct (sanity_check block); [|done].
  destruct (_check_for_loop fuel block) as [r|] eqn:Hc; [|done].
  apply check_for_loop_inv in Hc as (ll & wl & Hp & ->).
  destruct (decide (0 = length ll)%nat); [done|].
  destruct (random_sample rnd wl) as [x|]; [|done].
  intros Hs.
  destruct (search_loop_reach fuel _ (initial_state wl x) _ _
              (reachable_start _ _) Hs)
    as (st & Hreach & [[_ ?]|[Hne [(l & Hb & ?)|(e & _ & ?)]]]); try done.
  simplify_eq. by exists ll, wl, x, st.
Qed.

(** X25: Whatever the block and whatever the sanity check lets through, a list
    of frames that [find_loop] returns is a loop of the block: it is not
    empty, each frame holds a net of the block that drives the wire of the
    frame and is no register, and the nets feed each other in a cycle. *)
Theorem reported_loop_is_a_cycle (sanity_check : Block → bool) (fuel rnd : nat)
    (block : Block) (loop_info : list _FilteringState) :
  find_loop sanity_check fuel rnd block = Some (ReturnLoop loop_info) →
  loop_info ≠ [] ∧
  ∃ ns, frame_nets loop_info ns ∧ comb_loop block ns.
Proof.
  intros H.
  apply find_loop_return_state in H as (ll & wl & x & st & Hp & Hreach & Hne & Hb).
  pose proof (reachable_stack_inv _ _ _ (stack_inv_initial _ wl x) Hreach) as Hinv.
  pose proof (loop_body_spec (build_dest_nets ll) st Hne) as Hspec. rewrite Hb in Hspec.
  destruct (body_return_loop _ ll _ _ (build_dest_nets_of ll) Hinv Hspec)
    as (Hlne & ns & Hns & Hnsne & Hall & Hch).
  destruct (prune_loop_subset _ _ _ _ _ _ Hp) as [Hll _].
  split; [done|]. exists ns. split; [done|].
  split; [done|]. split; [|done].
  eapply Forall_impl; [exact Hall|]. intros n [Hn Hr']. split; [by apply Hll | done].
Qed.

Lemma reported_loop_is_a_cycle_witness :
  two_gate_found ≠ [] ∧
  ∃ ns, frame_nets two_gate_found ns ∧ comb_loop two_gate_block ns.
Proof.
  apply (reported_loop_is_a_cycle sane_check (enough_fuel two_gate_block) 0 two_gate_block).
  vm_compute. reflexivity.
Defined.

(** X26: The loop reported goes through each of its wires once: the frames
    returned are at wires that differ from each other. *)
Theorem reported_loop_is_simple (sanity_check : Block → bool) (fuel rnd : nat)
    (block : Block) (loop_info : list _FilteringState) :
  find_loop sanity_check fuel rnd block = Some (ReturnLoop loop_info) →
  NoDup (dst_w <$> loop_info).
Proof.
  intros H.
  apply find_loop_return_state in H as (ll & wl & x & st & Hp & Hreach & Hne & Hb).
  pose proof (reachable_stack_inv _ _ _ (stack_inv_initial _ wl x) Hreach) as Hinv.
  pose proof (loop_body_spec (build_dest_nets ll) st Hne) as Hspec. rewrite Hb in Hspec.
  destruct (body_return_run _ _ _ Hinv Hspec)
    as (next_wire & stack & current' & deeper & pre & f & _ & Hinv' & _ & _ & Hst & _).
  pose proof (inv_nodup _ _ Hinv') as Hnd. simpl in Hnd.
  rewrite Hst, fmap_app, fmap_reverse in Hnd.
  apply NoDup_app in Hnd as (_ & _ & Hnd). by rewrite reverse_Permutation in Hnd.
Qed.

Lemma reported_loop_is_simple_witness : NoDup (dst_w <$> two_gate_found).
Proof.
  apply (reported_loop_is_simple sane_check (enough_fuel two_gate_block) 0 two_gate_block).
  vm_compute. reflexivity.
Defined.


(** *** What the pruning leaves *)

Lemma prune_pass_above (all L : list LogicNet) (W : gset WireVector) :
  fed L W →
  (∀ n x, n ∈ all → n ∉ L → x ∈ dests n → x ∉ W) →
  ∀ nets wl rm wl',
    (∀ n, n ∈ nets → n ∈ all) →
    prune_pass nets wl = (rm, wl') →
    W ⊆ wl →
    W ⊆ wl' ∧ ∀ n, n ∈ rm → n ∉ L.
Proof.
  intros Hfed Hout. induction nets as [|net rest IH]; intros wl rm wl' Hall H HW; simpl in H.
  - simplify_eq. split; [done|]. by intros n Hn%elem_of_nil.
  - destruct (any_arg_left wl net) eqn:E.
    + apply (IH wl); [|done|done]. intros n Hn. apply Hall. by right.
    + destruct (prune_pass rest (wl ∖ list_to_set (dests net))) as [rm0 wl0] eqn:E2.
      simplify_eq.
      assert (net ∉ L) as HnL.
      { intros HL. destruct (Hfed net HL) as (a & Ha & HaW).
        assert (any_arg_left wl net = true) as Ht.
        { apply any_arg_left_true. exists a. split; [done|]. by apply HW. }
        congruence. }
      assert (net ∈ all) as Hnet by (apply Hall; by left).
      assert (∀ n, n ∈ rest → n ∈ all) as Hrest by (intros n Hn; apply Hall; by right).
      destruct (IH _ _ _ Hrest E2) as [HW0 Hrm0].
      { intros x Hx. apply elem_of_difference. split; [by apply HW|].
        rewrite elem_of_list_to_set. intros Hd.
        by apply (Hout net x Hnet HnL Hd). }
      split; [done|]. intros n [->|Hn]%elem_of_cons; [done|by apply Hrm0].
Qed.

Lemma pruned_greatest block fuel ll wl L W :
  prune_loop fuel (length (logic block) + 1) (logic block)
             (wirevector_subset_exclude block) = Some (ll, wl) →
  self_supporting block L W →
  (∀ n, n ∈ L → n ∈ ll) ∧ W ⊆ wl.
Proof.
  intros Hp (HL & HW & Hfed & Hout).
  pose proof (prune_loop_inv
    (λ ll wl, (∀ n, n ∈ L → n ∈ ll) ∧ W ⊆ wl ∧ ∀ n, n ∈ ll → n ∈ logic block)) as Hinv.
  destruct (Hinv) with (fuel := fuel) (prev := (length (logic block) + 1)%nat)
    (ll := logic block) (wl := wirevector_subset_exclude block) (ll' := ll) (wl' := wl)
    as (H1 & H2 & _); [|done|done|done].
  clear Hinv. intros ll0 wl0 rm wl0' (HL0 & HW0 & Hall0) Hpass.
  destruct (prune_pass_above (logic block) L W Hfed Hout ll0 wl0 rm wl0' Hall0 Hpass HW0)
    as [HW' Hrm].
  split; [|split; [done|]].
  - intros n Hn. apply elem_of_remove_nets. split; [|by apply HL0].
    intros Hr. by apply (Hrm n Hr).
  - intros n Hn%elem_of_remove_nets. apply Hall0. by destruct Hn.
Qed.

Lemma pruned_self_supporting block fuel ll wl :
  prune_loop fuel (length (logic block) + 1) (logic block)
             (wirevector_subset_exclude block) = Some (ll, wl) →
  self_supporting block ll wl.
Proof.
  intros Hp. destruct (prune_loop_subset _ _ _ _ _ _ Hp) as [Hll Hwl].
  split; [done|]. split; [done|]. split.
  { apply (prune_loop_fixed fuel (length (logic block) + 1) (logic block)
             (wirevector_subset_exclude block)); [left; lia | done]. }
  pose proof (prune_loop_inv
    (λ ll wl, ∀ n x, n ∈ logic block → n ∉ ll → x ∈ dests n → x ∉ wl)) as Hinv.
  apply Hinv with (fuel := fuel) (prev := (length (logic block) + 1)%nat)
    (ll := logic block) (wl := wirevector_subset_exclude block); [|done|done].
  clear Hinv. intros ll0 wl0 rm wl0' Hinv0 Hpass n x Hn Hnot Hx.
  destruct (prune_pass_spec _ _ _ _ Hpass) as (Hsub & Hrm & _ & _).
  destruct (decide (n ∈ rm)) as [Hr|Hr].
  - destruct (Hrm n Hr) as [_ Hd]. by apply Hd.
  - intros Hxw. apply (Hinv0 n x Hn); [|done|by apply Hsub].
    intros Hnl. apply Hnot. by apply elem_of_remove_nets.
Qed.

(** X27: What [_check_for_loop] returns is the greatest part of the block that
    supports itself.  The nets and wires it returns are such a part, with a
    net at least, and contain every such part; it returns None exactly when
    no net belongs to such a part. *)
Theorem pruning_leaves_the_greatest_part (fuel : nat) (block : Block)
    (r : option (gset WireVector * list LogicNet)) :
  _check_for_loop fuel block = Some r →
  match r with
  | None => ∀ L W, self_supporting block L W → L = []
  | Some (wl, ll) =>
      ll ≠ [] ∧ self_supporting block ll wl ∧
      ∀ L W, self_supporting block L W → (∀ n, n ∈ L → n ∈ ll) ∧ W ⊆ wl
  end.
Proof.
  intros H. apply check_for_loop_inv in H as (ll & wl & Hp & ->).
  destruct (decide (0 = length ll)%nat) as [H0|H0].
  - intros L W HLW. destruct (pruned_greatest _ _ _ _ L W Hp HLW) as [HL _].
    destruct ll; [|done]. destruct L as [|n L]; [done|].
    specialize (HL n ltac:(by left)). by apply elem_of_nil in HL.
  - split; [by intros ->|]. split; [by eapply pruned_self_supporting|].
    intros L W HLW. by eapply pruned_greatest.
Qed.

Lemma pruning_leaves_the_greatest_part_witness :
  let ll := logic two_gate_block in
  ll ≠ [] ∧ self_supporting two_gate_block ll two_gate_wires ∧
  ∀ L W, self_supporting two_gate_block L W → (∀ n, n ∈ L → n ∈ ll) ∧ W ⊆ two_gate_wires.
Proof.
  apply (pruning_leaves_the_greatest_part (enough_fuel two_gate_block) two_gate_block
           (Some (two_gate_wires, logic two_gate_block))).
  vm_compute. reflexivity.
Defined.

Lemma self_supporting_same block block' L W :
  (∀ n, n ∈ logic block' ↔ n ∈ logic block) →
  wirevector_set block' = wirevector_set block →
  self_supporting block L W → self_supporting block' L W.
Proof.
  intros Hl Hw (HL & HW & Hfed & Hout). split; [|split; [|split; [done|]]].
  - intros n Hn. apply Hl. by apply HL.
  - unfold wirevector_subset_exclude in *. by rewrite Hw.
  - intros n x Hn. apply Hout. by apply Hl.
Qed.

(** X28: The result of [_check_for_loop] does not depend on the order in which
    the nets of the set [logic] are met: two blocks with the same nets and
    the same wires give None both, or the same wires and the same nets. *)
Theorem pruning_is_order_independent (fuel fuel' : nat) (block block' : Block)
    (r r' : option (gset WireVector * list LogicNet)) :
  (∀ n, n ∈ logic block' ↔ n ∈ logic block) →
  wirevector_set block' = wirevector_set block →
  _check_for_loop fuel block = Some r →
  _check_for_loop fuel' block' = Some r' →
  match r, r' with
  | None, None => True
  | Some (wl, ll), Some (wl', ll') => wl' = wl ∧ ∀ n, n ∈ ll' ↔ n ∈ ll
  | _, _ => False
  end.
Proof.
  intros Hl Hw H H'.
  apply check_for_loop_inv in H as (ll & wl & Hp & ->).
  apply check_for_loop_inv in H' as (ll' & wl' & Hp' & ->).
  pose proof (pruned_self_supporting _ _ _ _ Hp) as Hs.
  pose proof (pruned_self_supporting _ _ _ _ Hp') as Hs'.
  assert (self_supporting block ll' wl') as Hs1.
  { apply (self_supporting_same block'); [by intros n; symmetry|done|done]. }
  assert (self_supporting block' ll wl) as Hs2 by by apply (self_supporting_same block).
  destruct (pruned_greatest _ _ _ _ _ _ Hp Hs1) as [Ha Hb].
  destruct (pruned_greatest _ _ _ _ _ _ Hp' Hs2) as [Ha' Hb'].
  destruct (decide (0 = length ll)%nat) as [H0|H0];
    destruct (decide (0 = length ll')%nat) as [H0'|H0']; try done.
  - destruct ll; [|done]. destruct ll' as [|n ll']; [done|].
    specialize (Ha n ltac:(by left)). by apply elem_of_nil in Ha.
  - destruct ll'; [|done]. destruct ll as [|n ll]; [done|].
    specialize (Ha' n ltac:(by left)). by apply elem_of_nil in Ha'.
  - split; [by apply (anti_symm (⊆))|]. intros n. split; [apply Ha|apply Ha'].
Qed.

Lemma pruning_is_order_independent_witness :
  let block' := mkBlock (reverse (logic two_loop_block)) (wirevector_set two_loop_block) in
  ∃ wl ll wl' ll',
    _check_for_loop (enough_fuel two_loop_block) two_loop_block = Some (Some (wl, ll)) ∧
    _check_for_loop (enough_fuel two_loop_block) block' = Some (Some (wl', ll')) ∧
    wl' = wl ∧ ∀ n, n ∈ ll' ↔ n ∈ ll.
Proof.
  intros block'. eexists _, _, _, _.
  split; [vm_compute; reflexivity|]. split; [vm_compute; reflexivity|].
  apply (pruning_is_order_independent (enough_fuel two_loop_block)
           (enough_fuel two_loop_block) two_loop_block block' (Some (_, _)) (Some (_, _))).
  - intros n. apply elem_of_reverse.
  - reflexivity.
  - vm_compute. reflexivity.
  - vm_compute. reflexivity.
Defined.


(** *** [_check_for_loop] as a test for loops *)

(** X29: On a block that is sane, [_check_for_loop] returns None exactly when
    the block has no combinational loop: the pruning removes every net
    when there is none, and leaves the nets of every loop when there is
    one. *)
Theorem check_for_loop_decides (fuel : nat) (block : Block)
    (r : option (gset WireVector * list LogicNet)) :
  sane block →
  _check_for_loop fuel block = Some r →
  r = None ↔ ∀ ns, ¬ comb_loop block ns.
Proof.
  intros Hs H. apply check_for_loop_inv in H as (ll & wl & Hp & ->).
  destruct (decide (0 = length ll)%nat) as [H0|H0].
  - split; [|done]. intros _ ns Hns.
    apply (loop_survives _ _ _ _ _ Hs Hns Hp). by destruct ll.
  - split; [done|]. intros Hno. exfalso.
    assert (sane_check block = true) as Hsc by by apply bool_decide_eq_true.
    set (fuel' := (fuel `max` enough_fuel block)%nat).
    assert (prune_loop fuel' (length (logic block) + 1) (logic block)
              (wirevector_subset_exclude block) = Some (ll, wl)) as Hp'.
    { apply (prune_loop_mono fuel); [done|lia]. }
    destruct (find_loop_after_prune sane_check sane_check_sane block fuel' 0 ll wl)
      as (l & ns & _ & _ & _ & Hns); [done|lia|done|by intros ->|].
    by apply (Hno ns).
Qed.

Lemma check_for_loop_decides_witness :
  Some (two_gate_wires, logic two_gate_block) = None ↔
  ∀ ns, ¬ comb_loop two_gate_block ns.
Proof.
  apply (check_for_loop_decides (enough_fuel two_gate_block) two_gate_block).
  - apply sane_check_sane. vm_compute. reflexivity.
  - vm_compute. reflexivity.
Defined.

End LoopMoreFacts.
